(** * TON 618 simulation engine: a shallow embedding of the update code

    The JavaScript sources compute on IEEE doubles.  This development
    idealises a JavaScript number as a real number ([R]): rounding, NaN
    and the infinities are outside the model, and every statement that
    goes through [Math.pow] carries the hypotheses that keep it on the
    positive reals, where the idealisation is meaningful.  Integer
    counters are integers ([Z]) and loop bounds natural numbers.
    [Math.random()] is an explicit source of draws that is threaded
    through the code in call order.

    Rendering side effects (instance matrices, colours, meshes, trails)
    do not feed back into the physical state and are left out; the
    presence of a mesh is kept as a flag where the code tests it. *)

From Stdlib Require Import Reals Lra Lia List Bool Arith ZArith.
Import ListNotations.

Open Scope R_scope.

(** ** JavaScript [Math] on the reals *)

Module JsMath.

(** [Math.pow(x, y)].  On a positive base it is [exp (y * ln x)].  A zero
    base with a positive exponent gives 0.  The remaining cases give NaN
    or an infinity in JavaScript and carry no meaning here. *)
Definition pow (x y : R) : R :=
  if Rlt_dec 0 x then Rpower x y
  else if Rlt_dec 0 y then 0 else 1.

(** The comparisons [a < b], [a > b], [a <= b], [a >= b] as tests. *)
Definition ltb (a b : R) : bool := if Rlt_dec a b then true else false.
Definition gtb (a b : R) : bool := ltb b a.
Definition leb (a b : R) : bool := if Rle_dec a b then true else false.
Definition geb (a b : R) : bool := leb b a.

Definition max (a b : R) : R := Rmax a b.
Definition min (a b : R) : R := Rmin a b.
Definition abs (a : R) : R := Rabs a.

(** A boolean in arithmetic position ([rate * params.showFrameDragging]). *)
Definition of_bool (b : bool) : R := if b then 1 else 0.

End JsMath.

(** ** [Math.random()] as a stream of draws *)

Module Rng.

Record t : Type := mk { draws : nat -> R; cursor : nat }.

(** One call of [Math.random()]: the draw under the cursor, cursor moved. *)
Definition next (g : t) : R * t :=
  (draws g (cursor g), mk (draws g) (S (cursor g))).

End Rng.

(** ** [THREE.Vector3] and [THREE.Vector2]

    The methods of three.js mutate their receiver and return it; the code
    calls them on fresh clones except where noted at the call site, so
    they are pure functions here and the one in-place call is written out
    as an assignment. *)

Module Vec.

Record vec3 : Type := V3 { x : R; y : R; z : R }.

Definition zero : vec3 := V3 0 0 0.
Definition add (a b : vec3) : vec3 := V3 (x a + x b) (y a + y b) (z a + z b).
Definition sub (a b : vec3) : vec3 := V3 (x a - x b) (y a - y b) (z a - z b).
Definition multiplyScalar (a : vec3) (s : R) : vec3 :=
  V3 (x a * s) (y a * s) (z a * s).
Definition dot (a b : vec3) : R := x a * x b + y a * y b + z a * z b.
Definition cross (a b : vec3) : vec3 :=
  V3 (y a * z b - z a * y b) (z a * x b - x a * z b) (x a * y b - y a * x b).
Definition length (a : vec3) : R := sqrt (x a * x a + y a * y a + z a * z a).

(** [divideScalar(s)] is [multiplyScalar(1 / s)]. *)
Definition divideScalar (a : vec3) (s : R) : vec3 := multiplyScalar a (1 / s).

(** [normalize()] is [divideScalar(length() || 1)]: the zero vector stays. *)
Definition normalize (a : vec3) : vec3 :=
  divideScalar a (if Req_dec_T (length a) 0 then 1 else length a).

Record vec2 : Type := V2 { x2 : R; y2 : R }.

Definition length2 (a : vec2) : R := sqrt (x2 a * x2 a + y2 a * y2 a).
Definition normalize2 (a : vec2) : vec2 :=
  let l := if Req_dec_T (length2 a) 0 then 1 else length2 a in
  V2 (x2 a * (1 / l)) (y2 a * (1 / l)).
Definition dot2 (a b : vec2) : R := x2 a * x2 b + y2 a * y2 b.

End Vec.

Import Vec.

(** ** OrbitalMechanics *)

Module OrbitalMechanics.

Record t : Type := mk { blackHoleMass : R; G : R }.

(** [new OrbitalMechanics(blackHoleMass = 66e9)] *)
Definition construct (bhm : R) : t := mk bhm 0.1.

(** [calculateHillSphere(bodyMass, orbitalRadius)] *)
Definition calculateHillSphere (om : t) (bodyMass orbitalRadius : R) : R :=
  orbitalRadius * JsMath.pow (bodyMass / (3 * blackHoleMass om)) (1 / 3).

(** [calculateBlackHoleGravity(position)]; [new THREE.Vector3()] is the
    zero vector. *)
Definition calculateBlackHoleGravity (om : t) (position : vec3) : vec3 :=
  let distance := length position in
  if JsMath.ltb distance 0.1 then V3 0 0 0
  else
    let forceMagnitude := (G om * blackHoleMass om) / JsMath.pow distance 2 in
    let direction := multiplyScalar (normalize position) (-1) in
    multiplyScalar direction forceMagnitude.

(** [calculateGravityBetween(pos1, mass1, pos2, mass2)]: the acceleration
    of body 1 toward body 2. *)
Definition calculateGravityBetween (om : t) (pos1 : vec3) (mass1 : R)
  (pos2 : vec3) (mass2 : R) : vec3 :=
  let displacement := sub pos2 pos1 in
  let distance := length displacement in
  if JsMath.ltb distance 0.1 then V3 0 0 0
  else
    let forceMagnitude := (G om * mass1 * mass2) / JsMath.pow distance 2 in
    let direction := normalize displacement in
    multiplyScalar direction (forceMagnitude / mass1).

(** [calculateRocheLimit(bodyRadius, bodyDensity, blackHoleDensity)] *)
Definition calculateRocheLimit (bodyRadius bodyDensity blackHoleDensity : R) : R :=
  2.44 * bodyRadius * JsMath.pow (blackHoleDensity / bodyDensity) (1 / 3).

(** [calculateEscapeVelocity(mass, distance)] *)
Definition calculateEscapeVelocity (om : t) (mass distance : R) : R :=
  if JsMath.ltb distance 0.1 then 0
  else sqrt ((2 * G om * mass) / distance).

(** [calculateOrbitalVelocity(mass, radius)] *)
Definition calculateOrbitalVelocity (om : t) (mass radius : R) : R :=
  if JsMath.ltb radius 0.1 then 0
  else sqrt ((G om * mass) / radius).





End OrbitalMechanics.

(** ** CompanionStar (src/physics/CompanionStar.js) *)

Module CompanionStar.

Record t : Type := mk {
  blackHoleMass : R;
  mass : R;
  radius : R;
  temperature : R;
  orbitalRadius : R;
  orbitalVelocity : R;
  windVelocity : R;
  windDensity : R;
  enableWind : bool;
  gravitationalStrength : R;
  influenceRadius : R;
  enableGravity : bool;
  hawkingRadiationIntensity : R;
  enableQuantumEffects : bool;
  angle : R;
  inclination : R;
  eccentricity : R;
  position : vec3;
  velocity : vec3
}.

(** The [params] object of the constructor and of [setParameters]: a
    property that is [undefined] is [None]. *)
Record params : Type := mkParams {
  p_mass : option R;
  p_radius : option R;
  p_temperature : option R;
  p_orbitalRadius : option R;
  p_orbitalVelocity : option R;
  p_windVelocity : option R;
  p_windDensity : option R;
  p_gravitationalStrength : option R;
  p_hawkingRadiationIntensity : option R;
  p_enableWind : option bool;
  p_enableGravity : option bool;
  p_enableQuantumEffects : option bool;
  p_showInfluenceSphere : option bool;
  p_initialAngle : option R;
  p_inclination : option R;
  p_eccentricity : option R
}.

Definition noParams : params :=
  mkParams None None None None None None None None None
           None None None None None None None.

(** [params.f || d] on a number: [undefined] and 0 both give the default. *)
Definition or_default (o : option R) (d : R) : R :=
  match o with
  | Some v => if Req_dec_T v 0 then d else v
  | None => d
  end.

(** [params.f !== undefined ? params.f : d] *)
Definition defined_or (o : option bool) (d : bool) : bool :=
  match o with Some b => b | None => d end.

(** [calculateHillRadius()] *)
Definition calculateHillRadius (mass orbitalRadius blackHoleMass : R) : R :=
  let massRatio := mass / (blackHoleMass / 1e9) in
  orbitalRadius * JsMath.pow (massRatio / 3) (1 / 3).

(** [calculateOrbitalVelocity(radius)] *)
Definition calculateOrbitalVelocity (blackHoleMass radius : R) : R :=
  let G := 0.1 in
  sqrt ((G * blackHoleMass) / radius).

(** [updateOrbitalPosition()] *)
Definition orbitalPosition (angle inclination orbitalRadius : R) : vec3 :=
  V3 (cos angle * orbitalRadius)
     (sin inclination * orbitalRadius * sin angle)
     (sin angle * orbitalRadius * cos inclination).

Definition orbitalVelocityVector (angle inclination orbitalVelocity : R) : vec3 :=
  V3 (- sin angle * orbitalVelocity)
     (cos inclination * orbitalVelocity * cos angle)
     (cos angle * orbitalVelocity * cos inclination).

Definition updateOrbitalPosition (c : t) : t :=
  mk (blackHoleMass c) (mass c) (radius c) (temperature c) (orbitalRadius c)
     (orbitalVelocity c) (windVelocity c) (windDensity c) (enableWind c)
     (gravitationalStrength c) (influenceRadius c) (enableGravity c)
     (hawkingRadiationIntensity c) (enableQuantumEffects c)
     (angle c) (inclination c) (eccentricity c)
     (orbitalPosition (angle c) (inclination c) (orbitalRadius c))
     (orbitalVelocityVector (angle c) (inclination c) (orbitalVelocity c)).

(** [new CompanionStar(scene, blackHoleMass, params)] *)
Definition construct (bhm : R) (ps : params) : t :=
  let m := or_default (p_mass ps) 40 in
  let rad := or_default (p_radius ps) 15 in
  let temp := or_default (p_temperature ps) 40000 in
  let orad := or_default (p_orbitalRadius ps) 250 in
  let ovel := or_default (p_orbitalVelocity ps) (calculateOrbitalVelocity bhm orad) in
  let ang := or_default (p_initialAngle ps) 0 in
  let inc := or_default (p_inclination ps) 0 in
  mk bhm m rad temp orad ovel
     (or_default (p_windVelocity ps) 2000)
     (or_default (p_windDensity ps) 1)
     (defined_or (p_enableWind ps) true)
     (or_default (p_gravitationalStrength ps) 1)
     (calculateHillRadius m orad bhm)
     (defined_or (p_enableGravity ps) true)
     (or_default (p_hawkingRadiationIntensity ps) 0.5)
     (defined_or (p_enableQuantumEffects ps) true)
     ang inc
     (or_default (p_eccentricity ps) 0)
     (orbitalPosition ang inc orad)
     (orbitalVelocityVector ang inc ovel).

(** [calculateGravitationalForce(particlePosition)] *)
Definition calculateGravitationalForce (c : t) (particlePosition : vec3) : vec3 :=
  if negb (enableGravity c) then V3 0 0 0
  else
    let toStar := sub (position c) particlePosition in
    let distance := length toStar in
    if JsMath.gtb distance (influenceRadius c) then V3 0 0 0
    else
      let forceMagnitude :=
        (mass c * gravitationalStrength c) / (distance * distance + 1) in
      multiplyScalar (normalize toStar) (forceMagnitude * 0.001).

(** [calculateWindForce(particlePosition)] *)
Definition calculateWindForce (c : t) (particlePosition : vec3) : vec3 :=
  if negb (enableWind c) then V3 0 0 0
  else
    let fromStar := sub particlePosition (position c) in
    let distance := length fromStar in
    let windRange := radius c * 2 in
    if JsMath.gtb distance windRange then V3 0 0 0
    else
      let windStrength :=
        (windDensity c * windVelocity c) / (distance * distance + 1) in
      multiplyScalar (normalize fromStar) (windStrength * 0.0001).

(** [getParticleForce(particlePosition)] *)
Definition getParticleForce (c : t) (particlePosition : vec3) : vec3 :=
  add (calculateGravitationalForce c particlePosition)
      (calculateWindForce c particlePosition).

(** Field updates of [setParameters], one per [if]. *)
Definition set_mass (v : R) (c : t) : t :=
  mk (blackHoleMass c) v (radius c) (temperature c) (orbitalRadius c)
     (orbitalVelocity c) (windVelocity c) (windDensity c) (enableWind c)
     (gravitationalStrength c)
     (calculateHillRadius v (orbitalRadius c) (blackHoleMass c))
     (enableGravity c) (hawkingRadiationIntensity c) (enableQuantumEffects c)
     (angle c) (inclination c) (eccentricity c) (position c) (velocity c).

Definition set_temperature (v : R) (c : t) : t :=
  mk (blackHoleMass c) (mass c) (radius c) v (orbitalRadius c)
     (orbitalVelocity c) (windVelocity c) (windDensity c) (enableWind c)
     (gravitationalStrength c) (influenceRadius c)
     (enableGravity c) (hawkingRadiationIntensity c) (enableQuantumEffects c)
     (angle c) (inclination c) (eccentricity c) (position c) (velocity c).

Definition set_orbitalRadius (v : R) (c : t) : t :=
  updateOrbitalPosition
    (mk (blackHoleMass c) (mass c) (radius c) (temperature c) v
        (calculateOrbitalVelocity (blackHoleMass c) v)
        (windVelocity c) (windDensity c) (enableWind c)
        (gravitationalStrength c)
        (calculateHillRadius (mass c) v (blackHoleMass c))
        (enableGravity c) (hawkingRadiationIntensity c) (enableQuantumEffects c)
        (angle c) (inclination c) (eccentricity c) (position c) (velocity c)).

Definition set_orbitalVelocity (v : R) (c : t) : t :=
  mk (blackHoleMass c) (mass c) (radius c) (temperature c) (orbitalRadius c)
     v (windVelocity c) (windDensity c) (enableWind c)
     (gravitationalStrength c) (influenceRadius c)
     (enableGravity c) (hawkingRadiationIntensity c) (enableQuantumEffects c)
     (angle c) (inclination c) (eccentricity c) (position c) (velocity c).

Definition set_windVelocity (v : R) (c : t) : t :=
  mk (blackHoleMass c) (mass c) (radius c) (temperature c) (orbitalRadius c)
     (orbitalVelocity c) v (windDensity c) (enableWind c)
     (gravitationalStrength c) (influenceRadius c)
     (enableGravity c) (hawkingRadiationIntensity c) (enableQuantumEffects c)
     (angle c) (inclination c) (eccentricity c) (position c) (velocity c).

Definition set_windDensity (v : R) (c : t) : t :=
  mk (blackHoleMass c) (mass c) (radius c) (temperature c) (orbitalRadius c)
     (orbitalVelocity c) (windVelocity c) v (enableWind c)
     (gravitationalStrength c) (influenceRadius c)
     (enableGravity c) (hawkingRadiationIntensity c) (enableQuantumEffects c)
     (angle c) (inclination c) (eccentricity c) (position c) (velocity c).

Definition set_gravitationalStrength (v : R) (c : t) : t :=
  mk (blackHoleMass c) (mass c) (radius c) (temperature c) (orbitalRadius c)
     (orbitalVelocity c) (windVelocity c) (windDensity c) (enableWind c)
     v (influenceRadius c)
     (enableGravity c) (hawkingRadiationIntensity c) (enableQuantumEffects c)
     (angle c) (inclination c) (eccentricity c) (position c) (velocity c).

Definition set_hawkingRadiationIntensity (v : R) (c : t) : t :=
  mk (blackHoleMass c) (mass c) (radius c) (temperature c) (orbitalRadius c)
     (orbitalVelocity c) (windVelocity c) (windDensity c) (enableWind c)
     (gravitationalStrength c) (influenceRadius c)
     (enableGravity c) v (enableQuantumEffects c)
     (angle c) (inclination c) (eccentricity c) (position c) (velocity c).

Definition set_enableWind (v : bool) (c : t) : t :=
  mk (blackHoleMass c) (mass c) (radius c) (temperature c) (orbitalRadius c)
     (orbitalVelocity c) (windVelocity c) (windDensity c) v
     (gravitationalStrength c) (influenceRadius c)
     (enableGravity c) (hawkingRadiationIntensity c) (enableQuantumEffects c)
     (angle c) (inclination c) (eccentricity c) (position c) (velocity c).

Definition set_enableGravity (v : bool) (c : t) : t :=
  mk (blackHoleMass c) (mass c) (radius c) (temperature c) (orbitalRadius c)
     (orbitalVelocity c) (windVelocity c) (windDensity c) (enableWind c)
     (gravitationalStrength c) (influenceRadius c)
     v (hawkingRadiationIntensity c) (enableQuantumEffects c)
     (angle c) (inclination c) (eccentricity c) (position c) (velocity c).

Definition set_enableQuantumEffects (v : bool) (c : t) : t :=
  mk (blackHoleMass c) (mass c) (radius c) (temperature c) (orbitalRadius c)
     (orbitalVelocity c) (windVelocity c) (windDensity c) (enableWind c)
     (gravitationalStrength c) (influenceRadius c)
     (enableGravity c) (hawkingRadiationIntensity c) v
     (angle c) (inclination c) (eccentricity c) (position c) (velocity c).

(** [if (params.f !== undefined) { ... }] *)
Definition when_defined {A : Type} (o : option A) (f : A -> t -> t) (c : t) : t :=
  match o with Some v => f v c | None => c end.

(** [setParameters(params)]: the [if]s in source order.  The last one
    ([showInfluenceSphere]) only toggles a mesh's visibility.  No branch
    inspects the value it stores, and none raises. *)
Definition setParameters (ps : params) (c : t) : t :=
  let c := when_defined (p_mass ps) set_mass c in
  let c := when_defined (p_temperature ps) set_temperature c in
  let c := when_defined (p_orbitalRadius ps) set_orbitalRadius c in
  let c := when_defined (p_orbitalVelocity ps) set_orbitalVelocity c in
  let c := when_defined (p_windVelocity ps) set_windVelocity c in
  let c := when_defined (p_windDensity ps) set_windDensity c in
  let c := when_defined (p_gravitationalStrength ps) set_gravitationalStrength c in
  let c := when_defined (p_hawkingRadiationIntensity ps) set_hawkingRadiationIntensity c in
  let c := when_defined (p_enableWind ps) set_enableWind c in
  let c := when_defined (p_enableGravity ps) set_enableGravity c in
  let c := when_defined (p_enableQuantumEffects ps) set_enableQuantumEffects c in
  c.

(** An entry of [windData]; the colour is left out. *)
Record windParticle : Type := mkWind {
  w_position : vec3;        (* relative to the star *)
  w_direction : vec3;
  w_velocity : R;
  w_age : R;
  w_maxAge : R
}.

(** A point of the unit sphere from the two draws of the source:
    [theta = random * 2 PI], [phi = acos(2 * random - 1)]. *)
Definition spherePoint (r_theta r_phi : R) : vec3 :=
  let theta := r_theta * PI * 2 in
  let phi := acos (2 * r_phi - 1) in
  V3 (sin phi * cos theta) (sin phi * sin theta) (cos phi).

(** One iteration of the seeding loop of [createStellarWind]; the sixth
    draw goes to the colour. *)
Definition seedWindParticle (c : t) (g : Rng.t) : windParticle * Rng.t :=
  let visualRadius := radius c * 0.5 in
  let '(r0, g) := Rng.next g in
  let '(r1, g) := Rng.next g in
  let dir := spherePoint r0 r1 in
  let '(r2, g) := Rng.next g in
  let startRadius := visualRadius * (1.0 + r2 * 0.2) in
  let '(r3, g) := Rng.next g in
  let '(r4, g) := Rng.next g in
  let '(r5, g) := Rng.next g in
  (mkWind (V3 (x dir * startRadius) (y dir * startRadius) (z dir * startRadius))
          (normalize dir)
          (windVelocity c * 0.01 * (0.8 + r3 * 0.4))
          (r4 * 200) 200, g).

(** One iteration of the loop of [updateWindParticles]. *)
Definition updateWindParticle (c : t) (p : windParticle) (g : Rng.t)
  : windParticle * Rng.t :=
  let position :=
    add (w_position p)
        (multiplyScalar (w_direction p) (w_velocity p * windDensity c)) in
  let age := w_age p + 1 in
  if JsMath.gtb age (w_maxAge p) then
    let '(r0, g) := Rng.next g in
    let '(r1, g) := Rng.next g in
    let dir := spherePoint r0 r1 in
    let visualRadius := radius c * 0.5 in
    let '(r2, g) := Rng.next g in
    (mkWind (V3 (x dir * visualRadius) (y dir * visualRadius) (z dir * visualRadius))
            (normalize dir) (windVelocity c * 0.01 * (0.8 + r2 * 0.4))
            0 (w_maxAge p), g)
  else
    (mkWind position (w_direction p) (w_velocity p) age (w_maxAge p), g).

Fixpoint windLoop (c : t) (windData : list windParticle) (g : Rng.t)
  : list windParticle * Rng.t :=
  match windData with
  | [] => ([], g)
  | p :: rest =>
      let '(p', g) := updateWindParticle c p g in
      let '(rest', g) := windLoop c rest g in
      (p' :: rest', g)
  end.

(** [updateWindParticles()]; [windInstance] tells whether the instanced
    mesh exists. *)
Definition updateWindParticles (c : t) (windInstance : bool)
  (windData : list windParticle) (g : Rng.t) : list windParticle * Rng.t :=
  if negb windInstance || negb (enableWind c) then (windData, g)
  else windLoop c windData g.

(** An entry of [quantumData]; [q_isParticle] is [type === 'particle'],
    and the colour follows the type on every respawn. *)
Record quantumParticle : Type := mkQuantum {
  q_position : vec3;        (* relative to the star *)
  q_velocity : vec3;
  q_age : R;
  q_maxAge : R;
  q_isParticle : bool
}.

(** One iteration of the loop of [updateQuantumParticles]. *)
Definition updateQuantumParticle (c : t) (p : quantumParticle) (g : Rng.t)
  : quantumParticle * Rng.t :=
  let '(j0, g) := Rng.next g in
  let '(j1, g) := Rng.next g in
  let '(j2, g) := Rng.next g in
  let jitter := V3 ((j0 - 0.5) * 0.05) ((j1 - 0.5) * 0.05) ((j2 - 0.5) * 0.05) in
  let position := add (add (q_position p) (q_velocity p)) jitter in
  let age := q_age p + 1 in
  if JsMath.gtb age (q_maxAge p) then
    let '(r0, g) := Rng.next g in
    let '(r1, g) := Rng.next g in
    let dir := spherePoint r0 r1 in
    let '(r2, g) := Rng.next g in
    let distance := radius c * 0.5 * (1.0 + r2 * 0.5) in
    let '(r3, g) := Rng.next g in
    (mkQuantum (V3 (x dir * distance) (y dir * distance) (z dir * distance))
               (q_velocity p) 0 (q_maxAge p) (JsMath.gtb r3 0.5), g)
  else
    (mkQuantum position (q_velocity p) age (q_maxAge p) (q_isParticle p), g).

Fixpoint quantumLoop (c : t) (quantumData : list quantumParticle) (g : Rng.t)
  : list quantumParticle * Rng.t :=
  match quantumData with
  | [] => ([], g)
  | p :: rest =>
      let '(p', g) := updateQuantumParticle c p g in
      let '(rest', g) := quantumLoop c rest g in
      (p' :: rest', g)
  end.

(** [updateQuantumParticles()] *)
Definition updateQuantumParticles (c : t) (quantumInstance : bool)
  (quantumData : list quantumParticle) (g : Rng.t)
  : list quantumParticle * Rng.t :=
  if negb quantumInstance || negb (enableQuantumEffects c) then (quantumData, g)
  else quantumLoop c quantumData g.

(** The orbital part of [update(deltaTime)]: the angle advances and the
    position and velocity are recomputed from it. *)
Definition advanceOrbit (deltaTime : R) (c : t) : t :=
  updateOrbitalPosition
    (mk (blackHoleMass c) (mass c) (radius c) (temperature c) (orbitalRadius c)
        (orbitalVelocity c) (windVelocity c) (windDensity c) (enableWind c)
        (gravitationalStrength c) (influenceRadius c) (enableGravity c)
        (hawkingRadiationIntensity c) (enableQuantumEffects c)
        (angle c + (orbitalVelocity c / orbitalRadius c) * deltaTime)
        (inclination c) (eccentricity c) (position c) (velocity c)).

(** The particle pools that hang off the companion, with the flags that
    tell whether its meshes exist. *)
Record pools : Type := mkPools {
  mesh : bool;
  windInstance : bool;
  windData : list windParticle;
  quantumInstance : bool;
  quantumData : list quantumParticle
}.

(** [update(deltaTime)]: nothing without a mesh, else the orbit step,
    the wind update and the quantum update, in that order. *)
Definition update (deltaTime : R) (c : t) (ps : pools) (g : Rng.t)
  : t * pools * Rng.t :=
  if negb (mesh ps) then (c, ps, g)
  else
    let c := advanceOrbit deltaTime c in
    let '(wind, g) := updateWindParticles c (windInstance ps) (windData ps) g in
    let '(quantum, g) :=
      updateQuantumParticles c (quantumInstance ps) (quantumData ps) g in
    (c, mkPools (mesh ps) (windInstance ps) wind (quantumInstance ps) quantum, g).

End CompanionStar.

(** ** Star (src/physics/Star.js, first class): the infalling body *)

Module Star.

Record t : Type := mk {
  blackHoleMass : R;
  mass : R;
  radius : R;
  position : vec3;
  velocity : vec3;
  isDisrupted : bool;
  tidalRadius : R;
  stretchFactor : vec3;
  health : R;
  mesh : bool          (* [this.mesh] is an object (true) or null (false) *)
}.

(** [calculateTidalRadius()] *)
Definition calculateTidalRadius (blackHoleMass mass : R) : R :=
  let schwarzschildRadius := 13 in
  let tidalRadius :=
    schwarzschildRadius * 3 * JsMath.pow (blackHoleMass / mass) (1 / 3) in
  JsMath.min tidalRadius 80.

(** [new Star(scene, blackHoleMass = 66e9)]; [createStarMesh] sets the mesh. *)
Definition construct (bhm : R) : t :=
  mk bhm 1 1 (V3 300 0 0) (V3 (-0.5) 0 0.3) false
     (calculateTidalRadius bhm 1) (V3 1 1 1) 1.0 true.

(** [calculateGravity(distance)] *)
Definition calculateGravity (s : t) (distance : R) : R :=
  let distance := if JsMath.ltb distance 0.1 then 0.1 else distance in
  let G := 0.1 in
  (G * blackHoleMass s) / JsMath.pow distance 2.

(** [update(deltaTime)].  [distance] is read before the position moves and
    is the one every later test uses. *)
Definition update (deltaTime : R) (s : t) : t :=
  if negb (mesh s) then s
  else
    let distance := length (position s) in
    let gravity := calculateGravity s distance in
    let direction := multiplyScalar (normalize (position s)) (-1) in
    let acceleration := multiplyScalar direction gravity in
    let velocity' := add (velocity s) (multiplyScalar acceleration deltaTime) in
    let position' := add (position s) (multiplyScalar velocity' deltaTime) in
    if JsMath.ltb distance (tidalRadius s) && negb (isDisrupted s) then
      let stretchAmount := JsMath.max 0 (1 - distance / tidalRadius s) in
      let stretch :=
        V3 (1 + stretchAmount * 3)
           (1 / sqrt (1 + stretchAmount * 3))
           (1 / sqrt (1 + stretchAmount * 3)) in
      let health' := health s - stretchAmount * 0.01 in
      let disrupted' := if JsMath.ltb health' 0.3 then true else isDisrupted s in
      mk (blackHoleMass s) (mass s) (radius s) position' velocity'
         disrupted' (tidalRadius s) stretch health' (mesh s)
    else
      mk (blackHoleMass s) (mass s) (radius s) position' velocity'
         (isDisrupted s) (tidalRadius s) (stretchFactor s) (health s) (mesh s).

(** A run of update ticks, one [deltaTime] per tick, oldest first. *)
Fixpoint run (dts : list R) (s : t) : t :=
  match dts with
  | [] => s
  | dt :: rest => run rest (update dt s)
  end.

(** [getState()], the part [generateDebrisFromStar] destructures. *)
Record state : Type := mkState {
  st_position : vec3;
  st_velocity : vec3;
  st_mass : R
}.

Definition getState (s : t) : state :=
  mkState (position s) (velocity s) (mass s).

(** [calculateTidalForce(distance)] *)
Definition calculateTidalForce (s : t) (distance : R) : R :=
  let distance := if JsMath.ltb distance 0.1 then 0.1 else distance in
  let G := 1 in
  (2 * G * blackHoleMass s * radius s) / JsMath.pow distance 3.

(** [shouldDisrupt()] *)
Definition shouldDisrupt (s : t) : bool := isDisrupted s.

End Star.

(** ** StellarDebris: the disrupted-matter queue *)

Module StellarDebris.

Record particle : Type := mkParticle {
  position : vec3;
  velocity : vec3;
  angularMomentum : vec3;
  temperature : R;
  age : R;
  maxAge : R;
  mass : R;
  inStream : bool;
  circularized : bool
}.

Record t : Type := mk {
  blackHoleMass : R;
  particles : list particle;
  particleCount : Z;
  maxParticles : Z;
  ISCO : R;
  eventHorizon : R
}.

(** [new StellarDebris(scene, blackHoleMass = 66e9)] *)
Definition construct (bhm : R) : t := mk bhm [] 0%Z 5000%Z 18 13.

Definition with_particles (d : t) (ps : list particle) (n : Z) : t :=
  mk (blackHoleMass d) ps n (maxParticles d) (ISCO d) (eventHorizon d).

(** The body of the generation loop after the capacity test: eight draws
    in source order, then [push] and [particleCount++]. *)
Definition spawn (starState : Star.state) (debrisCount : R) (g : Rng.t)
  : particle * Rng.t :=
  let '(r0, g) := Rng.next g in
  let spreadFactor := (r0 - 0.5) * 10 in
  let '(r1, g) := Rng.next g in
  let '(r2, g) := Rng.next g in
  let '(r3, g) := Rng.next g in
  let perpVector := normalize (V3 (r1 - 0.5) (r2 - 0.5) (r3 - 0.5)) in
  let particlePos :=
    add (Star.st_position starState) (multiplyScalar perpVector spreadFactor) in
  let '(r4, g) := Rng.next g in
  let '(r5, g) := Rng.next g in
  let '(r6, g) := Rng.next g in
  let velocitySpread :=
    V3 ((r4 - 0.5) * 0.2) ((r5 - 0.5) * 0.2) ((r6 - 0.5) * 0.2) in
  let particleVel := add (Star.st_velocity starState) velocitySpread in
  let angularMomentum := cross particlePos particleVel in
  let '(r7, g) := Rng.next g in
  (mkParticle particlePos particleVel angularMomentum 0.3 0
              (1000 + r7 * 500) (Star.st_mass starState / debrisCount)
              true false, g).

(** [for (let i = 0; i < debrisCount; i++)] with [n] iterations left;
    [if (this.particleCount >= this.maxParticles) break;] opens the body. *)
Fixpoint generateLoop (n : nat) (starState : Star.state) (d : t) (g : Rng.t)
  : t * Rng.t :=
  match n with
  | O => (d, g)
  | S n' =>
      if (particleCount d >=? maxParticles d)%Z then (d, g)
      else
        let '(p, g') := spawn starState 200 g in
        generateLoop n' starState
          (with_particles d (particles d ++ [p]) (particleCount d + 1)%Z) g'
  end.

(** [generateDebrisFromStar(starState)] *)
Definition generateDebrisFromStar (starState : Star.state) (d : t) (g : Rng.t)
  : t * Rng.t :=
  generateLoop 200 starState d g.

(** [calculateOrbitalVelocity(radius)] *)
Definition calculateOrbitalVelocity (d : t) (radius : R) : R :=
  let radius := if JsMath.ltb radius (ISCO d) then ISCO d else radius in
  let G := 0.1 in
  sqrt ((G * blackHoleMass d) / radius).

(** Field writes on a debris particle. *)
Definition set_position (v : vec3) (p : particle) : particle :=
  mkParticle v (velocity p) (angularMomentum p) (temperature p) (age p)
             (maxAge p) (mass p) (inStream p) (circularized p).
Definition set_velocity (v : vec3) (p : particle) : particle :=
  mkParticle (position p) v (angularMomentum p) (temperature p) (age p)
             (maxAge p) (mass p) (inStream p) (circularized p).
Definition set_angularMomentum (v : vec3) (p : particle) : particle :=
  mkParticle (position p) (velocity p) v (temperature p) (age p)
             (maxAge p) (mass p) (inStream p) (circularized p).
Definition set_temperature (v : R) (p : particle) : particle :=
  mkParticle (position p) (velocity p) (angularMomentum p) v (age p)
             (maxAge p) (mass p) (inStream p) (circularized p).
Definition set_age (v : R) (p : particle) : particle :=
  mkParticle (position p) (velocity p) (angularMomentum p) (temperature p) v
             (maxAge p) (mass p) (inStream p) (circularized p).
Definition set_flags (stream circ : bool) (p : particle) : particle :=
  mkParticle (position p) (velocity p) (angularMomentum p) (temperature p)
             (age p) (maxAge p) (mass p) stream circ.

(** [const radialVelocity = p.velocity.clone().dot(p.position.normalize());]
    The receiver of [normalize()] is [p.position] itself, not a clone: the
    stored position is overwritten by its normalisation. *)
Definition radialVelocityTest (p : particle) : R * particle :=
  let p' := set_position (normalize (position p)) p in
  (dot (velocity p) (position p'), p').

(** [if (p.inStream && !p.circularized) { ... }] (drag/viscosity block);
    [distance] is the length read before the block. *)
Definition circularizeBlock (d : t) (distance : R) (p : particle) : particle :=
  if inStream p && negb (circularized p) then
    let '(radialVelocity, p) := radialVelocityTest p in
    if JsMath.ltb (JsMath.abs radialVelocity) 0.1
       && JsMath.gtb distance (ISCO d * 1.5) then
      let p := set_flags false true p in
      let orbitalSpeed := calculateOrbitalVelocity d distance in
      let tangent := normalize (cross (angularMomentum p) (position p)) in
      set_velocity (multiplyScalar tangent orbitalSpeed) p
    else p
  else p.

(** [if (p.circularized) { ... }] (viscous transport block) *)
Definition viscousBlock (d : t) (p : particle) : particle :=
  if circularized p then
    let angMomLoss := 0.0001 in
    let p := set_angularMomentum
               (multiplyScalar (angularMomentum p) (1 - angMomLoss)) p in
    let currentRadius := length (position p) in
    let newOrbitalSpeed := calculateOrbitalVelocity d currentRadius in
    let tangent := normalize (cross (angularMomentum p) (position p)) in
    set_velocity (multiplyScalar tangent newOrbitalSpeed) p
  else p.

(** [p.velocity.add(gravAccel.multiplyScalar(deltaTime));]
    [p.position.add(p.velocity.clone().multiplyScalar(deltaTime));] *)
Definition integrateBlock (gravAccel : vec3) (deltaTime : R) (p : particle)
  : particle :=
  let p := set_velocity (add (velocity p) (multiplyScalar gravAccel deltaTime)) p in
  set_position (add (position p) (multiplyScalar (velocity p) deltaTime)) p.

(** Temperature from the distance read at the top of the iteration. *)
Definition temperatureBlock (d : t) (distance : R) (p : particle) : particle :=
  let tempFactor := JsMath.max 0 (1 - (distance - ISCO d) / 100) in
  let p := set_temperature (0.3 + tempFactor * 1.2) p in
  if negb (circularized p) && inStream p
  then set_temperature (temperature p + 0.3) p
  else p.

(** One iteration of the loop of [update]: [None] is a [splice] (the
    particle is removed), [Some] the particle after the tick. *)
Definition updateParticle (d : t) (deltaTime : R) (p : particle)
  : option particle :=
  let p := set_age (age p + 1) p in
  if JsMath.gtb (age p) (maxAge p) then None
  else
    let distance := length (position p) in
    if JsMath.ltb distance (eventHorizon d) then None
    else
      let gravity := (0.1 * blackHoleMass d) / JsMath.pow distance 2 in
      let gravDirection := multiplyScalar (normalize (position p)) (-1) in
      let gravAccel := multiplyScalar gravDirection gravity in
      let p := circularizeBlock d distance p in
      let p := viscousBlock d p in
      let p := integrateBlock gravAccel deltaTime p in
      Some (temperatureBlock d distance p).

(** The loop runs from the last index down to 0; a [splice] at [i] leaves
    the lower indices in place, so the survivors keep their order and
    [particleCount] drops by one for each removal. *)
Fixpoint updateLoop (d : t) (deltaTime : R) (ps : list particle)
  : list particle * nat :=
  match ps with
  | [] => ([], O)
  | p :: rest =>
      let '(rest', removed) := updateLoop d deltaTime rest in
      match updateParticle d deltaTime p with
      | Some p' => (p' :: rest', removed)
      | None => (rest', S removed)
      end
  end.

(** [update(deltaTime = 0.016)] *)
Definition update (deltaTime : R) (d : t) : t :=
  let '(ps, removed) := updateLoop d deltaTime (particles d) in
  with_particles d ps (particleCount d - Z.of_nat removed)%Z.

(** The object returned by [getStats()]. *)
Record stats : Type := mkStats {
  total : nat;
  streamCount : nat;
  diskCount : nat;
  avgTemperature : R;
  totalMass : R
}.

(** [arr.length || 1] *)
Definition length_or_1 (ps : list particle) : R :=
  match ps with
  | [] => 1
  | _ => INR (List.length ps)
  end.

(** [getStats()]: one pass of [forEach] over the queue. *)
Definition getStats (d : t) : stats :=
  let '(streamCount, diskCount, avgTemp, totalMass) :=
    fold_left
      (fun (acc : nat * nat * R * R) (p : particle) =>
         let '(sc, dc, at_, tm) := acc in
         ((if inStream p then S sc else sc),
          (if circularized p then S dc else dc),
          at_ + temperature p,
          tm + mass p))
      (particles d) (O, O, 0, 0) in
  mkStats (List.length (particles d)) streamCount diskCount
          (avgTemp / length_or_1 (particles d)) totalMass.

(** [clear()] *)
Definition clear (d : t) : t := with_particles d [] 0%Z.

End StellarDebris.

(** ** The accretion disk of Simulation1.jsx *)

Module Disk.

(** The entries of the [params] state that the disk update reads. *)
Record params : Type := mkParams {
  blackHoleMass : R;
  spinParameter : R;
  diskRotationSpeed : R;
  magneticFieldStrength : R;
  showFrameDragging : bool;
  showParticleTrails : bool;
  jetLaunchRate : R;
  spiralStrength : R;
  showCompanionStar : bool
}.

Record particle : Type := mkParticle {
  angle : R;
  radius : R;
  initialRadius : R;
  height : R;
  baseHeight : R;
  orbitalPlaneAngle : R;
  frameDragAccumulated : R;
  speed : R;
  baseSpeed : R;
  verticalPhase : R;
  infallSpeed : R;
  vRadial : R;
  vTangential : R;
  vVertical : R;
  heatFromViscosity : R;
  density : R;
  mass : R;
  magneticFieldLine : R;
  isInISCO : bool;
  timeInISCO : R
}.

(** An entry of [launchedParticles]. *)
Record launched : Type := mkLaunched {
  l_position : vec3;
  l_magneticFieldLine : R;
  l_fieldProgress : R;
  l_lorentzFactor : R;
  l_energy : R;
  l_age : R;
  l_maxAge : R;
  l_isUpper : bool
}.

Definition getSchwarzschildRadius (mass : R) : R := mass / 66 * 10.

Definition getISCO (mass spin : R) : R :=
  let rs := getSchwarzschildRadius mass in
  let iscoFactor := 6 - 5 * spin in
  rs * iscoFactor / 6.

Definition getBlandfordZnajekPower (ps : params) (radius spin bField : R) : R :=
  let rs := getSchwarzschildRadius (blackHoleMass ps) in
  let horizonFactor := exp (- (radius - rs) / rs) in
  spin * spin * bField * horizonFactor.

Definition getFrameDraggingRate (ps : params) (r spin : R) : R :=
  let rs := getSchwarzschildRadius (blackHoleMass ps) in
  let a := spin in
  (2 * a * rs * rs * rs) / (r * r * r) * 0.01.

Definition getLorentzFactor (energy : R) : R := 1 + energy * 10.

(** [Math.floor] *)
Definition floor (a : R) : R := IZR (Int_part a).

(** One iteration of the seeding loop: the entry pushed on [diskData],
    with the draws in evaluation order. *)
Definition seedParticle (numFieldLines : R) (g : Rng.t) : particle * Rng.t :=
  let '(r0, g) := Rng.next g in
  let angle := r0 * PI * 2 in
  let '(radiusRandom, g) := Rng.next g in
  let radius := 18 + JsMath.pow radiusRandom 1.5 * 80 in
  let aspectRatio := 0.1 * JsMath.pow (radius / 50) 0.5 in
  let diskThickness := radius * aspectRatio in
  let '(h0, g) := Rng.next g in
  let '(h1, g) := Rng.next g in
  let '(h2, g) := Rng.next g in
  let heightRandom := (h0 + h1 + h2) / 3 - 0.5 in
  let height := heightRandom * diskThickness in
  let keplerianSpeed := 0.007 * JsMath.pow (98 / radius) 1.5 in
  let density :=
    exp (- JsMath.abs height / diskThickness) * JsMath.pow (50 / radius) 1.5 in
  let '(m0, g) := Rng.next g in
  let particleMass := 0.7 + density * 0.5 + m0 * 0.3 in
  let '(v0, g) := Rng.next g in
  let '(f0, g) := Rng.next g in
  (mkParticle angle radius radius height height 0 0
              keplerianSpeed keplerianSpeed (v0 * PI * 2)
              (0.012 * (1 / radius)) 0 0 0 0 density particleMass
              (floor (f0 * numFieldLines)) false 0, g).

(** The seeding loop: [particleCount] entries pushed on [diskData] in
    order. *)
Fixpoint seedLoop (particleCount : nat) (numFieldLines : R) (g : Rng.t)
  : list particle * Rng.t :=
  match particleCount with
  | O => ([], g)
  | S n =>
      let '(p, g) := seedParticle numFieldLines g in
      let '(rest, g) := seedLoop n numFieldLines g in
      (p :: rest, g)
  end.

(** The companion's force on a disk particle in the local cylindrical
    frame: (radial, tangential, vertical).  [companion] is
    [companionStarRef.current] ([None] when null). *)
Definition companionForces (ps : params) (companion : option CompanionStar.t)
  (p : particle) : R * R * R :=
  match showCompanionStar ps, companion with
  | true, Some star =>
      let particlePos :=
        V3 (cos (angle p) * radius p) (height p) (sin (angle p) * radius p) in
      let force := CompanionStar.getParticleForce star particlePos in
      if JsMath.gtb (length force) 0 then
        let toParticle := V2 (x particlePos) (z particlePos) in
        let radialDir := normalize2 toParticle in
        let tangentialDir := V2 (- y2 radialDir) (x2 radialDir) in
        let forceXZ := V2 (x force) (z force) in
        (dot2 forceXZ radialDir, dot2 forceXZ tangentialDir, y force)
      else (0, 0, 0)
  | _, _ => (0, 0, 0)
  end.

(** The acceleration magnitude of one particle (first scan). *)
Definition accelMagnitude (ps : params) (companion : option CompanionStar.t)
  (p : particle) : R :=
  let baseRadialAccel := - infallSpeed p * spiralStrength ps * 0.018 * 60 in
  let '(radialForce, tangentialForce, verticalForce) :=
    companionForces ps companion p in
  let totalRadialAccel :=
    JsMath.abs ((baseRadialAccel + radialForce * 30) / mass p) in
  let totalTangentialAccel := JsMath.abs ((tangentialForce * 1.2) / mass p) in
  let totalVerticalAccel := JsMath.abs ((verticalForce * 18) / mass p) in
  sqrt (totalRadialAccel * totalRadialAccel +
        totalTangentialAccel * totalTangentialAccel +
        totalVerticalAccel * totalVerticalAccel).

(** [maxAccelMagnitude] after the first scan, starting from 0. *)
Definition maxAccelMagnitude (ps : params) (companion : option CompanionStar.t)
  (diskData : list particle) : R :=
  fold_left (fun m p => JsMath.max m (accelMagnitude ps companion p)) diskData 0.

Definition baseTimestep : R := 0.016.
Definition courantFactor : R := 0.3.
Definition characteristicLength : R := 1.0.

(** The adaptive time step from the scanned maximum. *)
Definition adaptiveDtOf (maxAccel : R) : R :=
  if JsMath.gtb maxAccel 0.1 then
    let safeDt := courantFactor * sqrt (characteristicLength / maxAccel) in
    JsMath.min baseTimestep (JsMath.max safeDt 0.001)
  else baseTimestep.

Definition adaptiveDt (ps : params) (companion : option CompanionStar.t)
  (diskData : list particle) : R :=
  adaptiveDtOf (maxAccelMagnitude ps companion diskData).

(** Steps 1 to 6 of the integration loop and the frame-dragging update:
    everything up to the ISCO test.  No draw is made here. *)
Definition integrate (ps : params) (companion : option CompanionStar.t)
  (adaptiveDt : R) (p : particle) : particle :=
  let baseRadialAccel := - infallSpeed p * spiralStrength ps * 0.018 * 60 in
  let baseTangentialVel := speed p * diskRotationSpeed ps * 60 in
  let baseVerticalAccel := 0 in
  let '(radialForce, tangentialForce, verticalForce) :=
    companionForces ps companion p in
  let totalRadialAccel := (baseRadialAccel + radialForce * 30) / mass p in
  let totalTangentialAccel := (tangentialForce * 1.2) / mass p in
  let totalVerticalAccel := (baseVerticalAccel + verticalForce * 18) / mass p in
  let vRadial1 := vRadial p + totalRadialAccel * adaptiveDt in
  let vTangential1 := baseTangentialVel + totalTangentialAccel in
  let vVertical1 := vVertical p + totalVerticalAccel * adaptiveDt in
  let vRadial2 := vRadial1 * 0.95 in
  let vVertical2 := vVertical1 * 0.90 in
  let radius1 := radius p + vRadial2 * adaptiveDt in
  let angle1 := angle p + (vTangential1 / (radius1 + 1)) * adaptiveDt in
  let height1 := height p + vVertical2 * adaptiveDt in
  let height2 := JsMath.max (-15) (JsMath.min 15 height1) in
  let frameDragRate := getFrameDraggingRate ps radius1 (spinParameter ps) in
  let drag := frameDragRate * JsMath.of_bool (showFrameDragging ps) in
  mkParticle angle1 radius1 (initialRadius p) height2 (baseHeight p)
             (orbitalPlaneAngle p + drag) (frameDragAccumulated p + drag)
             (speed p) (baseSpeed p) (verticalPhase p) (infallSpeed p)
             vRadial2 vTangential1 vVertical2
             (heatFromViscosity p) (density p) (mass p)
             (magneticFieldLine p) (isInISCO p) (timeInISCO p).

Definition draggedHeight (p : particle) : R :=
  let precessionTilt := sin (frameDragAccumulated p) * 0.3 in
  height p * cos (orbitalPlaneAngle p) +
  radius p * precessionTilt * sin (orbitalPlaneAngle p).

(** Writes to the ISCO bookkeeping. *)
Definition set_isco (inIsco : bool) (time heat : R) (p : particle) : particle :=
  mkParticle (angle p) (radius p) (initialRadius p) (height p) (baseHeight p)
             (orbitalPlaneAngle p) (frameDragAccumulated p)
             (speed p) (baseSpeed p) (verticalPhase p) (infallSpeed p)
             (vRadial p) (vTangential p) (vVertical p)
             heat (density p) (mass p)
             (magneticFieldLine p) inIsco time.

(** [p.radius = p.initialRadius; p.angle = Math.random() * Math.PI * 2;]
    with the draw supplied. *)
Definition respawn (draw : R) (p : particle) : particle :=
  mkParticle (draw * PI * 2) (initialRadius p) (initialRadius p)
             (height p) (baseHeight p)
             (orbitalPlaneAngle p) (frameDragAccumulated p)
             (speed p) (baseSpeed p) (verticalPhase p) (infallSpeed p)
             (vRadial p) (vTangential p) (vVertical p)
             (heatFromViscosity p) (density p) (mass p)
             (magneticFieldLine p) (isInISCO p) (timeInISCO p).

Definition set_frameDragAccumulated (v : R) (p : particle) : particle :=
  mkParticle (angle p) (radius p) (initialRadius p) (height p) (baseHeight p)
             (orbitalPlaneAngle p) v
             (speed p) (baseSpeed p) (verticalPhase p) (infallSpeed p)
             (vRadial p) (vTangential p) (vVertical p)
             (heatFromViscosity p) (density p) (mass p)
             (magneticFieldLine p) (isInISCO p) (timeInISCO p).

Definition set_verticalPhase (v : R) (p : particle) : particle :=
  mkParticle (angle p) (radius p) (initialRadius p) (height p) (baseHeight p)
             (orbitalPlaneAngle p) (frameDragAccumulated p)
             (speed p) (baseSpeed p) v (infallSpeed p)
             (vRadial p) (vTangential p) (vVertical p)
             (heatFromViscosity p) (density p) (mass p)
             (magneticFieldLine p) (isInISCO p) (timeInISCO p).

(** The ISCO region block: bookkeeping, the launch trial, and on success
    the launched particle and the reset of the disk particle. *)
Definition iscoBlock (ps : params) (iscoRadius : R) (p : particle) (g : Rng.t)
  : particle * option launched * Rng.t :=
  let dh := draggedHeight p in
  let inIsco :=
    JsMath.geb (radius p) (iscoRadius - 3) && JsMath.leb (radius p) (iscoRadius + 3) in
  if inIsco then
    let time := timeInISCO p + 1 in
    let heat := JsMath.min 1 (time / 50) in
    let p := set_isco true time heat p in
    let launchProbability := 0.015 * jetLaunchRate ps * (1 + heat) in
    let '(trial, g) := Rng.next g in
    if JsMath.ltb trial launchProbability then
      let bzPower :=
        getBlandfordZnajekPower ps (radius p) (spinParameter ps)
                                (magneticFieldStrength ps) in
      let lorentzFactor := getLorentzFactor bzPower in
      let '(upper, g) := Rng.next g in
      let launchParticle :=
        mkLaunched (V3 (cos (angle p) * radius p) dh (sin (angle p) * radius p))
                   (magneticFieldLine p) 0 lorentzFactor bzPower 0 250
                   (JsMath.ltb upper 0.5) in
      let '(a, g) := Rng.next g in
      (set_isco true 0 0 (respawn a p), Some launchParticle, g)
    else (p, None, g)
  else (set_isco false 0 0 p, None, g).

(** [if (p.radius < iscoRadius - 3) { ... }] (fall into the black hole) *)
Definition fallBlock (iscoRadius : R) (p : particle) (g : Rng.t)
  : particle * Rng.t :=
  if JsMath.ltb (radius p) (iscoRadius - 3) then
    let '(a, g) := Rng.next g in
    (set_frameDragAccumulated 0 (respawn a p), g)
  else (p, g).

(** One iteration of the integration loop. *)
Definition updateParticle (ps : params) (companion : option CompanionStar.t)
  (iscoRadius adaptiveDt : R) (p : particle) (g : Rng.t)
  : particle * option launched * Rng.t :=
  let p := integrate ps companion adaptiveDt p in
  let '(p, l, g) := iscoBlock ps iscoRadius p g in
  let '(p, g) := fallBlock iscoRadius p g in
  (set_verticalPhase (verticalPhase p + 0.018) p, l, g).

(** The integration loop over [diskData], index 0 first: each entry is
    overwritten in place, launches are pushed on [launchedParticles]. *)
Fixpoint updateLoop (ps : params) (companion : option CompanionStar.t)
  (iscoRadius adaptiveDt : R) (diskData : list particle)
  (launchedParticles : list launched) (g : Rng.t)
  : list particle * list launched * Rng.t :=
  match diskData with
  | [] => ([], launchedParticles, g)
  | p :: rest =>
      let '(p', l, g) := updateParticle ps companion iscoRadius adaptiveDt p g in
      let launchedParticles :=
        match l with
        | Some lp => launchedParticles ++ [lp]
        | None => launchedParticles
        end in
      let '(rest', launchedParticles, g) :=
        updateLoop ps companion iscoRadius adaptiveDt rest launchedParticles g in
      (p' :: rest', launchedParticles, g)
  end.

(** [updateDiskParticles(diskData, ..., iscoRadius, ..., launchedParticles, ...)]:
    the scan for the time step, then the integration loop. *)
Definition updateDiskParticles (ps : params) (companion : option CompanionStar.t)
  (iscoRadius : R) (diskData : list particle)
  (launchedParticles : list launched) (g : Rng.t)
  : list particle * list launched * Rng.t :=
  updateLoop ps companion iscoRadius (adaptiveDt ps companion diskData)
             diskData launchedParticles g.

(** What the rest of the animation loop hands to the disk update on one
    tick: the current [params], the companion, the launched particles as
    the jet update left them, and the state of [Math.random]. *)
Record tickEnv : Type := mkEnv {
  env_params : params;
  env_companion : option CompanionStar.t;
  env_launched : list launched;
  env_rng : Rng.t
}.

(** [diskData] after a run of ticks, oldest first; [iscoRadius] is
    recomputed from [params] on every tick as the animation loop does. *)
Fixpoint ticks (envs : list tickEnv) (diskData : list particle) : list particle :=
  match envs with
  | [] => diskData
  | e :: rest =>
      let iscoRadius :=
        getISCO (blackHoleMass (env_params e)) (spinParameter (env_params e)) in
      let '(diskData', _, _) :=
        updateDiskParticles (env_params e) (env_companion e) iscoRadius
                            diskData (env_launched e) (env_rng e) in
      ticks rest diskData'
  end.

(** The angle stored in [magneticFieldLines[i].userData.angle] when the
    field lines are built: [(i / numFieldLines) * Math.PI * 2] with
    [numFieldLines = 16]. *)
Definition fieldLineAngle (i : R) : R := (i / 16) * PI * 2.

(** One iteration of the loop of [updateJetParticles]: [None] is a
    [splice]. *)
Definition updateJetParticle (ps : params) (lp : launched) : option launched :=
  let age := l_age lp + 1 in
  if JsMath.gtb age (l_maxAge lp) then None
  else
    let fieldProgress :=
      l_fieldProgress lp + 0.025 * l_lorentzFactor lp * magneticFieldStrength ps in
    let t := JsMath.min 1 fieldProgress in
    let fieldAngle := fieldLineAngle (l_magneticFieldLine lp) in
    let r := 18 * (1 - t * 0.8) + sin (t * 20) * 1.5 in
    let z := t * 180 * JsMath.pow t 0.4 * (if l_isUpper lp then 1 else -1) in
    let theta := fieldAngle + t * 0.15 + sin (t * 15) * 0.1 in
    Some (mkLaunched (V3 (r * cos theta) z (r * sin theta))
                     (l_magneticFieldLine lp) fieldProgress (l_lorentzFactor lp)
                     (l_energy lp) age (l_maxAge lp) (l_isUpper lp)).

(** [updateJetParticles(launchedParticles, ...)]: the loop runs from the
    last index down and splices in place, so the survivors keep their
    order. *)
Fixpoint updateJetParticles (ps : params) (launchedParticles : list launched)
  : list launched :=
  match launchedParticles with
  | [] => []
  | lp :: rest =>
      match updateJetParticle ps lp with
      | Some lp' => lp' :: updateJetParticles ps rest
      | None => updateJetParticles ps rest
      end
  end.

End Disk.

(** Events on the infalling body between construction and observation:
    update ticks and [reset(newPosition, newVelocity)]. *)
Module TidalEncounter.

Inductive event : Type :=
| Tick (deltaTime : R)
| Reset (newPosition newVelocity : option vec3).

(** [reset(newPosition, newVelocity)]; [a || b] on an object keeps [a]
    unless it is undefined. *)
Definition reset (newPosition newVelocity : option vec3) (s : Star.t) : Star.t :=
  Star.mk (Star.blackHoleMass s) (Star.mass s) (Star.radius s)
          (match newPosition with Some v => v | None => V3 300 0 0 end)
          (match newVelocity with Some v => v | None => V3 (-0.5) 0 0.3 end)
          false (Star.tidalRadius s) (V3 1 1 1) 1.0 (Star.mesh s).

Definition step (e : event) (s : Star.t) : Star.t :=
  match e with
  | Tick dt => Star.update dt s
  | Reset p v => reset p v s
  end.

Fixpoint run (es : list event) (s : Star.t) : Star.t :=
  match es with
  | [] => s
  | e :: rest => run rest (step e s)
  end.

(** The tidal-disruption part of one animation frame of Simulation3:
    [star.update(dt); if (star.shouldDisrupt()) debris.generateDebrisFromStar(star.getState());
    debris.update(dt);] *)
Definition frame (deltaTime : R) (s : Star.t) (d : StellarDebris.t) (g : Rng.t)
  : Star.t * StellarDebris.t * Rng.t :=
  let s := Star.update deltaTime s in
  let '(d, g) :=
    if Star.shouldDisrupt s
    then StellarDebris.generateDebrisFromStar (Star.getState s) d g
    else (d, g) in
  (s, StellarDebris.update deltaTime d, g).

Fixpoint frames (dts : list R) (s : Star.t) (d : StellarDebris.t) (g : Rng.t)
  : Star.t * StellarDebris.t * Rng.t :=
  match dts with
  | [] => (s, d, g)
  | dt :: rest =>
      let '(s, d, g) := frame dt s d g in
      frames rest s d g
  end.

End TidalEncounter.

(** ** Vocabulary of the statements

    The predicates, runs and concrete scenarios that the properties below
    are stated with. *)



(** The acceleration of gravity that [updateParticle] computes from the
    position it is handed. *)
Definition gravAccelAt (d : StellarDebris.t) (p : StellarDebris.particle)
  : vec3 :=
  multiplyScalar
    (multiplyScalar (normalize (StellarDebris.position p)) (-1))
    ((0.1 * StellarDebris.blackHoleMass d)
       / JsMath.pow (length (StellarDebris.position p)) 2).

(** The transition test of the drag block on the particle it is handed. *)
Definition transitionTest (d : StellarDebris.t) (p : StellarDebris.particle)
  : bool :=
  JsMath.ltb
    (JsMath.abs (dot (StellarDebris.velocity p)
                     (normalize (StellarDebris.position p)))) 0.1
  && JsMath.gtb (length (StellarDebris.position p)) (StellarDebris.ISCO d * 1.5).

(** A particle that the age test and the capture test let through. *)
Definition survives (d : StellarDebris.t) (p : StellarDebris.particle) : Prop :=
  StellarDebris.age p + 1 <= StellarDebris.maxAge p /\
  StellarDebris.eventHorizon d <= length (StellarDebris.position p).

(** A particle followed over a run of ticks for as long as it is queued. *)
Fixpoint observe (d : StellarDebris.t) (dts : list R)
  (p : StellarDebris.particle) : option StellarDebris.particle :=
  match dts with
  | [] => Some p
  | dt :: rest =>
      match StellarDebris.updateParticle d dt p with
      | Some p' => observe d rest p'
      | None => None
      end
  end.

(** A debris particle as [spawn] makes it, at (36, 0, 0) on a tangential
    course: its radial velocity is 0 and its radius is beyond 1.5 ISCO. *)
Definition streamParticle : StellarDebris.particle :=
  StellarDebris.mkParticle (V3 36 0 0) (V3 0 0 1)
    (cross (V3 36 0 0) (V3 0 0 1)) 0.3 0 1000 (1 / 200) true false.

(** The default companion of Simulation1: 40 solar masses at 250 units,
    at angle 0 in the plane. *)
Definition defaultCompanion : CompanionStar.t :=
  CompanionStar.construct 66e9 CompanionStar.noParams.

(** [{ enableGravity: false, enableWind: false }] *)
Definition forcesOff : CompanionStar.params :=
  CompanionStar.mkParams None None None None None None None None None
    (Some false) (Some false) None None None None None.


(** How a disk particle after the tick relates to the one before, given
    the stream of draws and the cursor the tick started from. *)
Definition tick_rel (ps : Disk.params) (companion : option CompanionStar.t)
  (iscoRadius dt : R) (draws : nat -> R) (c0 : nat) (p p' : Disk.particle)
  : Prop :=
  Disk.initialRadius p' = Disk.initialRadius p /\
  Disk.speed p' = Disk.speed p /\ Disk.mass p' = Disk.mass p /\
  Disk.vTangential p' = Disk.vTangential (Disk.integrate ps companion dt p) /\
  (Disk.radius (Disk.integrate ps companion dt p) < iscoRadius - 3 ->
   Disk.radius p' = Disk.initialRadius p /\
   exists k, (c0 <= k)%nat /\ Disk.angle p' = draws k * PI * 2).

(** The parameters Simulation1 starts with. *)
Definition defaultParams : Disk.params :=
  Disk.mkParams 66 0.7 1.0 1.0 true true 1.0 1.0 true.

(** [{ orbitalRadius: 80 }] and [{ mass: 90 }], two positions of the
    companion sliders. *)
Definition orbit80 : CompanionStar.params :=
  CompanionStar.mkParams None None None (Some 80) None None None None None
    None None None None None None None.
Definition mass90 : CompanionStar.params :=
  CompanionStar.mkParams (Some 90) None None None None None None None None
    None None None None None None None.

(** The default companion after both sliders have been moved. *)
Definition nearCompanion : CompanionStar.t :=
  CompanionStar.setParameters mass90
    (CompanionStar.setParameters orbit80 defaultCompanion).

(** A disk particle of unit mass in the plane at radius 50, ahead of the
    companion by the angle [atan (3/4)]: it sits at (40, 0, 30). *)
Definition leadingParticle : Disk.particle :=
  Disk.mkParticle (atan (3 / 4)) 50 50 0 0 0 0
    (0.007 * JsMath.pow (98 / 50) 1.5) (0.007 * JsMath.pow (98 / 50) 1.5) 0
    (0.012 * (1 / 50)) 0 0 0 0 1 1 0 false 0.

(** What stays fixed on the infalling body, and the range its integrity
    stays in. *)
Definition body_range_inv (bhm : R) (s : Star.t) : Prop :=
  Star.blackHoleMass s = bhm /\ Star.mass s = 1 /\ Star.radius s = 1 /\
  Star.mesh s = true /\
  Star.tidalRadius s = Star.calculateTidalRadius bhm 1 /\
  0.29 <= Star.health s <= 1 /\
  (Star.isDisrupted s = false -> 0.3 <= Star.health s).

(** What is done to the debris queue between construction and
    observation. *)
Inductive queueEvent : Type :=
| Generate (starState : Star.state) (g : Rng.t)
| Update (deltaTime : R)
| Clear.

Definition queueStep (e : queueEvent) (d : StellarDebris.t) : StellarDebris.t :=
  match e with
  | Generate st g => fst (StellarDebris.generateDebrisFromStar st d g)
  | Update dt => StellarDebris.update dt d
  | Clear => StellarDebris.clear d
  end.

Fixpoint queueRun (es : list queueEvent) (d : StellarDebris.t) : StellarDebris.t :=
  match es with
  | [] => d
  | e :: rest => queueRun rest (queueStep e d)
  end.

(** A particle is in exactly one of the two lifecycle states. *)
Definition one_state (p : StellarDebris.particle) : Prop :=
  StellarDebris.inStream p = negb (StellarDebris.circularized p).

(** The counter agrees with the array, the array is within the cap, and
    every entry is in exactly one lifecycle state. *)
Definition queue_inv (d : StellarDebris.t) : Prop :=
  StellarDebris.maxParticles d = 5000%Z /\
  StellarDebris.particleCount d = Z.of_nat (List.length (StellarDebris.particles d)) /\
  (StellarDebris.particleCount d <= 5000)%Z /\
  Forall one_state (StellarDebris.particles d).

(** The sum of a quantity over the queue. *)
Definition sumOver (f : StellarDebris.particle -> R)
  (ps : list StellarDebris.particle) : R :=
  fold_right (fun p acc => f p + acc) 0 ps.

(** The companion's derived fields agree with the parameters they are
    derived from. *)
Definition derived_in_sync (c : CompanionStar.t) : Prop :=
  CompanionStar.influenceRadius c
    = CompanionStar.calculateHillRadius (CompanionStar.mass c)
        (CompanionStar.orbitalRadius c) (CompanionStar.blackHoleMass c) /\
  CompanionStar.position c
    = CompanionStar.orbitalPosition (CompanionStar.angle c)
        (CompanionStar.inclination c) (CompanionStar.orbitalRadius c).

(** A wind particle after one update of the pool: either it has drifted
    along its direction and aged by one, or it has been put back on the
    star's visual surface with age 0 and a unit direction. *)
Definition wind_rel (c : CompanionStar.t)
  (p p' : CompanionStar.windParticle) : Prop :=
  CompanionStar.w_maxAge p' = CompanionStar.w_maxAge p /\
  ((CompanionStar.w_age p + 1 <= CompanionStar.w_maxAge p /\
    CompanionStar.w_age p' = CompanionStar.w_age p + 1 /\
    CompanionStar.w_direction p' = CompanionStar.w_direction p /\
    CompanionStar.w_velocity p' = CompanionStar.w_velocity p /\
    CompanionStar.w_position p'
      = add (CompanionStar.w_position p)
            (multiplyScalar (CompanionStar.w_direction p)
               (CompanionStar.w_velocity p * CompanionStar.windDensity c)))
   \/
   (CompanionStar.w_age p + 1 > CompanionStar.w_maxAge p /\
    CompanionStar.w_age p' = 0 /\
    length (CompanionStar.w_direction p') = 1 /\
    length (CompanionStar.w_position p') = Rabs (CompanionStar.radius c * 0.5))).

(** Every draw of the stream lies in [[0, 1)], as [Math.random()] promises. *)
Definition unit_draws (g : Rng.t) : Prop :=
  forall n, 0 <= Rng.draws g n < 1.

(** A quantum particle after one update of the pool: either it has moved
    by its velocity plus a jitter of at most 0.025 per axis and aged by
    one, or it has been put back in the shell between 0.5 and 0.75 star
    radii with age 0. *)
Definition quantum_rel (c : CompanionStar.t)
  (p p' : CompanionStar.quantumParticle) : Prop :=
  CompanionStar.q_maxAge p' = CompanionStar.q_maxAge p /\
  CompanionStar.q_velocity p' = CompanionStar.q_velocity p /\
  ((CompanionStar.q_age p + 1 <= CompanionStar.q_maxAge p /\
    CompanionStar.q_age p' = CompanionStar.q_age p + 1 /\
    CompanionStar.q_isParticle p' = CompanionStar.q_isParticle p /\
    let d := sub (CompanionStar.q_position p')
                 (add (CompanionStar.q_position p) (CompanionStar.q_velocity p)) in
    Rabs (x d) <= 0.025 /\ Rabs (y d) <= 0.025 /\ Rabs (z d) <= 0.025)
   \/
   (CompanionStar.q_age p + 1 > CompanionStar.q_maxAge p /\
    CompanionStar.q_age p' = 0 /\
    CompanionStar.radius c * 0.5 <= length (CompanionStar.q_position p')
      <= CompanionStar.radius c * 0.75)).

(** What the seeding loop guarantees of an entry of [diskData]. *)
Definition seed_range (p : Disk.particle) : Prop :=
  18 <= Disk.radius p < 98 /\
  Disk.initialRadius p = Disk.radius p /\
  Disk.baseHeight p = Disk.height p /\
  Rabs (Disk.height p) <= 7 /\
  Disk.baseSpeed p = Disk.speed p /\
  0.007 <= Disk.speed p /\
  0 < Disk.infallSpeed p <= 0.012 / 18 /\
  0.7 <= Disk.mass p /\
  (exists k : Z, (0 <= k <= 15)%Z /\ Disk.magneticFieldLine p = IZR k) /\
  Disk.isInISCO p = false /\ Disk.timeInISCO p = 0 /\
  Disk.heatFromViscosity p = 0.

(** What every disk particle satisfies at the end of a tick, whatever it
    was before. *)
Definition tick_bookkeeping (p : Disk.particle) : Prop :=
  -15 <= Disk.height p <= 15 /\
  Disk.heatFromViscosity p = Rmin 1 (Disk.timeInISCO p / 50) /\
  (Disk.isInISCO p = false -> Disk.timeInISCO p = 0).

(** A jet particle as the launch pushes it on [launchedParticles]. *)
Definition fresh_launch (ps : Disk.params) (l : Disk.launched) : Prop :=
  Disk.l_fieldProgress l = 0 /\ Disk.l_age l = 0 /\ Disk.l_maxAge l = 250 /\
  Disk.l_lorentzFactor l = 1 + Disk.l_energy l * 10 /\
  exists h, 0 < h /\
    Disk.l_energy l
      = Disk.spinParameter ps * Disk.spinParameter ps
        * Disk.magneticFieldStrength ps * h.

(** A jet particle that moves forward along its field line. *)
Definition jet_forward (lp : Disk.launched) : Prop :=
  0 <= Disk.l_fieldProgress lp /\ 0 <= Disk.l_lorentzFactor lp.

(** Where [updateJetParticles] leaves a surviving jet particle: inside
    the funnel between the cylinders of radius 2.1 and 19.5, at most 180
    above or below the disk on the side its [isUpper] flag names, and not
    older than its [maxAge]. *)
Definition jet_bounded (lp : Disk.launched) : Prop :=
  let pos := Disk.l_position lp in
  Disk.l_age lp <= Disk.l_maxAge lp /\
  2.1 <= sqrt (x pos * x pos + z pos * z pos) <= 19.5 /\
  Rabs (y pos) <= 180 /\
  (if Disk.l_isUpper lp then 0 <= y pos else y pos <= 0).

(** The life of one wind particle after it is seeded: one pool update
    per frame, each with the companion as it is in that frame. *)
Fixpoint windLife (cs : list CompanionStar.t) (p : CompanionStar.windParticle)
  (g : Rng.t) : CompanionStar.windParticle :=
  match cs with
  | [] => p
  | c :: rest =>
      let '(p', g') := CompanionStar.updateWindParticle c p g in
      windLife rest p' g'
  end.

(** A wind particle on its ray: a unit direction, a position along it,
    and an age within the 200 ticks it is given. *)
Definition wind_on_ray (p : CompanionStar.windParticle) : Prop :=
  length (CompanionStar.w_direction p) = 1 /\
  (exists k, CompanionStar.w_position p
             = multiplyScalar (CompanionStar.w_direction p) k) /\
  CompanionStar.w_maxAge p = 200 /\
  0 <= CompanionStar.w_age p <= 200.

(** * Properties *)

(** ** Comparisons and [Math] *)

Section MathFacts.

Lemma ltb_true (a b : R) : JsMath.ltb a b = true <-> a < b.
Proof. unfold JsMath.ltb; destruct (Rlt_dec a b); split; intros; try easy. Qed.

Lemma ltb_false (a b : R) : JsMath.ltb a b = false <-> b <= a.
Proof.
  unfold JsMath.ltb; destruct (Rlt_dec a b); split; intros; try easy; lra.
Qed.

Lemma gtb_true (a b : R) : JsMath.gtb a b = true <-> a > b.
Proof. unfold JsMath.gtb; rewrite ltb_true; lra. Qed.

Lemma gtb_false (a b : R) : JsMath.gtb a b = false <-> a <= b.
Proof. unfold JsMath.gtb; rewrite ltb_false; lra. Qed.

Lemma leb_true (a b : R) : JsMath.leb a b = true <-> a <= b.
Proof. unfold JsMath.leb; destruct (Rle_dec a b); split; intros; try easy. Qed.

Lemma leb_false (a b : R) : JsMath.leb a b = false <-> b < a.
Proof.
  unfold JsMath.leb; destruct (Rle_dec a b); split; intros; try easy; lra.
Qed.

Lemma geb_true (a b : R) : JsMath.geb a b = true <-> a >= b.
Proof. unfold JsMath.geb; rewrite leb_true; lra. Qed.

Lemma geb_false (a b : R) : JsMath.geb a b = false <-> a < b.
Proof. unfold JsMath.geb; rewrite leb_false; lra. Qed.

Lemma pow_pos_base (x y : R) : 0 < x -> JsMath.pow x y = Rpower x y.
Proof. intros H; unfold JsMath.pow; destruct (Rlt_dec 0 x); [reflexivity | lra]. Qed.

Lemma Rpower_pos (x y : R) : 0 < Rpower x y.
Proof. unfold Rpower; apply exp_pos. Qed.

(** The cube root of a cube. *)
Lemma cbrt_cube (c : R) : 0 < c -> Rpower (c * c * c) (1 / 3) = c.
Proof.
  intros Hc.
  replace (c * c * c) with (Rpower c 3).
  - rewrite Rpower_mult. replace (3 * (1 / 3)) with 1 by lra.
    apply Rpower_1; exact Hc.
  - replace 3 with (INR 3) by (simpl; lra).
    rewrite Rpower_pow by exact Hc. simpl; lra.
Qed.

End MathFacts.

(** ** C10: the two Hill-radius formulas *)

Section HillRadius.

Variables (mass orbitalRadius blackHoleMass : R).
Hypothesis mass_pos : 0 < mass.
Hypothesis bhm_pos : 0 < blackHoleMass.

Lemma companionHill_formula :
  CompanionStar.calculateHillRadius mass orbitalRadius blackHoleMass =
  orbitalRadius * Rpower ((mass / (blackHoleMass / 1e9)) / 3) (1 / 3).
Proof.
  unfold CompanionStar.calculateHillRadius.
  rewrite pow_pos_base; [reflexivity |].
  apply Rdiv_lt_0_compat; [| lra].
  apply Rdiv_lt_0_compat; [exact mass_pos |].
  apply Rdiv_lt_0_compat; lra.
Qed.

Lemma mechanicsHill_formula :
  OrbitalMechanics.calculateHillSphere
    (OrbitalMechanics.construct blackHoleMass) mass orbitalRadius
  = orbitalRadius * Rpower (mass / (3 * blackHoleMass)) (1 / 3).
Proof.
  unfold OrbitalMechanics.calculateHillSphere,
    OrbitalMechanics.construct; simpl.
  rewrite pow_pos_base; [reflexivity |].
  apply Rdiv_lt_0_compat; lra.
Qed.

Lemma companionHill_thousandfold :
  CompanionStar.calculateHillRadius mass orbitalRadius blackHoleMass
  = 1000 * OrbitalMechanics.calculateHillSphere
             (OrbitalMechanics.construct blackHoleMass) mass orbitalRadius.
Proof.
  rewrite companionHill_formula, mechanicsHill_formula.
  assert (Hq : 0 < mass / (3 * blackHoleMass))
    by (apply Rdiv_lt_0_compat; lra).
  replace ((mass / (blackHoleMass / 1e9)) / 3)
    with ((1000 * 1000 * 1000) * (mass / (3 * blackHoleMass)))
    by (field; lra).
  rewrite <- Rpower_mult_distr by lra.
  rewrite cbrt_cube by lra.
  ring.
Qed.

End HillRadius.

(** C10.  On one companion mass, orbital radius and central mass (masses
    positive, where the cube root is the real one) the companion's
    [calculateHillRadius] is [a * ((m / (M / 1e9)) / 3)^(1/3)], the
    mechanics' [calculateHillSphere] is [a * (m / (3 M))^(1/3)], the first
    is exactly 1000 times the second, and for a non-zero orbital radius the
    two values differ: the radius that gates the companion's forces is not
    the Hill formula used by the orbital-transfer code. *)
Theorem hill_radius_formulas_disagree (m a M : R) :
  0 < m -> 0 < M -> a <> 0 ->
  CompanionStar.calculateHillRadius m a M
    = a * Rpower ((m / (M / 1e9)) / 3) (1 / 3) /\
  OrbitalMechanics.calculateHillSphere (OrbitalMechanics.construct M) m a
    = a * Rpower (m / (3 * M)) (1 / 3) /\
  CompanionStar.calculateHillRadius m a M
    = 1000 * OrbitalMechanics.calculateHillSphere (OrbitalMechanics.construct M) m a /\
  CompanionStar.calculateHillRadius m a M
    <> OrbitalMechanics.calculateHillSphere (OrbitalMechanics.construct M) m a /\
  CompanionStar.influenceRadius
      (CompanionStar.set_mass m (CompanionStar.construct M CompanionStar.noParams))
    = 1000 * OrbitalMechanics.calculateHillSphere (OrbitalMechanics.construct M) m 250.
Proof.
  intros Hm HM Ha.
  pose proof (companionHill_formula m a M Hm HM) as H1.
  pose proof (mechanicsHill_formula m a M Hm HM) as H2.
  pose proof (companionHill_thousandfold m a M Hm HM) as H3.
  repeat split; try assumption.
  - rewrite H3, H2.
    pose proof (Rpower_pos (m / (3 * M)) (1 / 3)) as Hp.
    intros Heq.
    assert (Hz : a * Rpower (m / (3 * M)) (1 / 3) = 0) by lra.
    apply Rmult_integral in Hz. destruct Hz; lra.
  - cbn [CompanionStar.influenceRadius CompanionStar.set_mass
         CompanionStar.construct CompanionStar.orbitalRadius
         CompanionStar.blackHoleMass].
    unfold CompanionStar.noParams; cbn [CompanionStar.p_orbitalRadius
      CompanionStar.or_default].
    apply (companionHill_thousandfold m 250 M Hm HM).
Qed.

(** The default companion (40 solar masses at 250 units) around the default
    central mass of Simulation1. *)
Lemma hill_radius_formulas_disagree_witness :
  (0 < 40 /\ 0 < 66e9 /\ 250 <> 0) /\
  CompanionStar.calculateHillRadius 40 250 66e9
    = 1000 * OrbitalMechanics.calculateHillSphere (OrbitalMechanics.construct 66e9) 40 250 /\
  CompanionStar.calculateHillRadius 40 250 66e9
    <> OrbitalMechanics.calculateHillSphere (OrbitalMechanics.construct 66e9) 40 250.
Proof.
  assert (H1 : 0 < 40) by lra.
  assert (H2 : 0 < 66e9) by lra.
  assert (H3 : 250 <> 0) by lra.
  split; [repeat split; assumption |].
  destruct (hill_radius_formulas_disagree 40 250 66e9 H1 H2 H3)
    as (_ & _ & Hk & Hne & _).
  split; assumption.
Defined.

(** ** C2: the adaptive time step *)

Section AdaptiveStep.

Variable ps : Disk.params.
Variable companion : option CompanionStar.t.






End AdaptiveStep.


(** ** C5: the infalling body *)

Section TidalBody.

Import TidalEncounter.

(** What [update] does to integrity and to the flag, branch by branch. *)
Lemma update_health (dt : R) (s : Star.t) :
  Star.health (Star.update dt s) =
  if Star.mesh s && JsMath.ltb (length (Star.position s)) (Star.tidalRadius s)
     && negb (Star.isDisrupted s)
  then Star.health s
       - JsMath.max 0 (1 - length (Star.position s) / Star.tidalRadius s) * 0.01
  else Star.health s.
Proof.
  unfold Star.update.
  destruct (Star.mesh s); cbn [negb andb]; [| reflexivity].
  destruct (JsMath.ltb _ _ && negb _); reflexivity.
Qed.

Lemma update_isDisrupted (dt : R) (s : Star.t) :
  Star.isDisrupted (Star.update dt s) =
  if Star.mesh s && JsMath.ltb (length (Star.position s)) (Star.tidalRadius s)
     && negb (Star.isDisrupted s)
  then JsMath.ltb (Star.health (Star.update dt s)) 0.3
  else Star.isDisrupted s.
Proof.
  rewrite update_health. unfold Star.update.
  destruct (Star.mesh s); cbn [negb andb]; [| reflexivity].
  destruct (JsMath.ltb _ _) eqn:Hd; cbn [andb]; [| reflexivity].
  destruct (Star.isDisrupted s) eqn:Hdis; cbn [negb Star.isDisrupted];
    [reflexivity |].
  destruct (JsMath.ltb _ 0.3); reflexivity.
Qed.

Lemma update_tidalRadius (dt : R) (s : Star.t) :
  Star.tidalRadius (Star.update dt s) = Star.tidalRadius s
  /\ Star.mass (Star.update dt s) = Star.mass s
  /\ Star.blackHoleMass (Star.update dt s) = Star.blackHoleMass s
  /\ Star.mesh (Star.update dt s) = Star.mesh s.
Proof.
  unfold Star.update.
  destruct (Star.mesh s) eqn:Hm; cbn [negb]; [| auto].
  destruct (JsMath.ltb _ _ && negb _); cbn; auto.
Qed.


Lemma update_keeps_disrupted (dt : R) (s : Star.t) :
  Star.isDisrupted s = true -> Star.isDisrupted (Star.update dt s) = true.
Proof.
  intros H. rewrite update_isDisrupted, H.
  rewrite andb_false_r. reflexivity.
Qed.






(** With the default central mass of 66e9 the cap is what is stored. *)
Lemma default_tidalRadius : Star.tidalRadius (Star.construct 66e9) = 80.
Proof.
  cbn [Star.tidalRadius Star.construct]. unfold Star.calculateTidalRadius.
  rewrite pow_pos_base by lra.
  unfold JsMath.min. apply Rmin_right.
  assert (H : 3 <= Rpower (66e9 / 1) (1 / 3)).
  { rewrite <- (cbrt_cube 3) at 1 by lra.
    apply Rle_Rpower_l; lra. }
  lra.
Qed.

End TidalBody.



(** ** C3: the debris queue at its cap *)

Section DebrisCapacity.

Import StellarDebris.

Variable starState : Star.state.




End DebrisCapacity.




(** ** Vectors *)

Section VectorFacts.

Lemma length_nonneg (v : vec3) : 0 <= length v.
Proof. apply sqrt_pos. Qed.

Lemma sum_squares_nonneg (a b c : R) : 0 <= a * a + b * b + c * c.
Proof. nra. Qed.

Lemma length_multiplyScalar (v : vec3) (s : R) :
  length (multiplyScalar v s) = length v * Rabs s.
Proof.
  unfold length, multiplyScalar; cbn [x y z].
  replace (x v * s * (x v * s) + y v * s * (y v * s) + z v * s * (z v * s))
    with ((x v * x v + y v * y v + z v * z v) * (s * s)) by ring.
  rewrite sqrt_mult_alt by apply sum_squares_nonneg.
  f_equal. replace (s * s) with (s ^ 2) by ring.
  rewrite <- Rsqr_pow2. apply sqrt_Rsqr_abs.
Qed.

(** A non-zero vector is normalised to unit length. *)
Lemma length_normalize (v : vec3) : length v <> 0 -> length (normalize v) = 1.
Proof.
  intros Hnz. unfold normalize, divideScalar.
  destruct (Req_dec_T (length v) 0) as [E | _]; [contradiction |].
  rewrite length_multiplyScalar.
  pose proof (length_nonneg v) as Hpos.
  rewrite Rabs_right.
  - field; exact Hnz.
  - apply Rle_ge. apply Rlt_le. apply Rdiv_lt_0_compat; lra.
Qed.

Lemma normalize_zero : normalize (V3 0 0 0) = V3 0 0 0.
Proof.
  unfold normalize, divideScalar, multiplyScalar; cbn [x y z].
  f_equal; ring.
Qed.

Lemma length_zero : length (V3 0 0 0) = 0.
Proof.
  unfold length; cbn [x y z].
  replace (0 * 0 + 0 * 0 + 0 * 0) with 0 by ring. apply sqrt_0.
Qed.

(** Lengths and normalisations along the coordinate axes. *)
Lemma length_x_axis (a : R) : 0 <= a -> length (V3 a 0 0) = a.
Proof.
  intros Ha. unfold length; cbn [x y z].
  replace (a * a + 0 * 0 + 0 * 0) with (a * a) by ring.
  apply sqrt_square; exact Ha.
Qed.

Lemma length_z_axis (a : R) : 0 <= a -> length (V3 0 0 a) = a.
Proof.
  intros Ha. unfold length; cbn [x y z].
  replace (0 * 0 + 0 * 0 + a * a) with (a * a) by ring.
  apply sqrt_square; exact Ha.
Qed.

Lemma normalize_x_axis (a : R) : 0 < a -> normalize (V3 a 0 0) = V3 1 0 0.
Proof.
  intros Ha. unfold normalize, divideScalar.
  rewrite length_x_axis by lra.
  destruct (Req_dec_T a 0) as [E | _]; [lra |].
  unfold multiplyScalar; cbn [x y z]. f_equal; field; lra.
Qed.

Lemma normalize_z_axis (a : R) : 0 < a -> normalize (V3 0 0 a) = V3 0 0 1.
Proof.
  intros Ha. unfold normalize, divideScalar.
  rewrite length_z_axis by lra.
  destruct (Req_dec_T a 0) as [E | _]; [lra |].
  unfold multiplyScalar; cbn [x y z]. f_equal; field; lra.
Qed.


End VectorFacts.

(** ** C9 and C4: one tick of a debris particle *)

Section DebrisTick.

Import StellarDebris.

Variable d : t.
Variable deltaTime : R.

Lemma updateParticle_survivor (p : particle) :
  survives d p ->
  updateParticle d deltaTime p =
  Some (temperatureBlock d (length (position p))
          (integrateBlock (gravAccelAt d p) deltaTime
             (viscousBlock d
                (circularizeBlock d (length (position p))
                                  (set_age (age p + 1) p))))).
Proof.
  intros [Hage Hcap]. unfold updateParticle.
  cbn [age maxAge set_age position].
  replace (JsMath.gtb (age p + 1) (maxAge p)) with false
    by (symmetry; apply gtb_false; exact Hage).
  replace (JsMath.ltb (length (position p)) (eventHorizon d)) with false
    by (symmetry; apply ltb_false; exact Hcap).
  reflexivity.
Qed.

Lemma updateParticle_removed (p : particle) :
  updateParticle d deltaTime p = None <->
  age p + 1 > maxAge p \/ length (position p) < eventHorizon d.
Proof.
  unfold updateParticle. cbn [age maxAge set_age position].
  destruct (JsMath.gtb (age p + 1) (maxAge p)) eqn:Ea.
  - apply gtb_true in Ea. split; [intros _; left; exact Ea | reflexivity].
  - apply gtb_false in Ea.
    destruct (JsMath.ltb (length (position p)) (eventHorizon d)) eqn:Ec.
    + apply ltb_true in Ec. split; [intros _; right; exact Ec | reflexivity].
    + apply ltb_false in Ec. split; [discriminate | intros [H | H]; lra].
Qed.

(** The drag block on a particle in the stream, by cases of the test. *)
Lemma circularizeBlock_instream (p : particle) :
  inStream p = true -> circularized p = false ->
  circularizeBlock d (length (position p)) p =
  if transitionTest d p then
    mkParticle (normalize (position p))
      (multiplyScalar
         (normalize (cross (angularMomentum p) (normalize (position p))))
         (calculateOrbitalVelocity d (length (position p))))
      (angularMomentum p) (temperature p) (age p) (maxAge p) (mass p)
      false true
  else
    mkParticle (normalize (position p)) (velocity p) (angularMomentum p)
      (temperature p) (age p) (maxAge p) (mass p) true false.
Proof.
  intros Hs Hc. unfold circularizeBlock, transitionTest, radialVelocityTest.
  rewrite Hs, Hc. cbn [andb negb position set_position velocity].
  destruct (_ && _);
    unfold set_velocity, set_flags, set_position; cbn; rewrite ?Hs, ?Hc;
    reflexivity.
Qed.

Lemma circularizeBlock_other (dist : R) (p : particle) :
  inStream p && negb (circularized p) = false ->
  circularizeBlock d dist p = p.
Proof. intros H. unfold circularizeBlock. rewrite H. reflexivity. Qed.

Lemma viscousBlock_flags (p : particle) :
  position (viscousBlock d p) = position p /\
  inStream (viscousBlock d p) = inStream p /\
  circularized (viscousBlock d p) = circularized p.
Proof. unfold viscousBlock. destruct (circularized p) eqn:E; cbn; auto. Qed.

Lemma integrateBlock_fields (a : vec3) (p : particle) :
  velocity (integrateBlock a deltaTime p)
    = add (velocity p) (multiplyScalar a deltaTime) /\
  position (integrateBlock a deltaTime p)
    = add (position p)
          (multiplyScalar (velocity (integrateBlock a deltaTime p)) deltaTime) /\
  inStream (integrateBlock a deltaTime p) = inStream p /\
  circularized (integrateBlock a deltaTime p) = circularized p.
Proof. unfold integrateBlock; cbn; auto. Qed.

Lemma temperatureBlock_fields (dist : R) (p : particle) :
  position (temperatureBlock d dist p) = position p /\
  velocity (temperatureBlock d dist p) = velocity p /\
  inStream (temperatureBlock d dist p) = inStream p /\
  circularized (temperatureBlock d dist p) = circularized p.
Proof.
  unfold temperatureBlock. cbn [circularized inStream set_temperature].
  destruct (negb (circularized p) && inStream p); cbn; auto.
Qed.

End DebrisTick.

Section DebrisLifecycle.

Import StellarDebris.

Variable d : t.

(** The tick of a surviving stream particle: where it restarts from, and
    whether it circularises. *)
Lemma instream_tick (dt : R) (p : particle) :
  inStream p = true -> circularized p = false -> survives d p ->
  exists p',
    updateParticle d dt p = Some p' /\
    position p' = add (normalize (position p)) (multiplyScalar (velocity p') dt) /\
    circularized p' = transitionTest d p /\
    inStream p' = negb (transitionTest d p).
Proof.
  intros Hs Hc Hsurv.
  rewrite (updateParticle_survivor d dt p Hsurv).
  eexists; split; [reflexivity |].
  destruct (temperatureBlock_fields d (length (position p))
              (integrateBlock (gravAccelAt d p) dt
                 (viscousBlock d
                    (circularizeBlock d (length (position p))
                                      (set_age (age p + 1) p)))))
    as (Tp & Tv & Ts & Tc).
  rewrite Tp, Tv, Ts, Tc.
  destruct (integrateBlock_fields dt (gravAccelAt d p)
              (viscousBlock d
                 (circularizeBlock d (length (position p))
                                   (set_age (age p + 1) p))))
    as (Iv & Ip & Is & Ic).
  rewrite Ip, Is, Ic.
  destruct (viscousBlock_flags d
              (circularizeBlock d (length (position p))
                                (set_age (age p + 1) p)))
    as (Vp & Vs & Vc).
  rewrite Vp, Vs, Vc.
  pose proof (circularizeBlock_instream d (set_age (age p + 1) p) Hs Hc) as Hblock.
  cbn [set_age position velocity angularMomentum temperature age maxAge mass]
    in Hblock.
  unfold transitionTest in Hblock at 1. cbn [set_age position velocity] in Hblock.
  fold (transitionTest d p) in Hblock.
  rewrite Hblock.
  destruct (transitionTest d p); cbn [position inStream circularized negb];
    repeat split; reflexivity.
Qed.

(** A tick of a circularised particle leaves both flags as they are. *)
Lemma circularized_tick (dt : R) (p p' : particle) :
  circularized p = true ->
  updateParticle d dt p = Some p' ->
  circularized p' = true /\ inStream p' = inStream p.
Proof.
  intros Hc Hup.
  assert (Hsurv : survives d p).
  { unfold survives.
    destruct (Rle_dec (age p + 1) (maxAge p)) as [Ha | Ha];
      destruct (Rle_dec (eventHorizon d) (length (position p))) as [He | He];
      try (split; assumption);
      exfalso;
      assert (Hn : updateParticle d dt p = None)
        by (apply updateParticle_removed; lra);
      congruence. }
  rewrite (updateParticle_survivor d dt p Hsurv) in Hup.
  injection Hup as <-.
  rewrite circularizeBlock_other
    by (cbn [set_age inStream circularized]; rewrite Hc; apply andb_false_r).
  destruct (temperatureBlock_fields d (length (position p))
              (integrateBlock (gravAccelAt d p) dt
                 (viscousBlock d (set_age (age p + 1) p))))
    as (_ & _ & Ts & Tc).
  destruct (integrateBlock_fields dt (gravAccelAt d p)
              (viscousBlock d (set_age (age p + 1) p)))
    as (_ & _ & Is & Ic).
  destruct (viscousBlock_flags d (set_age (age p + 1) p)) as (_ & Vs & Vc).
  rewrite Tc, Ts, Ic, Is, Vc, Vs. cbn [set_age circularized inStream].
  split; [exact Hc | reflexivity].
Qed.


End DebrisLifecycle.

Lemma streamParticle_survives (bhm : R) :
  survives (StellarDebris.construct bhm) streamParticle.
Proof.
  unfold survives, streamParticle; cbn.
  rewrite length_x_axis by lra. lra.
Qed.





Lemma streamParticle_transitions (bhm : R) :
  transitionTest (StellarDebris.construct bhm) streamParticle = true.
Proof.
  unfold transitionTest.
  cbn [streamParticle StellarDebris.position StellarDebris.velocity
       StellarDebris.construct StellarDebris.ISCO].
  rewrite normalize_x_axis by lra. rewrite length_x_axis by lra.
  apply andb_true_iff; split.
  - apply ltb_true. unfold JsMath.abs, dot; cbn [x y z].
    replace (0 * 1 + 0 * 0 + 1 * 0) with 0 by ring. rewrite Rabs_R0. lra.
  - apply gtb_true. lra.
Qed.

(** What the same tick leaves behind.  The viscous block runs in the
    transition tick as well and recomputes the speed from the stored
    position, which the radial-velocity test has normalised: the radius
    it reads is 1, [calculateOrbitalVelocity] clamps it to ISCO, and the
    particle leaves the tick with the tangential speed of the ISCO orbit,
    [sqrt(G M / 18)], not that of its own radius 36. *)
Example transition_tick_leaves_with_isco_speed :
  exists p',
    StellarDebris.updateParticle (StellarDebris.construct 66e9) 0.016 streamParticle
      = Some p' /\
    z (StellarDebris.velocity p') = sqrt (0.1 * 66e9 / 18) /\
    sqrt (0.1 * 66e9 / 36) < z (StellarDebris.velocity p').
Proof.
  set (d := StellarDebris.construct 66e9).
  rewrite (updateParticle_survivor d 0.016 streamParticle
             (streamParticle_survives 66e9)).
  eexists; split; [reflexivity |].
  assert (Hz : z (StellarDebris.velocity
                    (StellarDebris.temperatureBlock d
                       (length (StellarDebris.position streamParticle))
                       (StellarDebris.integrateBlock (gravAccelAt d streamParticle) 0.016
                          (StellarDebris.viscousBlock d
                             (StellarDebris.circularizeBlock d
                                (length (StellarDebris.position streamParticle))
                                (StellarDebris.set_age
                                   (StellarDebris.age streamParticle + 1)
                                   streamParticle))))))
               = sqrt (0.1 * 66e9 / 18)).
  { match goal with
    | |- context [StellarDebris.temperatureBlock d ?dist ?q] =>
        destruct (temperatureBlock_fields d dist q) as (_ & -> & _ & _)
    end.
    match goal with
    | |- context [StellarDebris.integrateBlock ?a 0.016 ?q] =>
        destruct (integrateBlock_fields 0.016 a q) as (-> & _ & _ & _)
    end.
    pose proof (circularizeBlock_instream d
                  (StellarDebris.set_age (StellarDebris.age streamParticle + 1)
                                         streamParticle) eq_refl eq_refl) as Hb.
    cbn [StellarDebris.set_age StellarDebris.position StellarDebris.velocity
         StellarDebris.angularMomentum] in Hb.
    unfold transitionTest in Hb at 1.
    cbn [StellarDebris.set_age StellarDebris.position StellarDebris.velocity] in Hb.
    fold (transitionTest d streamParticle) in Hb.
    unfold d in Hb at 2. rewrite streamParticle_transitions in Hb.
    rewrite Hb.
    unfold StellarDebris.viscousBlock, gravAccelAt.
    cbn [StellarDebris.circularized StellarDebris.set_angularMomentum
         StellarDebris.set_velocity StellarDebris.position
         StellarDebris.angularMomentum StellarDebris.velocity streamParticle].
    rewrite normalize_x_axis by lra. rewrite (length_x_axis 1) by lra.
    replace (cross (multiplyScalar (cross (V3 36 0 0) (V3 0 0 1)) (1 - 0.0001))
                   (V3 1 0 0))
      with (V3 0 0 (36 * (1 - 0.0001)))
      by (unfold cross, multiplyScalar; cbn [x y z]; f_equal; ring).
    rewrite normalize_z_axis by lra.
    unfold StellarDebris.calculateOrbitalVelocity.
    cbn [d StellarDebris.construct StellarDebris.ISCO StellarDebris.blackHoleMass].
    replace (JsMath.ltb 1 18) with true by (symmetry; apply ltb_true; lra).
    unfold add, multiplyScalar; cbn [x y z]. ring. }
  split; [exact Hz |].
  rewrite Hz. apply sqrt_lt_1_alt. lra.
Qed.

(** ** C7 and C8: the companion *)

Section CompanionForces.

Import CompanionStar.

Variable c : t.
Variable q : vec3.

Lemma gravity_off : enableGravity c = false ->
  calculateGravitationalForce c q = V3 0 0 0.
Proof. intros H. unfold calculateGravitationalForce. rewrite H. reflexivity. Qed.

Lemma gravity_out_of_reach :
  length (sub (position c) q) > influenceRadius c ->
  calculateGravitationalForce c q = V3 0 0 0.
Proof.
  intros H. unfold calculateGravitationalForce.
  destruct (negb (enableGravity c)); [reflexivity |].
  apply gtb_true in H. rewrite H. reflexivity.
Qed.

Lemma gravity_in_reach :
  enableGravity c = true ->
  length (sub (position c) q) <= influenceRadius c ->
  calculateGravitationalForce c q =
  multiplyScalar (normalize (sub (position c) q))
    ((mass c * gravitationalStrength c)
       / (length (sub (position c) q) * length (sub (position c) q) + 1) * 0.001).
Proof.
  intros He H. unfold calculateGravitationalForce. rewrite He.
  apply gtb_false in H. cbn [negb]. rewrite H. reflexivity.
Qed.

Lemma wind_off : enableWind c = false -> calculateWindForce c q = V3 0 0 0.
Proof. intros H. unfold calculateWindForce. rewrite H. reflexivity. Qed.

Lemma wind_out_of_reach :
  length (sub q (position c)) > radius c * 2 ->
  calculateWindForce c q = V3 0 0 0.
Proof.
  intros H. unfold calculateWindForce.
  destruct (negb (enableWind c)); [reflexivity |].
  apply gtb_true in H. rewrite H. reflexivity.
Qed.

Lemma wind_in_reach :
  enableWind c = true ->
  length (sub q (position c)) <= radius c * 2 ->
  calculateWindForce c q =
  multiplyScalar (normalize (sub q (position c)))
    ((windDensity c * windVelocity c)
       / (length (sub q (position c)) * length (sub q (position c)) + 1) * 0.0001).
Proof.
  intros He H. unfold calculateWindForce. rewrite He.
  apply gtb_false in H. cbn [negb]. rewrite H. reflexivity.
Qed.

End CompanionForces.

(** The length of a scaled unit vector. *)
Lemma length_scaled_normalize (v : vec3) (k : R) :
  0 < length v -> length (multiplyScalar (normalize v) k) = Rabs k.
Proof.
  intros H. rewrite length_multiplyScalar, length_normalize by lra. ring.
Qed.

Lemma scaled_zero_normalize (v : vec3) (k : R) :
  length v = 0 -> multiplyScalar (normalize v) k = V3 0 0 0.
Proof.
  intros H.
  assert (Hv : v = V3 0 0 0).
  { unfold length in H. apply sqrt_eq_0 in H; [| apply sum_squares_nonneg].
    destruct v as [a b c']; cbn [x y z] in H.
    assert (a = 0) by nra. assert (b = 0) by nra. assert (c' = 0) by nra.
    subst; reflexivity. }
  rewrite Hv, normalize_zero. unfold multiplyScalar; cbn [x y z].
  f_equal; ring.
Qed.

Lemma defaultCompanion_position :
  CompanionStar.position defaultCompanion = V3 250 0 0.
Proof.
  unfold defaultCompanion, CompanionStar.construct, CompanionStar.noParams.
  cbn [CompanionStar.position CompanionStar.or_default
       CompanionStar.p_initialAngle CompanionStar.p_inclination
       CompanionStar.p_orbitalRadius].
  unfold CompanionStar.orbitalPosition. rewrite cos_0, sin_0.
  f_equal; ring.
Qed.

Lemma defaultCompanion_reach :
  25 <= CompanionStar.influenceRadius defaultCompanion.
Proof.
  unfold defaultCompanion, CompanionStar.construct, CompanionStar.noParams.
  cbn [CompanionStar.influenceRadius CompanionStar.or_default
       CompanionStar.p_mass CompanionStar.p_orbitalRadius].
  rewrite (companionHill_formula 40 250 66e9) by lra.
  assert (H : 1 / 10 <= Rpower (40 / (66e9 / 1e9) / 3) (1 / 3)).
  { rewrite <- (cbrt_cube (1 / 10)) at 1 by lra.
    apply Rle_Rpower_l; lra. }
  lra.
Qed.

(** C7, as the code has it.  The gravity contribution is the zero vector
    when gravity is switched off or the distance [d] to the companion
    exceeds the influence radius; with gravity on and [d] within that
    radius it is the unit vector toward the companion scaled by
    [0.001 * mass * gravitationalStrength / (d^2 + 1)], so its magnitude
    is the absolute value of that factor when [d > 0] and it is the zero
    vector at [d = 0].  The wind contribution is the zero vector when the
    wind is switched off or [d] exceeds twice the companion's radius;
    with the wind on and [d] within that range it is the unit vector away
    from the companion scaled by
    [0.0001 * windDensity * windVelocity / (d^2 + 1)], with the same two
    cases of its magnitude. *)
Theorem companion_forces_gated (c : CompanionStar.t) (q : vec3) :
  let toStar := sub (CompanionStar.position c) q in
  let fromStar := sub q (CompanionStar.position c) in
  let gravity := CompanionStar.calculateGravitationalForce c q in
  let wind := CompanionStar.calculateWindForce c q in
  let g :=
    0.001 * (CompanionStar.mass c * CompanionStar.gravitationalStrength c
             / (length toStar * length toStar + 1)) in
  let w :=
    0.0001 * (CompanionStar.windDensity c * CompanionStar.windVelocity c
              / (length fromStar * length fromStar + 1)) in
  (CompanionStar.enableGravity c = false \/
   length toStar > CompanionStar.influenceRadius c -> gravity = V3 0 0 0) /\
  (CompanionStar.enableGravity c = true ->
   length toStar <= CompanionStar.influenceRadius c ->
   gravity = multiplyScalar (normalize toStar) g /\
   (0 < length toStar -> length gravity = Rabs g) /\
   (length toStar = 0 -> gravity = V3 0 0 0)) /\
  (CompanionStar.enableWind c = false \/
   length fromStar > 2 * CompanionStar.radius c -> wind = V3 0 0 0) /\
  (CompanionStar.enableWind c = true ->
   length fromStar <= 2 * CompanionStar.radius c ->
   wind = multiplyScalar (normalize fromStar) w /\
   (0 < length fromStar -> length wind = Rabs w) /\
   (length fromStar = 0 -> wind = V3 0 0 0)) /\
  CompanionStar.getParticleForce c q = add gravity wind.
Proof.
  intros toStar fromStar gravity wind g w.
  split.
  { intros [H | H]; [apply gravity_off | apply gravity_out_of_reach]; exact H. }
  split.
  { intros He Hd.
    assert (E : gravity = multiplyScalar (normalize toStar) g).
    { unfold gravity. rewrite gravity_in_reach by assumption.
      fold toStar. f_equal. unfold g. ring. }
    split; [exact E |]. rewrite E.
    split; [apply length_scaled_normalize | apply scaled_zero_normalize]. }
  split.
  { intros [H | H]; [apply wind_off; exact H | apply wind_out_of_reach].
    fold fromStar. lra. }
  split.
  { intros He Hd.
    assert (E : wind = multiplyScalar (normalize fromStar) w).
    { unfold wind. rewrite wind_in_reach by (try assumption; fold fromStar; lra).
      fold fromStar. f_equal. unfold w. ring. }
    split; [exact E |]. rewrite E.
    split; [apply length_scaled_normalize | apply scaled_zero_normalize]. }
  reflexivity.
Qed.

(** C7, counterexample.  One unit from the default companion, well inside
    both its influence radius and its wind range, with gravity and wind
    switched off by [setParameters]: both contributions are the zero
    vector although [mass * gravitationalStrength / (d^2 + 1)] is 20 and
    [windDensity * windVelocity / (d^2 + 1)] is 1000.  And at the default
    companion's own position, with everything on, the gravity
    contribution is the zero vector although the quotient is 40. *)
Lemma companion_forces_off_counterexample :
  let c := CompanionStar.setParameters forcesOff defaultCompanion in
  let q := V3 249 0 0 in
  let d := length (sub (CompanionStar.position c) q) in
  (d = 1 /\ d <= CompanionStar.influenceRadius c /\ d <= 2 * CompanionStar.radius c /\
   CompanionStar.mass c * CompanionStar.gravitationalStrength c / (d * d + 1) = 20 /\
   CompanionStar.windDensity c * CompanionStar.windVelocity c / (d * d + 1) = 1000 /\
   CompanionStar.calculateGravitationalForce c q = V3 0 0 0 /\
   CompanionStar.calculateWindForce c q = V3 0 0 0) /\
  (CompanionStar.enableGravity defaultCompanion = true /\
   length (sub (CompanionStar.position defaultCompanion) (V3 250 0 0)) = 0 /\
   CompanionStar.mass defaultCompanion
     * CompanionStar.gravitationalStrength defaultCompanion / (0 * 0 + 1) = 40 /\
   CompanionStar.calculateGravitationalForce defaultCompanion (V3 250 0 0) = V3 0 0 0).
Proof.
  intros c q d.
  assert (Hpos : CompanionStar.position c = V3 250 0 0)
    by (exact defaultCompanion_position).
  assert (Hd : d = 1).
  { unfold d, q. rewrite Hpos.
    replace (sub (V3 250 0 0) (V3 249 0 0)) with (V3 1 0 0)
      by (unfold sub; cbn [x y z]; f_equal; ring).
    apply length_x_axis; lra. }
  assert (Hreach : 25 <= CompanionStar.influenceRadius c)
    by (exact defaultCompanion_reach).
  split.
  - rewrite Hd. split; [reflexivity |]. split; [lra |].
    split; [cbn; lra |].
    split; [cbn; lra |].
    split; [cbn; lra |].
    split; reflexivity.
  - assert (H0 : length (sub (CompanionStar.position defaultCompanion) (V3 250 0 0)) = 0).
    { rewrite defaultCompanion_position.
      replace (sub (V3 250 0 0) (V3 250 0 0)) with (V3 0 0 0)
        by (unfold sub; cbn [x y z]; f_equal; ring).
      apply length_zero. }
    split; [reflexivity |]. split; [exact H0 |]. split; [cbn; lra |].
    rewrite gravity_in_reach; [| reflexivity |].
    + apply scaled_zero_normalize. exact H0.
    + rewrite H0. pose proof defaultCompanion_reach. lra.
Qed.

Section SetParameters.

Import CompanionStar.





End SetParameters.



(** ** C1 and C6: the disk population *)

Section DiskTick.

Import Disk.

Variable ps : params.
Variable companion : option CompanionStar.t.
Variable iscoRadius : R.
Variable dt : R.

Lemma tick_rel_weaken (draws : nat -> R) (c0 c1 : nat) (p p' : particle) :
  (c0 <= c1)%nat ->
  tick_rel ps companion iscoRadius dt draws c1 p p' ->
  tick_rel ps companion iscoRadius dt draws c0 p p'.
Proof.
  intros Hle (H1 & H2 & H3 & H4 & H5).
  repeat split; try assumption; destruct (H5 H) as (Hr & k & Hk & Ha);
    [exact Hr | exists k; split; [lia | exact Ha]].
Qed.

Lemma integrate_keeps (p : particle) :
  initialRadius (integrate ps companion dt p) = initialRadius p /\
  speed (integrate ps companion dt p) = speed p /\
  mass (integrate ps companion dt p) = mass p.
Proof.
  unfold integrate.
  destruct (companionForces ps companion p) as [[fr ft] fv].
  cbn. auto.
Qed.

(** The ISCO block never touches the seed radius, the seed speed, the
    mass or the tangential velocity, and only moves the cursor forward. *)
Lemma iscoBlock_keeps (p : particle) (g : Rng.t) :
  let r := iscoBlock ps iscoRadius p g in
  initialRadius (fst (fst r)) = initialRadius p /\
  speed (fst (fst r)) = speed p /\ mass (fst (fst r)) = mass p /\
  vTangential (fst (fst r)) = vTangential p /\
  Rng.draws (snd r) = Rng.draws g /\
  (Rng.cursor g <= Rng.cursor (snd r))%nat /\
  (radius p < iscoRadius - 3 -> radius (fst (fst r)) = radius p /\ snd r = g).
Proof.
  unfold iscoBlock.
  destruct (JsMath.geb (radius p) (iscoRadius - 3)) eqn:Eg; cbn [andb].
  - apply geb_true in Eg.
    destruct (JsMath.leb (radius p) (iscoRadius + 3)); cbn [andb].
    + unfold Rng.next; cbn [fst snd Rng.draws Rng.cursor].
      destruct (JsMath.ltb _ _); cbn [fst snd Rng.draws Rng.cursor];
        repeat split; try reflexivity; try lia; intros; lra.
    + cbn. repeat split; try reflexivity; try lia.
  - cbn. repeat split; try reflexivity; try lia.
Qed.

Lemma fallBlock_keeps (p : particle) (g : Rng.t) :
  let r := fallBlock iscoRadius p g in
  initialRadius (fst r) = initialRadius p /\
  speed (fst r) = speed p /\ mass (fst r) = mass p /\
  vTangential (fst r) = vTangential p /\
  Rng.draws (snd r) = Rng.draws g /\
  (Rng.cursor g <= Rng.cursor (snd r))%nat /\
  (radius p < iscoRadius - 3 ->
   radius (fst r) = initialRadius p /\
   angle (fst r) = Rng.draws g (Rng.cursor g) * PI * 2 /\
   frameDragAccumulated (fst r) = 0 /\
   Rng.cursor (snd r) = S (Rng.cursor g)) /\
  (iscoRadius - 3 <= radius p -> fst r = p /\ snd r = g).
Proof.
  unfold fallBlock.
  destruct (JsMath.ltb (radius p) (iscoRadius - 3)) eqn:E.
  - apply ltb_true in E. unfold Rng.next. cbn.
    repeat split; try reflexivity; try lia; intros; lra.
  - apply ltb_false in E. cbn.
    repeat split; try reflexivity; try lia; intros; lra.
Qed.

Lemma updateParticle_spec (p : particle) (g : Rng.t) :
  let r := updateParticle ps companion iscoRadius dt p g in
  Rng.draws (snd r) = Rng.draws g /\
  (Rng.cursor g <= Rng.cursor (snd r))%nat /\
  tick_rel ps companion iscoRadius dt (Rng.draws g) (Rng.cursor g) p (fst (fst r)).
Proof.
  unfold updateParticle.
  set (pi := integrate ps companion dt p).
  destruct (integrate_keeps p) as (Ii & Is & Im). fold pi in Ii, Is, Im.
  pose proof (iscoBlock_keeps pi g) as HI. cbv zeta in HI.
  destruct (iscoBlock ps iscoRadius pi g) as [[p1 l] g1].
  cbn [fst snd] in HI. destruct HI as (A1 & A2 & A3 & A4 & A5 & A6 & A7).
  pose proof (fallBlock_keeps p1 g1) as HF. cbv zeta in HF.
  destruct (fallBlock iscoRadius p1 g1) as [p2 g2].
  cbn [fst snd] in HF. destruct HF as (B1 & B2 & B3 & B4 & B5 & B6 & B7 & B8).
  cbn [fst snd]. unfold tick_rel.
  cbn [set_verticalPhase initialRadius speed mass vTangential radius angle].
  fold pi.
  split; [congruence |]. split; [lia |].
  split; [congruence |]. split; [congruence |]. split; [congruence |].
  split; [congruence |].
  intros Hlow. destruct (A7 Hlow) as [Hr Hg]. subst g1.
  destruct B7 as (C1 & C2 & _ & _); [lra |].
  split; [congruence |].
  exists (Rng.cursor g). split; [lia | exact C2].
Qed.

End DiskTick.

Section DiskLoop.

Import Disk.

Variable ps : params.
Variable companion : option CompanionStar.t.
Variable iscoRadius : R.
Variable dt : R.

Lemma updateLoop_spec (diskData : list particle) :
  forall (launchedParticles : list launched) (g : Rng.t),
    let r := updateLoop ps companion iscoRadius dt diskData launchedParticles g in
    Rng.draws (snd r) = Rng.draws g /\
    (Rng.cursor g <= Rng.cursor (snd r))%nat /\
    Forall2 (tick_rel ps companion iscoRadius dt (Rng.draws g) (Rng.cursor g))
            diskData (fst (fst r)).
Proof.
  induction diskData as [| p rest IH]; intros launchedParticles g; cbn [updateLoop].
  - cbn [fst snd]. repeat split; [lia | constructor].
  - pose proof (updateParticle_spec ps companion iscoRadius dt p g) as HP.
    cbv zeta in HP.
    destruct (updateParticle ps companion iscoRadius dt p g) as [[p' l] g1].
    cbn [fst snd] in HP. destruct HP as (D1 & C1 & R1).
    set (launched' := match l with
                      | Some lp => launchedParticles ++ [lp]
                      | None => launchedParticles
                      end).
    pose proof (IH launched' g1) as HR. cbv zeta in HR.
    destruct (updateLoop ps companion iscoRadius dt rest launched' g1)
      as [[rest' launched''] g2].
    cbn [fst snd] in HR |- *. destruct HR as (D2 & C2 & R2).
    split; [congruence |]. split; [lia |].
    constructor; [exact R1 |].
    rewrite D1 in R2.
    eapply Forall2_impl; [| exact R2].
    intros a b Hab. eapply tick_rel_weaken; [exact C1 | exact Hab].
Qed.

Lemma updateLoop_length (diskData : list particle)
  (launchedParticles : list launched) (g : Rng.t) :
  List.length (fst (fst (updateLoop ps companion iscoRadius dt diskData
                                    launchedParticles g)))
  = List.length diskData.
Proof.
  destruct (updateLoop_spec diskData launchedParticles g) as (_ & _ & H).
  symmetry. eapply Forall2_length. exact H.
Qed.

End DiskLoop.

Lemma ticks_length (envs : list Disk.tickEnv) (diskData : list Disk.particle) :
  List.length (Disk.ticks envs diskData) = List.length diskData.
Proof.
  revert diskData; induction envs as [| e envs IH]; intros diskData;
    cbn [Disk.ticks]; [reflexivity |].
  pose proof (updateLoop_length (Disk.env_params e) (Disk.env_companion e)
                (Disk.getISCO (Disk.blackHoleMass (Disk.env_params e))
                              (Disk.spinParameter (Disk.env_params e)))
                (Disk.adaptiveDt (Disk.env_params e) (Disk.env_companion e) diskData)
                diskData (Disk.env_launched e) (Disk.env_rng e)) as HL.
  unfold Disk.updateDiskParticles.
  destruct (Disk.updateLoop _ _ _ _ _ _ _) as [[diskData' l'] g'].
  cbn [fst] in HL. rewrite IH. exact HL.
Qed.

(** C1.  One call of [updateDiskParticles] returns as many disk particles
    as it was given, and so does any run of ticks; the particle at each
    index is the one that was there, with its seed radius (the radius it
    was seeded at) unchanged; and a particle whose integrated radius is
    under [iscoRadius - 3], which is outside the launch band, ends that
    same tick at its seed radius with its angle set to [2 PI] times a
    draw taken from [Math.random] during the tick. *)
Theorem disk_population_constant
  (envs : list Disk.tickEnv)
  (ps : Disk.params) (companion : option CompanionStar.t) (iscoRadius : R)
  (diskData : list Disk.particle) (launchedParticles : list Disk.launched)
  (g : Rng.t) (numFieldLines : R) :
  let dt := Disk.adaptiveDt ps companion diskData in
  let diskData' :=
    fst (fst (Disk.updateDiskParticles ps companion iscoRadius diskData
                                       launchedParticles g)) in
  List.length diskData' = List.length diskData /\
  List.length (Disk.ticks envs diskData) = List.length diskData /\
  Forall2
    (fun p p' =>
       Disk.initialRadius p' = Disk.initialRadius p /\
       (Disk.radius (Disk.integrate ps companion dt p) < iscoRadius - 3 ->
        Disk.radius p' = Disk.initialRadius p /\
        exists k, (Rng.cursor g <= k)%nat /\
                  Disk.angle p' = Rng.draws g k * PI * 2))
    diskData diskData' /\
  Disk.initialRadius (fst (Disk.seedParticle numFieldLines g))
    = Disk.radius (fst (Disk.seedParticle numFieldLines g)).
Proof.
  intros dt diskData'.
  split; [apply updateLoop_length |].
  split; [apply ticks_length |].
  split; [| reflexivity].
  destruct (updateLoop_spec ps companion iscoRadius dt diskData launchedParticles g)
    as (_ & _ & H).
  eapply Forall2_impl; [| exact H].
  intros p p' (H1 & _ & _ & _ & H5). split; assumption.
Qed.

Section DiskExample.

Lemma sqrt_25_16 : sqrt (1 + Rsqr (3 / 4)) = 5 / 4.
Proof.
  replace (1 + Rsqr (3 / 4)) with ((5 / 4) * (5 / 4)) by (unfold Rsqr; field).
  apply sqrt_square; lra.
Qed.

Lemma leadingParticle_position :
  V3 (cos (Disk.angle leadingParticle) * Disk.radius leadingParticle)
     (Disk.height leadingParticle)
     (sin (Disk.angle leadingParticle) * Disk.radius leadingParticle)
  = V3 40 0 30.
Proof.
  cbn [leadingParticle Disk.angle Disk.radius Disk.height].
  rewrite cos_atan, sin_atan, sqrt_25_16. f_equal; field.
Qed.

Lemma nearCompanion_fields :
  CompanionStar.position nearCompanion = V3 80 0 0 /\
  CompanionStar.mass nearCompanion = 90 /\
  CompanionStar.gravitationalStrength nearCompanion = 1 /\
  CompanionStar.radius nearCompanion = 15 /\
  CompanionStar.enableGravity nearCompanion = true /\
  CompanionStar.enableWind nearCompanion = true /\
  50 <= CompanionStar.influenceRadius nearCompanion.
Proof.
  unfold nearCompanion, defaultCompanion.
  split.
  { cbn [CompanionStar.setParameters CompanionStar.when_defined mass90 orbit80
         CompanionStar.p_mass CompanionStar.p_temperature
         CompanionStar.p_orbitalRadius CompanionStar.p_orbitalVelocity
         CompanionStar.p_windVelocity CompanionStar.p_windDensity
         CompanionStar.p_gravitationalStrength
         CompanionStar.p_hawkingRadiationIntensity CompanionStar.p_enableWind
         CompanionStar.p_enableGravity CompanionStar.p_enableQuantumEffects
         CompanionStar.set_mass CompanionStar.set_orbitalRadius
         CompanionStar.updateOrbitalPosition CompanionStar.position
         CompanionStar.angle CompanionStar.inclination
         CompanionStar.orbitalRadius CompanionStar.construct
         CompanionStar.noParams CompanionStar.or_default
         CompanionStar.p_initialAngle CompanionStar.p_inclination].
    unfold CompanionStar.orbitalPosition. rewrite cos_0, sin_0.
    f_equal; ring. }
  repeat (split; [reflexivity |]).
  cbn [CompanionStar.setParameters CompanionStar.when_defined mass90 orbit80
       CompanionStar.p_mass CompanionStar.p_temperature
       CompanionStar.p_orbitalRadius CompanionStar.p_orbitalVelocity
       CompanionStar.p_windVelocity CompanionStar.p_windDensity
       CompanionStar.p_gravitationalStrength
       CompanionStar.p_hawkingRadiationIntensity CompanionStar.p_enableWind
       CompanionStar.p_enableGravity CompanionStar.p_enableQuantumEffects
       CompanionStar.set_mass CompanionStar.set_orbitalRadius
       CompanionStar.updateOrbitalPosition CompanionStar.influenceRadius
       CompanionStar.orbitalRadius CompanionStar.blackHoleMass
       CompanionStar.construct].
  rewrite (companionHill_formula 90 80 66e9) by lra.
  assert (H : 5 / 8 <= Rpower (90 / (66e9 / 1e9) / 3) (1 / 3)).
  { rewrite <- (cbrt_cube (5 / 8)) at 1 by lra.
    apply Rle_Rpower_l; lra. }
  lra.
Qed.

Lemma length_40_30 : length (V3 40 0 (-30)) = 50 /\ length (V3 (-40) 0 30) = 50.
Proof.
  unfold length; cbn [x y z].
  replace (40 * 40 + 0 * 0 + -30 * -30) with (50 * 50) by ring.
  replace (-40 * -40 + 0 * 0 + 30 * 30) with (50 * 50) by ring.
  split; apply sqrt_square; lra.
Qed.

(** The companion's force on the leading particle: gravity only, along
    (40, 0, -30) / 50. *)
Lemma nearCompanion_force :
  CompanionStar.getParticleForce nearCompanion (V3 40 0 30)
  = V3 (4 / 5 * (90 / 2501 * 0.001)) 0 (- (3 / 5) * (90 / 2501 * 0.001)).
Proof.
  destruct nearCompanion_fields as (Hp & Hm & Hg & Hr & Heg & Hew & Hinf).
  destruct length_40_30 as [L1 L2].
  unfold CompanionStar.getParticleForce.
  assert (S1 : sub (CompanionStar.position nearCompanion) (V3 40 0 30) = V3 40 0 (-30))
    by (rewrite Hp; unfold sub; cbn [x y z]; f_equal; ring).
  assert (S2 : sub (V3 40 0 30) (CompanionStar.position nearCompanion) = V3 (-40) 0 30)
    by (rewrite Hp; unfold sub; cbn [x y z]; f_equal; ring).
  rewrite wind_out_of_reach by (rewrite S2, L2, Hr; lra).
  rewrite gravity_in_reach by (try exact Heg; rewrite S1, L1; lra).
  rewrite S1, L1, Hm, Hg.
  unfold normalize, divideScalar. rewrite L1.
  destruct (Req_dec_T 50 0) as [E | _]; [lra |].
  unfold add, multiplyScalar; cbn [x y z]. f_equal; field.
Qed.

Lemma leadingParticle_forces :
  Disk.companionForces defaultParams (Some nearCompanion) leadingParticle
  = (7 / 25 * (90 / 2501 * 0.001), - (24 / 25) * (90 / 2501 * 0.001), 0).
Proof.
  unfold Disk.companionForces.
  cbn [defaultParams Disk.showCompanionStar].
  rewrite leadingParticle_position, nearCompanion_force.
  assert (Hlen : length (V3 (4 / 5 * (90 / 2501 * 0.001)) 0
                            (- (3 / 5) * (90 / 2501 * 0.001)))
                 = 90 / 2501 * 0.001).
  { unfold length; cbn [x y z].
    replace (4 / 5 * (90 / 2501 * 0.001) * (4 / 5 * (90 / 2501 * 0.001)) + 0 * 0 +
             - (3 / 5) * (90 / 2501 * 0.001) * (- (3 / 5) * (90 / 2501 * 0.001)))
      with ((90 / 2501 * 0.001) * (90 / 2501 * 0.001)) by field.
    apply sqrt_square; lra. }
  rewrite Hlen.
  replace (JsMath.gtb (90 / 2501 * 0.001) 0) with true
    by (symmetry; apply gtb_true; lra).
  cbn [x y z].
  assert (Hl2 : length2 (V2 40 30) = 50).
  { unfold length2; cbn [x2 y2].
    replace (40 * 40 + 30 * 30) with (50 * 50) by ring.
    apply sqrt_square; lra. }
  unfold normalize2. rewrite Hl2.
  destruct (Req_dec_T 50 0) as [E | _]; [lra |].
  unfold dot2; cbn [x2 y2].
  f_equal. f_equal; field.
Qed.

End DiskExample.

Section TangentialVelocity.

Import Disk.

Lemma integrate_vTangential (ps : params) (companion : option CompanionStar.t)
  (dt : R) (p : particle) :
  vTangential (integrate ps companion dt p)
  = speed p * diskRotationSpeed ps * 60
    + (snd (fst (companionForces ps companion p)) * 1.2) / mass p.
Proof.
  unfold integrate.
  destruct (companionForces ps companion p) as [[fr ft] fv].
  reflexivity.
Qed.

Lemma companionForces_disabled (ps : params) (companion : option CompanionStar.t)
  (p : particle) :
  showCompanionStar ps = false \/ companion = None ->
  companionForces ps companion p = (0, 0, 0).
Proof.
  intros [H | H]; unfold companionForces; rewrite H;
    [reflexivity | destruct (showCompanionStar ps); reflexivity].
Qed.

(** The seed speed is a constant times [r0^-1.5]. *)
Lemma keplerian_power_law (r0 : R) :
  0 < r0 ->
  0.007 * JsMath.pow (98 / r0) 1.5 = (0.007 * Rpower 98 1.5) * Rpower r0 (- 1.5).
Proof.
  intros Hr.
  rewrite pow_pos_base by (apply Rdiv_lt_0_compat; lra).
  unfold Rdiv. rewrite <- Rpower_mult_distr by (try apply Rinv_0_lt_compat; lra).
  replace (Rpower (/ r0) 1.5) with (Rpower r0 (- 1.5)); [ring |].
  unfold Rpower. rewrite ln_Rinv by exact Hr. f_equal. lra.
Qed.

Lemma seedParticle_speed (numFieldLines : R) (g : Rng.t) :
  speed (fst (seedParticle numFieldLines g))
  = 0.007 * JsMath.pow (98 / initialRadius (fst (seedParticle numFieldLines g))) 1.5.
Proof. reflexivity. Qed.

End TangentialVelocity.

(** C6, as the code has it.  The tick assigns the tangential velocity; it
    does not integrate or floor it: after [updateDiskParticles] every
    particle has [vTangential = speed * diskRotationSpeed * 60
    + 1.2 * F_t / mass], where [F_t] is the companion's tangential force
    on it, of either sign, and [speed] is the value fixed at seeding,
    [0.007 * (98 / r0)^1.5], a constant times [r0^-1.5], for the seed
    radius [r0], which the tick leaves unchanged.  With the companion
    hidden or absent the tangential velocity is exactly
    [speed * diskRotationSpeed * 60] after every tick. *)
Theorem tangential_velocity_assigned
  (ps : Disk.params) (companion : option CompanionStar.t) (iscoRadius : R)
  (diskData : list Disk.particle) (launchedParticles : list Disk.launched)
  (g : Rng.t) (numFieldLines : R) :
  let diskData' :=
    fst (fst (Disk.updateDiskParticles ps companion iscoRadius diskData
                                       launchedParticles g)) in
  Forall2
    (fun p p' =>
       Disk.vTangential p'
         = Disk.speed p * Disk.diskRotationSpeed ps * 60
           + 1.2 * snd (fst (Disk.companionForces ps companion p)) / Disk.mass p /\
       Disk.speed p' = Disk.speed p /\
       (Disk.showCompanionStar ps = false \/ companion = None ->
        Disk.vTangential p' = Disk.speed p * Disk.diskRotationSpeed ps * 60))
    diskData diskData' /\
  Disk.speed (fst (Disk.seedParticle numFieldLines g))
    = 0.007 * JsMath.pow
                (98 / Disk.initialRadius (fst (Disk.seedParticle numFieldLines g)))
                1.5 /\
  (forall r0, 0 < r0 ->
     0.007 * JsMath.pow (98 / r0) 1.5 = (0.007 * Rpower 98 1.5) * Rpower r0 (- 1.5)).
Proof.
  intros diskData'.
  split; [| split; [apply seedParticle_speed | apply keplerian_power_law]].
  destruct (updateLoop_spec ps companion iscoRadius
              (Disk.adaptiveDt ps companion diskData)
              diskData launchedParticles g) as (_ & _ & H).
  eapply Forall2_impl; [| exact H].
  intros p p' (_ & Hs & _ & Hv & _).
  rewrite integrate_vTangential in Hv.
  split; [rewrite Hv; unfold Rdiv; ring |].
  split; [exact Hs |].
  intros Hoff. rewrite Hv, (companionForces_disabled ps companion p Hoff).
  cbn [fst snd]. unfold Rdiv; ring.
Qed.

(** C6, counterexample to the floor.  With the default parameters and the
    companion moved to orbital radius 80 and mass 90, the tick of the
    leading particle leaves its tangential velocity under the base value
    [speed * diskRotationSpeed * 60]: the companion pulls it backwards
    along its orbit. *)
Lemma tangential_velocity_below_base_counterexample :
  let g := Rng.mk (fun _ => 0.5) 0 in
  let iscoRadius :=
    Disk.getISCO (Disk.blackHoleMass defaultParams)
                 (Disk.spinParameter defaultParams) in
  let diskData' :=
    fst (fst (Disk.updateDiskParticles defaultParams (Some nearCompanion)
                iscoRadius [leadingParticle] [] g)) in
  exists p',
    diskData' = [p'] /\
    Disk.vTangential p'
      = Disk.speed leadingParticle * Disk.diskRotationSpeed defaultParams * 60
        - 24 / 25 * (90 / 2501 * 0.001) * 1.2 /\
    Disk.vTangential p'
      < Disk.speed leadingParticle * Disk.diskRotationSpeed defaultParams * 60.
Proof.
  intros g iscoRadius diskData'.
  destruct (updateLoop_spec defaultParams (Some nearCompanion) iscoRadius
              (Disk.adaptiveDt defaultParams (Some nearCompanion) [leadingParticle])
              [leadingParticle] [] g) as (_ & _ & H).
  fold (Disk.updateDiskParticles defaultParams (Some nearCompanion) iscoRadius
          [leadingParticle] [] g) in H.
  fold diskData' in H.
  inversion H as [| p0 p' l0 l' Hrel Hrest]; subst.
  inversion Hrest; subst.
  exists p'. split; [reflexivity |].
  destruct Hrel as (_ & _ & _ & Hv & _).
  rewrite integrate_vTangential, leadingParticle_forces in Hv.
  cbn [fst snd leadingParticle Disk.mass] in Hv.
  assert (E : Disk.vTangential p'
              = Disk.speed leadingParticle * Disk.diskRotationSpeed defaultParams * 60
                - 24 / 25 * (90 / 2501 * 0.001) * 1.2).
  { rewrite Hv. cbn [leadingParticle Disk.speed]. field. }
  split; [exact E | rewrite E; lra].
Qed.

(** * Further properties of the code *)

(** ** More on vectors and powers *)

Section MoreVectorFacts.

Lemma pow_square (d : R) : 0 < d -> JsMath.pow d 2 = d * d.
Proof.
  intros Hd. rewrite pow_pos_base by exact Hd.
  replace 2 with (INR 2) by (simpl; lra).
  rewrite Rpower_pow by exact Hd. simpl; lra.
Qed.

Lemma pow_cube (d : R) : 0 < d -> JsMath.pow d 3 = d * d * d.
Proof.
  intros Hd. rewrite pow_pos_base by exact Hd.
  replace 3 with (INR 3) by (simpl; lra).
  rewrite Rpower_pow by exact Hd. simpl; lra.
Qed.

Lemma vec3_eq (a b : vec3) : x a = x b -> y a = y b -> z a = z b -> a = b.
Proof. destruct a, b; cbn [x y z]; intros -> -> ->; reflexivity. Qed.

Lemma length_sub_sym (a b : vec3) : length (sub a b) = length (sub b a).
Proof.
  unfold length, sub; cbn [x y z]. f_equal. ring.
Qed.

Lemma sub_opp (a b : vec3) : sub a b = multiplyScalar (sub b a) (-1).
Proof. apply vec3_eq; unfold sub, multiplyScalar; cbn [x y z]; ring. Qed.

Lemma normalize_as_scale (v : vec3) :
  length v <> 0 -> normalize v = multiplyScalar v (1 / length v).
Proof.
  intros H. unfold normalize, divideScalar.
  destruct (Req_dec_T (length v) 0); [contradiction | reflexivity].
Qed.

(** A vector and any multiple of it have a zero cross product. *)
Lemma cross_parallel (v : vec3) (k : R) : cross v (multiplyScalar v k) = V3 0 0 0.
Proof. apply vec3_eq; unfold cross, multiplyScalar; cbn [x y z]; ring. Qed.

Lemma normalize_parallel (v : vec3) : exists k, normalize v = multiplyScalar v k.
Proof. unfold normalize, divideScalar. eexists; reflexivity. Qed.

Lemma multiplyScalar_assoc (v : vec3) (a b : R) :
  multiplyScalar (multiplyScalar v a) b = multiplyScalar v (a * b).
Proof. apply vec3_eq; unfold multiplyScalar; cbn [x y z]; ring. Qed.

End MoreVectorFacts.

(** ** OrbitalMechanics *)

Section Mechanics.

Import OrbitalMechanics.

Variable om : t.

Lemma blackHoleGravity_far (position : vec3) :
  0.1 <= length position ->
  calculateBlackHoleGravity om position
  = multiplyScalar position
      (- (G om * blackHoleMass om)
       / (length position * length position * length position)).
Proof.
  intros Hd. unfold calculateBlackHoleGravity.
  replace (JsMath.ltb (length position) 0.1) with false
    by (symmetry; apply ltb_false; exact Hd).
  rewrite pow_square by lra.
  rewrite normalize_as_scale by lra.
  rewrite !multiplyScalar_assoc. f_equal. field. lra.
Qed.

Lemma gravityBetween_far (pos1 pos2 : vec3) (mass1 mass2 : R) :
  mass1 <> 0 -> 0.1 <= length (sub pos2 pos1) ->
  calculateGravityBetween om pos1 mass1 pos2 mass2
  = multiplyScalar (sub pos2 pos1)
      (G om * mass2
       / (length (sub pos2 pos1) * length (sub pos2 pos1) * length (sub pos2 pos1))).
Proof.
  intros Hm Hd. unfold calculateGravityBetween.
  replace (JsMath.ltb (length (sub pos2 pos1)) 0.1) with false
    by (symmetry; apply ltb_false; exact Hd).
  rewrite pow_square by lra.
  rewrite normalize_as_scale by lra.
  rewrite multiplyScalar_assoc. f_equal. field.
  split; first [assumption | lra].
Qed.

End Mechanics.

(** X1.  [calculateBlackHoleGravity] is the zero vector within 0.1 of the
    centre; from 0.1 outwards it is the position scaled by
    [-G M / d^3], so it points at the centre with magnitude
    [G |M| / d^2]. *)
Theorem black_hole_gravity_inverse_square
  (om : OrbitalMechanics.t) (position : vec3) :
  let d := length position in
  let a := OrbitalMechanics.calculateBlackHoleGravity om position in
  (d < 0.1 -> a = V3 0 0 0) /\
  (0.1 <= d ->
   a = multiplyScalar position
         (- (OrbitalMechanics.G om * OrbitalMechanics.blackHoleMass om)
          / (d * d * d)) /\
   length a
     = Rabs (OrbitalMechanics.G om * OrbitalMechanics.blackHoleMass om) / (d * d)).
Proof.
  intros d a. split.
  - intros Hd. unfold a, OrbitalMechanics.calculateBlackHoleGravity.
    fold d. apply ltb_true in Hd. rewrite Hd. reflexivity.
  - intros Hd.
    assert (E := blackHoleGravity_far om position Hd). fold d a in E.
    split; [exact E |].
    rewrite E, length_multiplyScalar. fold d.
    unfold Rdiv. rewrite Rabs_mult, Rabs_Ropp.
    rewrite (Rabs_right (/ (d * d * d))).
    + field. lra.
    + apply Rle_ge, Rlt_le, Rinv_0_lt_compat.
      assert (0 < d) by lra. repeat apply Rmult_lt_0_compat; assumption.
Qed.

(** X2.  Newton's third law for [calculateGravityBetween]: for two bodies
    of non-zero mass the accelerations it gives them, each weighted by
    the body's own mass, cancel; and the acceleration of a body does not
    depend on its own mass. *)
Theorem gravity_between_third_law
  (om : OrbitalMechanics.t) (pos1 pos2 : vec3) (mass1 mass2 mass1' : R) :
  mass1 <> 0 -> mass2 <> 0 -> mass1' <> 0 ->
  add (multiplyScalar
         (OrbitalMechanics.calculateGravityBetween om pos1 mass1 pos2 mass2) mass1)
      (multiplyScalar
         (OrbitalMechanics.calculateGravityBetween om pos2 mass2 pos1 mass1) mass2)
    = V3 0 0 0 /\
  OrbitalMechanics.calculateGravityBetween om pos1 mass1 pos2 mass2
    = OrbitalMechanics.calculateGravityBetween om pos1 mass1' pos2 mass2.
Proof.
  intros H1 H2 H1'.
  destruct (Rlt_dec (length (sub pos2 pos1)) 0.1) as [Hnear | Hfar].
  - assert (Hnear' : length (sub pos1 pos2) < 0.1)
      by (rewrite length_sub_sym; exact Hnear).
    unfold OrbitalMechanics.calculateGravityBetween.
    apply ltb_true in Hnear, Hnear'. rewrite Hnear, Hnear'.
    split; [| reflexivity].
    apply vec3_eq; unfold add, multiplyScalar; cbn [x y z]; ring.
  - assert (Hd : 0.1 <= length (sub pos2 pos1)) by lra.
    assert (Hd' : 0.1 <= length (sub pos1 pos2))
      by (rewrite length_sub_sym; exact Hd).
    rewrite (gravityBetween_far om pos1 pos2 mass1 mass2 H1 Hd).
    rewrite (gravityBetween_far om pos2 pos1 mass2 mass1 H2 Hd').
    rewrite (gravityBetween_far om pos1 pos2 mass1' mass2 H1' Hd).
    split; [| reflexivity].
    rewrite (length_sub_sym pos1 pos2).
    rewrite (sub_opp pos1 pos2).
    rewrite !multiplyScalar_assoc.
    apply vec3_eq; unfold add, multiplyScalar; cbn [x y z]; field; lra.
Qed.

Lemma gravity_between_third_law_witness :
  add (multiplyScalar
         (OrbitalMechanics.calculateGravityBetween
            (OrbitalMechanics.construct 66e9) (V3 0 0 0) 1 (V3 3 0 0) 40) 1)
      (multiplyScalar
         (OrbitalMechanics.calculateGravityBetween
            (OrbitalMechanics.construct 66e9) (V3 3 0 0) 40 (V3 0 0 0) 1) 40)
    = V3 0 0 0.
Proof.
  apply (gravity_between_third_law (OrbitalMechanics.construct 66e9)
           (V3 0 0 0) (V3 3 0 0) 1 40 1); lra.
Defined.

(** X3.  For a non-negative mass and gravitational constant the escape
    velocity is [sqrt 2] times the circular orbital velocity at every
    distance, the ones under 0.1 included, where both are 0. *)
Theorem escape_velocity_sqrt2_orbital
  (om : OrbitalMechanics.t) (mass distance : R) :
  0 <= OrbitalMechanics.G om -> 0 <= mass ->
  OrbitalMechanics.calculateEscapeVelocity om mass distance
    = sqrt 2 * OrbitalMechanics.calculateOrbitalVelocity om mass distance /\
  (distance < 0.1 -> OrbitalMechanics.calculateEscapeVelocity om mass distance = 0).
Proof.
  intros HG Hm.
  unfold OrbitalMechanics.calculateEscapeVelocity,
    OrbitalMechanics.calculateOrbitalVelocity.
  destruct (JsMath.ltb distance 0.1) eqn:E.
  - split; [ring | reflexivity].
  - apply ltb_false in E. split; [| intros; lra].
    rewrite <- sqrt_mult.
    + f_equal. field. lra.
    + lra.
    + apply Rmult_le_pos; [apply Rmult_le_pos; assumption |].
      apply Rlt_le, Rinv_0_lt_compat. lra.
Qed.

Lemma escape_velocity_sqrt2_orbital_witness :
  OrbitalMechanics.calculateEscapeVelocity (OrbitalMechanics.construct 66e9) 40 250
    = sqrt 2 * OrbitalMechanics.calculateOrbitalVelocity
                 (OrbitalMechanics.construct 66e9) 40 250.
Proof.
  apply (escape_velocity_sqrt2_orbital (OrbitalMechanics.construct 66e9) 40 250);
    cbn; lra.
Defined.




(** ** The infalling body *)

Section BodyFacts.

Import TidalEncounter.

Lemma tidalRadius_pos (bhm : R) : 0 < bhm -> 0 < Star.calculateTidalRadius bhm 1.
Proof.
  intros H. unfold Star.calculateTidalRadius, JsMath.min.
  rewrite pow_pos_base by lra.
  pose proof (Rpower_pos (bhm / 1) (1 / 3)).
  apply Rmin_glb_lt; lra.
Qed.

Lemma stretchAmount_range (d rt : R) :
  0 <= d -> 0 < rt -> 0 <= JsMath.max 0 (1 - d / rt) <= 1.
Proof.
  intros Hd Hrt. unfold JsMath.max. split; [apply Rmax_l |].
  apply Rmax_lub; [lra |].
  assert (0 <= d / rt) by (apply Rmult_le_pos; [| apply Rlt_le, Rinv_0_lt_compat]; lra).
  lra.
Qed.

Lemma update_range_inv (bhm dt : R) (s : Star.t) :
  0 < bhm -> body_range_inv bhm s -> body_range_inv bhm (Star.update dt s).
Proof.
  intros Hbhm (Hb & Hm & Hr & Hmesh & Ht & Hh & Hlive).
  destruct (update_tidalRadius dt s) as (Et & Em & Eb & Emesh).
  assert (Er : Star.radius (Star.update dt s) = Star.radius s).
  { unfold Star.update. destruct (Star.mesh s); cbn [negb]; [| reflexivity].
    destruct (JsMath.ltb _ _ && negb _); reflexivity. }
  unfold body_range_inv. rewrite Et, Em, Eb, Emesh, Er.
  repeat (split; [assumption |]).
  rewrite update_isDisrupted, update_health.
  destruct (Star.mesh s && JsMath.ltb (length (Star.position s)) (Star.tidalRadius s)
            && negb (Star.isDisrupted s)) eqn:Hc.
  - apply andb_true_iff in Hc. destruct Hc as [_ Hnd].
    apply negb_true_iff in Hnd. specialize (Hlive Hnd).
    assert (Hrt : 0 < Star.tidalRadius s)
      by (rewrite Ht; apply tidalRadius_pos; exact Hbhm).
    pose proof (stretchAmount_range (length (Star.position s)) (Star.tidalRadius s)
                  (length_nonneg _) Hrt) as Hsa.
    split; [lra |].
    intros Hge. apply ltb_false in Hge. exact Hge.
  - split; assumption.
Qed.

Lemma reset_range_inv (bhm : R) (p v : option vec3) (s : Star.t) :
  body_range_inv bhm s -> body_range_inv bhm (reset p v s).
Proof.
  intros (Hb & Hm & Hr & Hmesh & Ht & Hh & Hlive).
  unfold body_range_inv, reset; cbn.
  repeat (split; [assumption |]). split; [lra | intros; lra].
Qed.

Lemma construct_range_inv (bhm : R) : body_range_inv bhm (Star.construct bhm).
Proof.
  unfold body_range_inv, Star.construct; cbn.
  repeat (split; [reflexivity |]). split; [lra | intros; lra].
Qed.

Lemma run_range_inv (bhm : R) (es : list event) (s : Star.t) :
  0 < bhm -> body_range_inv bhm s -> body_range_inv bhm (run es s).
Proof.
  intros Hbhm. revert s; induction es as [| e es IH]; intros s H; cbn [run].
  - exact H.
  - apply IH. destruct e; cbn [step];
      [apply update_range_inv | apply reset_range_inv]; assumption.
Qed.

End BodyFacts.

(** X6.  The distance floor of the body's force formulas: for a
    non-negative central mass [calculateGravity] is never above
    [10 M], the value it takes at every distance up to 0.1, and is
    [0.1 M / d^2] from there on; [calculateTidalForce] likewise never
    exceeds [2000 M R] for a non-negative radius [R]. *)
Theorem body_forces_floored (s : Star.t) (distance : R) :
  0 <= Star.blackHoleMass s -> 0 <= Star.radius s ->
  0 <= Star.calculateGravity s distance <= 10 * Star.blackHoleMass s /\
  (distance <= 0.1 -> Star.calculateGravity s distance = 10 * Star.blackHoleMass s) /\
  (0.1 <= distance ->
   Star.calculateGravity s distance
     = 0.1 * Star.blackHoleMass s / (distance * distance)) /\
  0 <= Star.calculateTidalForce s distance
    <= 2000 * Star.blackHoleMass s * Star.radius s.
Proof.
  intros HM HR.
  unfold Star.calculateGravity, Star.calculateTidalForce.
  set (d := if JsMath.ltb distance 0.1 then 0.1 else distance).
  assert (Hd : 0.1 <= d).
  { unfold d. destruct (JsMath.ltb distance 0.1) eqn:E; [lra |].
    apply ltb_false in E. exact E. }
  cbv zeta. fold d. rewrite pow_square, pow_cube by lra.
  assert (Hdd : 0.01 <= d * d) by nra.
  assert (Hddd : 0.001 <= d * d * d) by nra.
  assert (Hi2 : 0 < / (d * d) <= 100).
  { split; [apply Rinv_0_lt_compat; lra |].
    replace 100 with (/ 0.01) by lra. apply Rinv_le_contravar; lra. }
  assert (Hi3 : 0 < / (d * d * d) <= 1000).
  { split; [apply Rinv_0_lt_compat; lra |].
    replace 1000 with (/ 0.001) by lra. apply Rinv_le_contravar; lra. }
  assert (HMR : 0 <= Star.blackHoleMass s * Star.radius s)
    by (apply Rmult_le_pos; assumption).
  unfold Rdiv.
  split; [split; nra |].
  split.
  { intros Hle. unfold d.
    destruct (JsMath.ltb distance 0.1) eqn:E.
    - lra.
    - apply ltb_false in E. replace distance with 0.1 by lra. lra. }
  split.
  { intros Hge. unfold d.
    replace (JsMath.ltb distance 0.1) with false
      by (symmetry; apply ltb_false; exact Hge).
    reflexivity. }
  split; nra.
Qed.

Lemma body_forces_floored_witness :
  Star.calculateGravity (Star.construct 66e9) 0 = 10 * 66e9.
Proof.
  apply (body_forces_floored (Star.construct 66e9) 0); cbn; lra.
Defined.

(** X7.  An update tick of the body conserves its specific angular
    momentum [position x velocity] exactly, whatever the time step: the
    velocity is changed along the position only, and the position along
    the new velocity. *)
Theorem body_update_conserves_angular_momentum (deltaTime : R) (s : Star.t) :
  cross (Star.position (Star.update deltaTime s))
        (Star.velocity (Star.update deltaTime s))
  = cross (Star.position s) (Star.velocity s).
Proof.
  unfold Star.update.
  destruct (Star.mesh s); cbn [negb]; [| reflexivity].
  destruct (normalize_parallel (Star.position s)) as [k Hk].
  destruct (JsMath.ltb _ _ && negb _); cbn [Star.position Star.velocity];
    rewrite Hk; apply vec3_eq; unfold cross, add, multiplyScalar; cbn [x y z];
    ring.
Qed.



(** X9.  [reset()] with no arguments undoes everything: from any state
    reached by update ticks and resets it gives back the body exactly as
    constructed; with arguments it gives the constructed body at the
    given position and velocity. *)
Theorem body_reset_restores_construction
  (bhm : R) (es : list TidalEncounter.event) (p v : vec3) :
  0 < bhm ->
  let s := TidalEncounter.run es (Star.construct bhm) in
  TidalEncounter.reset None None s = Star.construct bhm /\
  TidalEncounter.reset (Some p) (Some v) s
    = Star.mk bhm 1 1 p v false (Star.calculateTidalRadius bhm 1) (V3 1 1 1) 1.0 true.
Proof.
  intros Hbhm s.
  destruct (run_range_inv bhm es (Star.construct bhm) Hbhm (construct_range_inv bhm))
    as (Hb & Hm & Hr & Hmesh & Ht & _ & _).
  fold s in Hb, Hm, Hr, Hmesh, Ht.
  unfold TidalEncounter.reset, Star.construct.
  rewrite Hb, Hm, Hr, Hmesh, Ht. split; reflexivity.
Qed.

Lemma body_reset_restores_construction_witness :
  TidalEncounter.reset None None (Star.update 0.016 (Star.construct 66e9))
  = Star.construct 66e9.
Proof.
  assert (H : 0 < 66e9) by lra.
  exact (proj1 (body_reset_restores_construction 66e9 [TidalEncounter.Tick 0.016]
                  (V3 0 0 0) (V3 0 0 0) H)).
Defined.

(** ** The debris queue *)

Section QueueFacts.

Import StellarDebris.

(** What a generation appends: that many fresh stream particles, each
    with a two-hundredth of the body's mass. *)
Lemma generateLoop_fresh (starState : Star.state) (n : nat) (d : t) (g : Rng.t) :
  exists new : list particle,
    particles (fst (generateLoop n starState d g)) = particles d ++ new /\
    Z.of_nat (List.length new)
      = Z.min (Z.of_nat n) (Z.max 0 (maxParticles d - particleCount d)) /\
    particleCount (fst (generateLoop n starState d g))
      = (particleCount d + Z.of_nat (List.length new))%Z /\
    maxParticles (fst (generateLoop n starState d g)) = maxParticles d /\
    blackHoleMass (fst (generateLoop n starState d g)) = blackHoleMass d /\
    Forall (fun p => inStream p = true /\ circularized p = false /\
                     mass p = Star.st_mass starState / 200 /\ age p = 0)
           new.
Proof.
  revert d g; induction n as [| n IH]; intros d g.
  - exists []. cbn [generateLoop fst List.length]. rewrite app_nil_r.
    repeat split; try lia. constructor.
  - cbn [generateLoop].
    destruct (particleCount d >=? maxParticles d)%Z eqn:E.
    + apply Z.geb_le in E. exists []. cbn [fst List.length].
      rewrite app_nil_r. repeat split; try lia. constructor.
    + rewrite Z.geb_leb in E; apply Z.leb_gt in E.
      assert (Hsp : inStream (fst (spawn starState 200 g)) = true /\
                    circularized (fst (spawn starState 200 g)) = false /\
                    mass (fst (spawn starState 200 g)) = Star.st_mass starState / 200 /\
                    age (fst (spawn starState 200 g)) = 0)
        by (repeat split; reflexivity).
      destruct (spawn starState 200 g) as [p g']. cbn [fst] in Hsp.
      destruct (IH (with_particles d (particles d ++ [p]) (particleCount d + 1)%Z) g')
        as (new & Hps & Hlen & Hcnt & Hmax & Hbh & Hall).
      cbn [with_particles particles particleCount maxParticles blackHoleMass]
        in Hps, Hlen, Hcnt, Hmax, Hbh.
      exists (p :: new). rewrite Hps, Hcnt, Hmax, Hbh, <- app_assoc.
      cbn [List.length app].
      repeat split; try lia. constructor; assumption.
Qed.

(** The update of one particle keeps it in exactly one state. *)
Lemma updateParticle_one_state (d : t) (dt : R) (p p' : particle) :
  one_state p -> updateParticle d dt p = Some p' -> one_state p'.
Proof.
  unfold one_state. intros Hone Hup.
  destruct (circularized p) eqn:Hc; cbn [negb] in Hone.
  - destruct (circularized_tick d dt p p' Hc Hup) as [Hc' Hs'].
    rewrite Hc', Hs', Hone. reflexivity.
  - assert (Hsurv : survives d p).
    { unfold survives.
      destruct (Rle_dec (age p + 1) (maxAge p)) as [Ha | Ha];
        destruct (Rle_dec (eventHorizon d) (length (position p))) as [He | He];
        try (split; assumption);
        exfalso;
        assert (Hn : updateParticle d dt p = None)
          by (apply updateParticle_removed; lra);
        congruence. }
    destruct (instream_tick d dt p Hone Hc Hsurv) as (q & Hq & _ & Hcq & Hsq).
    rewrite Hq in Hup. injection Hup as <-.
    rewrite Hcq, Hsq. reflexivity.
Qed.

Lemma updateLoop_facts (d : t) (dt : R) (ps : list particle) :
  (List.length (fst (updateLoop d dt ps)) + snd (updateLoop d dt ps)
   = List.length ps)%nat /\
  (Forall one_state ps -> Forall one_state (fst (updateLoop d dt ps))).
Proof.
  induction ps as [| p rest [IHl IHf]]; cbn [updateLoop].
  - cbn. split; [reflexivity | intros; constructor].
  - destruct (updateLoop d dt rest) as [rest' removed]. cbn [fst snd] in IHl, IHf.
    destruct (updateParticle d dt p) as [p' |] eqn:Hup; cbn [fst snd List.length].
    + split; [lia |]. intros Hall. inversion Hall; subst.
      constructor; [eapply updateParticle_one_state; eassumption | auto].
    + split; [lia |]. intros Hall. inversion Hall; subst. auto.
Qed.

Lemma generate_queue_inv (st : Star.state) (d : t) (g : Rng.t) :
  queue_inv d -> queue_inv (fst (generateDebrisFromStar st d g)).
Proof.
  intros (Hmax & Hcnt & Hcap & Hall).
  unfold generateDebrisFromStar.
  destruct (generateLoop_fresh st 200 d g)
    as (new & Hps & Hlen & Hc & Hm & _ & Hnew).
  unfold queue_inv. rewrite Hps, Hc, Hm, length_app.
  repeat split; try lia.
  apply Forall_app. split; [exact Hall |].
  eapply Forall_impl; [| exact Hnew].
  intros p (Hs & Hci & _). unfold one_state. rewrite Hs, Hci. reflexivity.
Qed.

Lemma update_queue_inv (dt : R) (d : t) : queue_inv d -> queue_inv (update dt d).
Proof.
  intros (Hmax & Hcnt & Hcap & Hall).
  unfold update.
  destruct (updateLoop_facts d dt (particles d)) as [Hl Hf].
  destruct (updateLoop d dt (particles d)) as [ps removed].
  cbn [fst snd] in Hl, Hf.
  unfold queue_inv.
  cbn [with_particles maxParticles particleCount particles].
  repeat split; try lia. apply Hf, Hall.
Qed.

Lemma clear_queue_inv (d : t) : queue_inv d -> queue_inv (clear d).
Proof.
  intros (Hmax & Hcnt & Hcap & Hall).
  unfold queue_inv, clear.
  cbn [with_particles maxParticles particleCount particles List.length].
  repeat split; try lia. constructor.
Qed.

Lemma queueStep_inv (e : queueEvent) (d : t) : queue_inv d -> queue_inv (queueStep e d).
Proof.
  intros H. destruct e as [st g | dt |]; cbn [queueStep];
    [apply generate_queue_inv | apply update_queue_inv | apply clear_queue_inv];
    exact H.
Qed.

Lemma queueRun_inv (es : list queueEvent) (d : t) :
  queue_inv d -> queue_inv (queueRun es d).
Proof.
  revert d; induction es as [| e es IH]; intros d H; cbn [queueRun];
    [exact H | apply IH, queueStep_inv, H].
Qed.

Lemma construct_queue_inv (bhm : R) : queue_inv (construct bhm).
Proof.
  unfold queue_inv, construct; cbn. repeat split; try lia. constructor.
Qed.

(** [getStats] in closed form. *)
Lemma getStats_fold (ps : list particle) (sc dc : nat) (at_ tm : R) :
  fold_left
    (fun (acc : nat * nat * R * R) (p : particle) =>
       let '(sc, dc, at_, tm) := acc in
       ((if inStream p then S sc else sc),
        (if circularized p then S dc else dc),
        at_ + temperature p, tm + mass p))
    ps (sc, dc, at_, tm)
  = ((sc + List.length (filter inStream ps))%nat,
     (dc + List.length (filter circularized ps))%nat,
     at_ + sumOver temperature ps, tm + sumOver mass ps).
Proof.
  revert sc dc at_ tm; induction ps as [| p ps IH]; intros sc dc at_ tm;
    cbn [fold_left filter sumOver fold_right List.length].
  - repeat match goal with |- (_, _) = (_, _) => f_equal end; try lia; lra.
  - rewrite IH. fold (sumOver temperature ps) (sumOver mass ps).
    destruct (inStream p), (circularized p); cbn [List.length];
      repeat match goal with |- (_, _) = (_, _) => f_equal end; try lia; lra.
Qed.

Lemma getStats_closed (d : t) :
  getStats d
  = mkStats (List.length (particles d))
            (List.length (filter inStream (particles d)))
            (List.length (filter circularized (particles d)))
            (sumOver temperature (particles d) / length_or_1 (particles d))
            (sumOver mass (particles d)).
Proof.
  unfold getStats. rewrite getStats_fold. cbn [Nat.add].
  f_equal; lra.
Qed.

Lemma one_state_partition (ps : list particle) :
  Forall one_state ps ->
  (List.length (filter inStream ps) + List.length (filter circularized ps)
   = List.length ps)%nat.
Proof.
  induction 1 as [| p ps Hp _ IH]; cbn [filter List.length]; [reflexivity |].
  unfold one_state in Hp.
  destruct (circularized p); rewrite Hp; cbn [negb List.length]; lia.
Qed.

Lemma sumOver_app (f : particle -> R) (a b : list particle) :
  sumOver f (a ++ b) = sumOver f a + sumOver f b.
Proof.
  unfold sumOver. induction a as [| p a IH]; cbn [app fold_right].
  - lra.
  - rewrite IH. lra.
Qed.

Lemma sumOver_const (f : particle -> R) (k : R) (ps : list particle) :
  Forall (fun p => f p = k) ps -> sumOver f ps = INR (List.length ps) * k.
Proof.
  unfold sumOver. induction 1 as [| p ps Hp _ IH]; cbn [fold_right List.length].
  - cbn. lra.
  - rewrite IH, Hp, S_INR. lra.
Qed.

End QueueFacts.

(** X10.  On a debris queue in any state reached from its construction
    by generations, updates and clears, [particleCount] is the length of
    the particle array and never exceeds 5000; an update never lengthens
    the array, and a clear empties it and zeroes the counter. *)
Theorem debris_counter_tracks_array
  (bhm : R) (es : list queueEvent) (dt : R) :
  let d := queueRun es (StellarDebris.construct bhm) in
  StellarDebris.particleCount d
    = Z.of_nat (List.length (StellarDebris.particles d)) /\
  (List.length (StellarDebris.particles d) <= 5000)%nat /\
  (List.length (StellarDebris.particles (StellarDebris.update dt d))
   <= List.length (StellarDebris.particles d))%nat /\
  StellarDebris.particleCount (StellarDebris.update dt d)
    = Z.of_nat (List.length (StellarDebris.particles (StellarDebris.update dt d))) /\
  StellarDebris.particles (StellarDebris.clear d) = [] /\
  StellarDebris.particleCount (StellarDebris.clear d) = 0%Z.
Proof.
  intros d.
  assert (Hinv : queue_inv d) by (apply queueRun_inv, construct_queue_inv).
  pose proof (update_queue_inv dt d Hinv) as Hinv'.
  destruct Hinv as (_ & Hcnt & Hcap & _).
  destruct Hinv' as (_ & Hcnt' & _ & _).
  split; [exact Hcnt |]. split; [lia |].
  split; [| split; [exact Hcnt' | split; reflexivity]].
  unfold StellarDebris.update.
  destruct (updateLoop_facts d dt (StellarDebris.particles d)) as [Hl _].
  destruct (StellarDebris.updateLoop d dt (StellarDebris.particles d)) as [ps removed].
  cbn [fst snd] in Hl. cbn [StellarDebris.with_particles StellarDebris.particles].
  lia.
Qed.

(** X11.  [getStats] on a queue in any reachable state: the stream count
    and the disk count add up to the total, which is the array length;
    and on an empty queue the average temperature is 0, the division
    being by [length || 1]. *)
Theorem debris_stats_partition (bhm : R) (es : list queueEvent) :
  let d := queueRun es (StellarDebris.construct bhm) in
  let st := StellarDebris.getStats d in
  (StellarDebris.streamCount st + StellarDebris.diskCount st
   = StellarDebris.total st)%nat /\
  StellarDebris.total st = List.length (StellarDebris.particles d) /\
  StellarDebris.avgTemperature (StellarDebris.getStats (StellarDebris.clear d)) = 0 /\
  StellarDebris.total (StellarDebris.getStats (StellarDebris.clear d)) = O.
Proof.
  intros d st.
  assert (Hinv : queue_inv d) by (apply queueRun_inv, construct_queue_inv).
  destruct Hinv as (_ & _ & _ & Hall).
  unfold st. rewrite getStats_closed.
  cbn [StellarDebris.streamCount StellarDebris.diskCount StellarDebris.total].
  split; [apply one_state_partition, Hall |].
  split; [reflexivity |].
  split; [| reflexivity].
  cbn. lra.
Qed.

(** X12.  A generation that has room for its 200 particles adds exactly
    the body's mass to the queue's total mass, each new particle
    carrying a two-hundredth of it. *)
Theorem debris_batch_carries_body_mass
  (starState : Star.state) (d : StellarDebris.t) (g : Rng.t) :
  (StellarDebris.particleCount d + 200 <= StellarDebris.maxParticles d)%Z ->
  StellarDebris.totalMass
    (StellarDebris.getStats (fst (StellarDebris.generateDebrisFromStar starState d g)))
  = StellarDebris.totalMass (StellarDebris.getStats d) + Star.st_mass starState.
Proof.
  intros Hroom. rewrite !getStats_closed. cbn [StellarDebris.totalMass].
  unfold StellarDebris.generateDebrisFromStar.
  destruct (generateLoop_fresh starState 200 d g)
    as (new & Hps & Hlen & _ & _ & _ & Hnew).
  rewrite Hps, sumOver_app.
  rewrite (sumOver_const StellarDebris.mass (Star.st_mass starState / 200) new).
  - assert (Hn : List.length new = 200%nat) by lia.
    rewrite Hn. replace (INR 200) with 200 by (simpl; lra). field.
  - eapply Forall_impl; [| exact Hnew]. intros p (_ & _ & Hm & _). exact Hm.
Qed.

Lemma debris_batch_carries_body_mass_witness :
  StellarDebris.totalMass
    (StellarDebris.getStats
       (fst (StellarDebris.generateDebrisFromStar
               (Star.getState (Star.construct 66e9))
               (StellarDebris.construct 66e9) (Rng.mk (fun _ => 0.5) 0))))
  = StellarDebris.totalMass (StellarDebris.getStats (StellarDebris.construct 66e9)) + 1.
Proof.
  apply (debris_batch_carries_body_mass (Star.getState (Star.construct 66e9))
           (StellarDebris.construct 66e9) (Rng.mk (fun _ => 0.5) 0)).
  cbn. lia.
Defined.

Section Frames.

Import TidalEncounter.

Lemma update_not_disrupted_before (dt : R) (s : Star.t) :
  Star.isDisrupted (Star.update dt s) = false -> Star.isDisrupted s = false.
Proof.
  intros H. destruct (Star.isDisrupted s) eqn:E; [| reflexivity].
  rewrite (update_keeps_disrupted dt s E) in H. discriminate.
Qed.

Lemma frame_disrupted (dt : R) (s : Star.t) (d : StellarDebris.t) (g : Rng.t) :
  Star.isDisrupted (Star.update dt s) = true ->
  frame dt s d g
  = (Star.update dt s,
     StellarDebris.update dt
       (fst (StellarDebris.generateDebrisFromStar
               (Star.getState (Star.update dt s)) d g)),
     snd (StellarDebris.generateDebrisFromStar
            (Star.getState (Star.update dt s)) d g)).
Proof.
  intros H. unfold frame, Star.shouldDisrupt. rewrite H.
  destruct (StellarDebris.generateDebrisFromStar _ d g) as [d1 g1].
  reflexivity.
Qed.

Lemma frame_intact (dt : R) (s : Star.t) (d : StellarDebris.t) (g : Rng.t) :
  Star.isDisrupted (Star.update dt s) = false ->
  frame dt s d g = (Star.update dt s, StellarDebris.update dt d, g).
Proof.
  intros H. unfold frame, Star.shouldDisrupt. rewrite H. reflexivity.
Qed.

Lemma update_empty (dt : R) (d : StellarDebris.t) :
  StellarDebris.particles d = [] ->
  StellarDebris.particles (StellarDebris.update dt d) = [].
Proof.
  intros H. unfold StellarDebris.update. rewrite H. reflexivity.
Qed.

Lemma frame_inv (dt : R) (s : Star.t) (d : StellarDebris.t) (g : Rng.t) :
  queue_inv d ->
  (Star.isDisrupted s = false -> StellarDebris.particles d = []) ->
  queue_inv (snd (fst (frame dt s d g))) /\
  (Star.isDisrupted (fst (fst (frame dt s d g))) = false ->
   StellarDebris.particles (snd (fst (frame dt s d g))) = []).
Proof.
  intros Hq He.
  destruct (Star.isDisrupted (Star.update dt s)) eqn:Hdis.
  - rewrite (frame_disrupted dt s d g Hdis). cbn [fst snd].
    split; [| intros Hf; rewrite Hf in Hdis; discriminate].
    apply update_queue_inv, generate_queue_inv, Hq.
  - rewrite (frame_intact dt s d g Hdis). cbn [fst snd].
    split; [apply update_queue_inv, Hq |].
    intros _. apply update_empty, He, (update_not_disrupted_before dt), Hdis.
Qed.

Lemma frames_inv (dts : list R) :
  forall (s : Star.t) (d : StellarDebris.t) (g : Rng.t),
    queue_inv d ->
    (Star.isDisrupted s = false -> StellarDebris.particles d = []) ->
    queue_inv (snd (fst (frames dts s d g))) /\
    (Star.isDisrupted (fst (fst (frames dts s d g))) = false ->
     StellarDebris.particles (snd (fst (frames dts s d g))) = []).
Proof.
  induction dts as [| dt dts IH]; intros s d g Hq He; cbn [frames].
  - cbn [fst snd]. split; assumption.
  - destruct (frame_inv dt s d g Hq He) as [Hq1 He1].
    destruct (frame dt s d g) as [[s1 d1] g1]. cbn [fst snd] in Hq1, He1.
    apply IH; assumption.
Qed.

End Frames.

(** X13.  Over any run of animation frames from a freshly constructed
    body and queue, the queue's counter equals its array length and
    stays within 5000, and as long as the body is not disrupted the
    queue is empty: debris is only ever shed by a disrupted body. *)
Theorem frames_shed_debris_only_after_disruption
  (bhm bhm' : R) (dts : list R) (g : Rng.t) :
  let r := TidalEncounter.frames dts (Star.construct bhm)
                                 (StellarDebris.construct bhm') g in
  let s := fst (fst r) in
  let d := snd (fst r) in
  StellarDebris.particleCount d
    = Z.of_nat (List.length (StellarDebris.particles d)) /\
  (List.length (StellarDebris.particles d) <= 5000)%nat /\
  (Star.isDisrupted s = false -> StellarDebris.particles d = []).
Proof.
  intros r s d.
  destruct (frames_inv dts (Star.construct bhm) (StellarDebris.construct bhm') g
              (construct_queue_inv bhm') (fun _ => eq_refl))
    as ((_ & Hcnt & Hcap & _) & Hempty).
  fold r in Hcnt, Hcap, Hempty. fold d in Hcnt, Hcap, Hempty. fold s in Hempty.
  split; [exact Hcnt |]. split; [lia | exact Hempty].
Qed.

(** ** One debris particle over its life *)

Section ParticleLife.

Import StellarDebris.

Variable d : t.

(** What a tick does to the fields that the blocks do not fight over. *)
Lemma updateParticle_fields (dt : R) (p p' : particle) :
  updateParticle d dt p = Some p' ->
  age p' = age p + 1 /\ maxAge p' = maxAge p /\ mass p' = mass p /\
  age p' <= maxAge p' /\ eventHorizon d <= length (position p) /\
  angularMomentum p'
    = (if circularized p'
       then multiplyScalar (angularMomentum p) (1 - 0.0001)
       else angularMomentum p) /\
  temperature p'
    = 0.3 + JsMath.max 0 (1 - (length (position p) - ISCO d) / 100) * 1.2
      + (if circularized p' then 0 else if inStream p' then 0.3 else 0).
Proof.
  unfold updateParticle. cbn [set_age age maxAge position].
  destruct (JsMath.gtb (age p + 1) (maxAge p)) eqn:Ea; [discriminate |].
  destruct (JsMath.ltb (length (position p)) (eventHorizon d)) eqn:Ec;
    [discriminate |].
  apply gtb_false in Ea. apply ltb_false in Ec.
  intros H. injection H as <-.
  unfold temperatureBlock, integrateBlock, viscousBlock, circularizeBlock,
    radialVelocityTest.
  destruct p as [pos vel L T a ma m s c].
  cbn [age maxAge position] in Ea, Ec.
  destruct s, c;
    cbn [set_age set_position set_velocity set_flags set_angularMomentum
         set_temperature position velocity angularMomentum temperature age
         maxAge mass inStream circularized andb negb fst snd];
    try (destruct (JsMath.ltb _ 0.1 && JsMath.gtb _ _));
    cbn [set_age set_position set_velocity set_flags set_angularMomentum
         set_temperature position velocity angularMomentum temperature age
         maxAge mass inStream circularized andb negb fst snd];
    repeat split; try assumption; try reflexivity; lra.
Qed.

Lemma observe_fields (dts : list R) :
  forall p q : particle,
    observe d dts p = Some q ->
    age q = age p + INR (List.length dts) /\
    maxAge q = maxAge p /\ mass q = mass p /\
    (dts <> [] -> age q <= maxAge q).
Proof.
  induction dts as [| dt dts IH]; intros p q H; cbn [observe] in H.
  - injection H as <-. cbn. repeat split; try lra. intros Hne; congruence.
  - destruct (updateParticle d dt p) as [p' |] eqn:Hup; [| discriminate].
    destruct (updateParticle_fields dt p p' Hup) as (Ha & Hm & Hmass & Hle & _).
    destruct (IH p' q H) as (Ha' & Hm' & Hmass' & Hle').
    cbn [List.length]. rewrite S_INR.
    repeat split; try congruence; try lra.
    intros _. destruct dts as [| dt' dts'].
    + cbn [observe] in H. injection H as <-. exact Hle.
    + apply Hle'. discriminate.
Qed.


End ParticleLife.

(** X14.  A debris particle that is still queued after a run of ticks has
    aged by one per tick, has kept its [maxAge] and its mass, and (if at
    least one tick ran) is not older than its [maxAge]: none outlives
    it. *)
Theorem debris_particle_ages_one_per_tick
  (d : StellarDebris.t) (dts : list R) (p q : StellarDebris.particle) :
  observe d dts p = Some q ->
  StellarDebris.age q = StellarDebris.age p + INR (List.length dts) /\
  StellarDebris.maxAge q = StellarDebris.maxAge p /\
  StellarDebris.mass q = StellarDebris.mass p /\
  (dts <> [] ->
   StellarDebris.age p + INR (List.length dts) <= StellarDebris.maxAge p).
Proof.
  intros H. destruct (observe_fields d dts p q H) as (Ha & Hm & Hmass & Hle).
  repeat split; try assumption.
  intros Hne. specialize (Hle Hne). lra.
Qed.

Lemma debris_particle_ages_one_per_tick_witness :
  exists q,
    observe (StellarDebris.construct 66e9) [0.016] streamParticle = Some q /\
    StellarDebris.age q = 1.
Proof.
  destruct (instream_tick (StellarDebris.construct 66e9) 0.016 streamParticle
              eq_refl eq_refl (streamParticle_survives 66e9))
    as (q & Hq & _).
  assert (Hobs : observe (StellarDebris.construct 66e9) [0.016] streamParticle = Some q)
    by (cbn [observe]; rewrite Hq; reflexivity).
  exists q. split; [exact Hobs |].
  destruct (debris_particle_ages_one_per_tick _ _ _ _ Hobs) as (Ha & _).
  rewrite Ha. cbn. lra.
Defined.

(** X15.  In a queue with the constructor's ISCO of 18 and event horizon
    of 13, every particle that a tick keeps leaves it with a temperature
    between 0.3 and 1.86, and at most 1.56 once circularised. *)
Theorem debris_temperature_range
  (d : StellarDebris.t) (dt : R) (p p' : StellarDebris.particle) :
  StellarDebris.ISCO d = 18 -> StellarDebris.eventHorizon d = 13 ->
  StellarDebris.updateParticle d dt p = Some p' ->
  0.3 <= StellarDebris.temperature p' <= 1.86 /\
  (StellarDebris.circularized p' = true -> StellarDebris.temperature p' <= 1.56).
Proof.
  intros Hi He Hup.
  destruct (updateParticle_fields d dt p p' Hup) as (_ & _ & _ & _ & Hd & _ & HT).
  rewrite He in Hd. rewrite Hi in HT.
  set (tf := JsMath.max 0 (1 - (length (StellarDebris.position p) - 18) / 100)) in HT.
  assert (Htf : 0 <= tf <= 1.05).
  { unfold tf, JsMath.max. split; [apply Rmax_l | apply Rmax_lub; lra]. }
  rewrite HT.
  destruct (StellarDebris.circularized p'); [split; [lra | intros; lra] |].
  destruct (StellarDebris.inStream p'); split; try lra; intros; discriminate.
Qed.

Lemma debris_temperature_range_witness :
  exists q,
    StellarDebris.updateParticle (StellarDebris.construct 66e9) 0.016 streamParticle
      = Some q /\
    0.3 <= StellarDebris.temperature q <= 1.86.
Proof.
  destruct (instream_tick (StellarDebris.construct 66e9) 0.016 streamParticle
              eq_refl eq_refl (streamParticle_survives 66e9))
    as (q & Hq & _).
  exists q. split; [exact Hq |].
  exact (proj1 (debris_temperature_range (StellarDebris.construct 66e9) 0.016
                  streamParticle q eq_refl eq_refl Hq)).
Defined.

(** X16.  For a non-negative central mass and a positive ISCO the
    debris' [calculateOrbitalVelocity] never exceeds the speed of the
    ISCO orbit, [sqrt(0.1 M / ISCO)], which it returns for every radius
    up to ISCO, and it does not increase with the radius. *)
Theorem debris_orbital_velocity_capped (d : StellarDebris.t) (r1 r2 : R) :
  0 <= StellarDebris.blackHoleMass d -> 0 < StellarDebris.ISCO d ->
  StellarDebris.calculateOrbitalVelocity d r1
    <= sqrt (0.1 * StellarDebris.blackHoleMass d / StellarDebris.ISCO d) /\
  (r1 <= StellarDebris.ISCO d ->
   StellarDebris.calculateOrbitalVelocity d r1
     = sqrt (0.1 * StellarDebris.blackHoleMass d / StellarDebris.ISCO d)) /\
  (r1 <= r2 ->
   StellarDebris.calculateOrbitalVelocity d r2
     <= StellarDebris.calculateOrbitalVelocity d r1).
Proof.
  intros HM HI.
  assert (Hmono : forall a b, 0 < a -> a <= b ->
            sqrt (0.1 * StellarDebris.blackHoleMass d / b)
            <= sqrt (0.1 * StellarDebris.blackHoleMass d / a)).
  { intros a b Ha Hab. apply sqrt_le_1_alt. unfold Rdiv.
    apply Rmult_le_compat_l; [lra |]. apply Rinv_le_contravar; assumption. }
  assert (Hclamp : forall r,
            StellarDebris.calculateOrbitalVelocity d r
            = sqrt (0.1 * StellarDebris.blackHoleMass d
                    / Rmax r (StellarDebris.ISCO d))).
  { intros r. unfold StellarDebris.calculateOrbitalVelocity.
    destruct (JsMath.ltb r (StellarDebris.ISCO d)) eqn:E.
    - apply ltb_true in E. rewrite Rmax_right by lra. reflexivity.
    - apply ltb_false in E. rewrite Rmax_left by lra. reflexivity. }
  rewrite !Hclamp.
  pose proof (Rmax_r r1 (StellarDebris.ISCO d)) as H1.
  split; [apply Hmono; lra |].
  split.
  - intros Hle. rewrite Rmax_right by exact Hle. reflexivity.
  - intros Hle. apply Hmono; [lra |].
    apply Rle_max_compat_r. exact Hle.
Qed.

Lemma debris_orbital_velocity_capped_witness :
  StellarDebris.calculateOrbitalVelocity (StellarDebris.construct 66e9) 36
  <= sqrt (0.1 * 66e9 / 18).
Proof.
  apply (debris_orbital_velocity_capped (StellarDebris.construct 66e9) 36 36);
    cbn; lra.
Defined.



(** ** The companion's orbit, parameters and pools *)

Section CompanionOrbit.

Import CompanionStar.

Lemma length_orbitalPosition (a i r : R) : length (orbitalPosition a i r) = Rabs r.
Proof.
  unfold orbitalPosition, length; cbn [x y z].
  pose proof (sin2_cos2 a) as Ha. pose proof (sin2_cos2 i) as Hi.
  unfold Rsqr in Ha, Hi.
  replace (cos a * r * (cos a * r) + sin i * r * sin a * (sin i * r * sin a)
           + sin a * r * cos i * (sin a * r * cos i))
    with (r * r * (cos a * cos a
                   + sin a * sin a * (sin i * sin i + cos i * cos i))) by ring.
  rewrite Hi, Rmult_1_r.
  replace (cos a * cos a + sin a * sin a) with 1 by lra.
  rewrite Rmult_1_r. fold (Rsqr r). apply sqrt_Rsqr_abs.
Qed.

Lemma length_spherePoint (a b : R) : length (spherePoint a b) = 1.
Proof.
  unfold spherePoint, length; cbn [x y z].
  set (th := a * PI * 2). set (ph := acos (2 * b - 1)).
  pose proof (sin2_cos2 th) as Ht. pose proof (sin2_cos2 ph) as Hp.
  unfold Rsqr in Ht, Hp.
  replace (sin ph * cos th * (sin ph * cos th) + sin ph * sin th * (sin ph * sin th)
           + cos ph * cos ph)
    with (sin ph * sin ph * (sin th * sin th + cos th * cos th) + cos ph * cos ph)
    by ring.
  rewrite Ht, Rmult_1_r, Hp. apply sqrt_1.
Qed.

Lemma normalize_unit (v : vec3) : length v = 1 -> normalize v = v.
Proof.
  intros H. rewrite normalize_as_scale by lra. rewrite H.
  apply vec3_eq; unfold multiplyScalar; cbn [x y z]; field.
Qed.

(** Each setter keeps the derived fields in step. *)
Lemma when_defined_sync {A : Type} (o : option A) (f : A -> t -> t) (c : t) :
  (forall v c, derived_in_sync c -> derived_in_sync (f v c)) ->
  derived_in_sync c -> derived_in_sync (when_defined o f c).
Proof. intros Hf Hc. destruct o; cbn [when_defined]; auto. Qed.

Lemma setParameters_sync (ps : params) (c : t) :
  derived_in_sync c -> derived_in_sync (setParameters ps c).
Proof.
  intros H. unfold setParameters.
  repeat (apply when_defined_sync;
          [intros v c0 [H1 H2]; unfold derived_in_sync;
           cbv [set_mass set_temperature set_orbitalRadius set_orbitalVelocity
                set_windVelocity set_windDensity set_gravitationalStrength
                set_hawkingRadiationIntensity set_enableWind set_enableGravity
                set_enableQuantumEffects updateOrbitalPosition
                influenceRadius position mass orbitalRadius blackHoleMass
                angle inclination];
           split; first [reflexivity | assumption] |]).
  exact H.
Qed.

Lemma construct_sync (bhm : R) (ps : params) : derived_in_sync (construct bhm ps).
Proof.
  unfold derived_in_sync, construct; cbv zeta;
    cbn [influenceRadius position mass orbitalRadius blackHoleMass angle inclination].
  split; reflexivity.
Qed.

Lemma advanceOrbit_sync (dt : R) (c : t) :
  derived_in_sync c -> derived_in_sync (advanceOrbit dt c).
Proof.
  intros [H1 H2]. unfold derived_in_sync, advanceOrbit, updateOrbitalPosition;
    cbn [influenceRadius position mass orbitalRadius blackHoleMass angle inclination].
  split; [exact H1 | reflexivity].
Qed.

End CompanionOrbit.

(** X18.  The companion stays on its circle: after construction, after
    any [setParameters] and after any orbit step, its position is at
    distance [|orbitalRadius|] from the centre whatever the inclination,
    and its influence radius is the Hill radius of its current mass and
    orbital radius. *)
Theorem companion_derived_fields_in_sync
  (bhm : R) (ps0 : CompanionStar.params)
  (steps : list (CompanionStar.params + R)) :
  let c :=
    fold_left
      (fun c e => match e with
                  | inl ps => CompanionStar.setParameters ps c
                  | inr dt => CompanionStar.advanceOrbit dt c
                  end)
      steps (CompanionStar.construct bhm ps0) in
  length (CompanionStar.position c) = Rabs (CompanionStar.orbitalRadius c) /\
  CompanionStar.influenceRadius c
    = CompanionStar.calculateHillRadius (CompanionStar.mass c)
        (CompanionStar.orbitalRadius c) (CompanionStar.blackHoleMass c).
Proof.
  intros c.
  assert (H : derived_in_sync c).
  { unfold c. generalize (construct_sync bhm ps0).
    generalize (CompanionStar.construct bhm ps0).
    induction steps as [| e steps IH]; intros c0 H0; cbn [fold_left].
    - exact H0.
    - apply IH. destruct e as [ps | dt];
        [apply setParameters_sync | apply advanceOrbit_sync]; exact H0. }
  destruct H as [H1 H2].
  split; [rewrite H2; apply length_orbitalPosition | exact H1].
Qed.

(** X19.  [setParameters] is idempotent: sending the same parameter
    object twice leaves the companion as the first call left it. *)
Theorem setParameters_idempotent (ps : CompanionStar.params) (c : CompanionStar.t) :
  CompanionStar.setParameters ps (CompanionStar.setParameters ps c)
  = CompanionStar.setParameters ps c.
Proof.
  unfold CompanionStar.setParameters; cbv zeta. destruct c.
  destruct (CompanionStar.p_mass ps), (CompanionStar.p_temperature ps),
    (CompanionStar.p_orbitalRadius ps), (CompanionStar.p_orbitalVelocity ps),
    (CompanionStar.p_windVelocity ps), (CompanionStar.p_windDensity ps),
    (CompanionStar.p_gravitationalStrength ps),
    (CompanionStar.p_hawkingRadiationIntensity ps),
    (CompanionStar.p_enableWind ps), (CompanionStar.p_enableGravity ps),
    (CompanionStar.p_enableQuantumEffects ps);
    cbv [CompanionStar.when_defined CompanionStar.set_mass
         CompanionStar.set_temperature CompanionStar.set_orbitalRadius
         CompanionStar.set_orbitalVelocity CompanionStar.set_windVelocity
         CompanionStar.set_windDensity CompanionStar.set_gravitationalStrength
         CompanionStar.set_hawkingRadiationIntensity CompanionStar.set_enableWind
         CompanionStar.set_enableGravity CompanionStar.set_enableQuantumEffects
         CompanionStar.updateOrbitalPosition
         CompanionStar.blackHoleMass CompanionStar.mass CompanionStar.radius
         CompanionStar.temperature CompanionStar.orbitalRadius
         CompanionStar.orbitalVelocity CompanionStar.windVelocity
         CompanionStar.windDensity CompanionStar.enableWind
         CompanionStar.gravitationalStrength CompanionStar.influenceRadius
         CompanionStar.enableGravity CompanionStar.hawkingRadiationIntensity
         CompanionStar.enableQuantumEffects CompanionStar.angle
         CompanionStar.inclination CompanionStar.eccentricity
         CompanionStar.position CompanionStar.velocity];
    reflexivity.
Qed.

Section CompanionPools.

Import CompanionStar.

Lemma updateWindParticle_rel (c : t) (p : windParticle) (g : Rng.t) :
  wind_rel c p (fst (updateWindParticle c p g)).
Proof.
  unfold wind_rel, updateWindParticle; cbv zeta.
  destruct (JsMath.gtb (w_age p + 1) (w_maxAge p)) eqn:E.
  - apply gtb_true in E.
    cbn [Rng.next fst snd w_maxAge w_age w_direction w_position w_velocity].
    split; [reflexivity |]. right.
    split; [exact E |]. split; [reflexivity |].
    set (dir := spherePoint _ _).
    assert (Hd : length dir = 1) by apply length_spherePoint.
    split.
    + rewrite normalize_unit; assumption.
    + change (V3 (x dir * (radius c * 0.5)) (y dir * (radius c * 0.5))
                 (z dir * (radius c * 0.5)))
        with (multiplyScalar dir (radius c * 0.5)).
      rewrite length_multiplyScalar, Hd. lra.
  - apply gtb_false in E.
    cbn [fst snd w_maxAge w_age w_direction w_position w_velocity].
    split; [reflexivity |]. left. repeat split; try reflexivity. exact E.
Qed.

Lemma windLoop_rel (c : t) (windData : list windParticle) (g : Rng.t) :
  Forall2 (wind_rel c) windData (fst (windLoop c windData g)).
Proof.
  revert g. induction windData as [| p rest IH]; intros g; cbn [windLoop fst].
  - constructor.
  - pose proof (updateWindParticle_rel c p g) as Hp.
    destruct (updateWindParticle c p g) as [p' g1]; cbn [fst] in Hp.
    specialize (IH g1). destruct (windLoop c rest g1) as [rest' g2]; cbn [fst] in *.
    constructor; assumption.
Qed.

Lemma wind_rel_advanceOrbit (dt : R) (c : t) (p p' : windParticle) :
  wind_rel (advanceOrbit dt c) p p' <-> wind_rel c p p'.
Proof. unfold wind_rel, advanceOrbit, updateOrbitalPosition; cbn [windDensity radius]. tauto. Qed.

Lemma next_unit_draws (g : Rng.t) :
  unit_draws g -> 0 <= fst (Rng.next g) < 1 /\ unit_draws (snd (Rng.next g)).
Proof. intros H. split; [apply H | exact H]. Qed.

Lemma length_scaled_spherePoint (a b k : R) :
  length (V3 (x (spherePoint a b) * k) (y (spherePoint a b) * k)
             (z (spherePoint a b) * k)) = Rabs k.
Proof.
  change (V3 _ _ _) with (multiplyScalar (spherePoint a b) k).
  rewrite length_multiplyScalar, length_spherePoint. lra.
Qed.

Lemma updateQuantumParticle_rel (c : t) (p : quantumParticle) (g : Rng.t) :
  0 <= radius c -> unit_draws g ->
  quantum_rel c p (fst (updateQuantumParticle c p g)) /\
  unit_draws (snd (updateQuantumParticle c p g)).
Proof.
  intros Hr Hg. unfold quantum_rel, updateQuantumParticle; cbv zeta.
  cbn [Rng.next Rng.draws Rng.cursor].
  pose proof (Hg (Rng.cursor g)) as H0.
  pose proof (Hg (S (Rng.cursor g))) as H1.
  pose proof (Hg (S (S (Rng.cursor g)))) as H2.
  pose proof (Hg (S (S (S (S (S (Rng.cursor g))))))) as H5.
  destruct (JsMath.gtb (q_age p + 1) (q_maxAge p)) eqn:E;
    cbn [fst snd q_maxAge q_age q_velocity q_position q_isParticle].
  - apply gtb_true in E. split; [| exact Hg].
    split; [reflexivity |]. split; [reflexivity |]. right.
    split; [exact E |]. split; [reflexivity |].
    rewrite length_scaled_spherePoint.
    rewrite Rabs_pos_eq by nra. nra.
  - apply gtb_false in E. split; [| exact Hg].
    split; [reflexivity |]. split; [reflexivity |]. left.
    split; [exact E |]. split; [reflexivity |]. split; [reflexivity |].
    cbv zeta. unfold sub, add; cbn [x y z].
    repeat split; apply Rabs_le; lra.
Qed.

Lemma quantumLoop_rel (c : t) (quantumData : list quantumParticle) (g : Rng.t) :
  0 <= radius c -> unit_draws g ->
  Forall2 (quantum_rel c) quantumData (fst (quantumLoop c quantumData g)).
Proof.
  intros Hr. revert g.
  induction quantumData as [| p rest IH]; intros g Hg; cbn [quantumLoop fst].
  - constructor.
  - destruct (updateQuantumParticle_rel c p g Hr Hg) as [Hp Hg1].
    destruct (updateQuantumParticle c p g) as [p' g1]; cbn [fst snd] in Hp, Hg1.
    specialize (IH g1 Hg1).
    destruct (quantumLoop c rest g1) as [rest' g2]; cbn [fst] in *.
    constructor; assumption.
Qed.

Lemma windLoop_unit_draws (c : t) (windData : list windParticle) (g : Rng.t) :
  Rng.draws (snd (windLoop c windData g)) = Rng.draws g.
Proof.
  revert g. induction windData as [| p rest IH]; intros g; cbn [windLoop snd].
  - reflexivity.
  - assert (Hp : Rng.draws (snd (updateWindParticle c p g)) = Rng.draws g).
    { unfold updateWindParticle; cbv zeta.
      destruct (JsMath.gtb _ _); reflexivity. }
    destruct (updateWindParticle c p g) as [p' g1]; cbn [snd] in Hp.
    specialize (IH g1). destruct (windLoop c rest g1) as [rest' g2]; cbn [snd] in *.
    congruence.
Qed.

Lemma quantum_rel_advanceOrbit (dt : R) (c : t) (p p' : quantumParticle) :
  quantum_rel (advanceOrbit dt c) p p' <-> quantum_rel c p p'.
Proof. unfold quantum_rel, advanceOrbit, updateOrbitalPosition; cbn [radius]. tauto. Qed.

End CompanionPools.

(** X20.  One [update] of the companion keeps its wind pool the same
    size.  With the mesh, the instanced wind mesh and [enableWind] all
    present, every wind particle either drifts along its own direction by
    [velocity * windDensity] and ages by one, or (once older than its
    [maxAge]) restarts with age 0 on the sphere of radius
    [|radius * 0.5|] around the star with a unit direction; in every
    other case the pool is left untouched. *)
Theorem companion_update_wind_pool
  (dt : R) (c : CompanionStar.t) (ps : CompanionStar.pools) (g : Rng.t) :
  let ps' := snd (fst (CompanionStar.update dt c ps g)) in
  if CompanionStar.mesh ps && CompanionStar.windInstance ps
     && CompanionStar.enableWind c
  then Forall2 (wind_rel c) (CompanionStar.windData ps) (CompanionStar.windData ps')
  else CompanionStar.windData ps' = CompanionStar.windData ps.
Proof.
  intros ps'. subst ps'. unfold CompanionStar.update.
  destruct (CompanionStar.mesh ps); cbn [negb andb]; [| reflexivity].
  cbv zeta. unfold CompanionStar.updateWindParticles.
  replace (CompanionStar.enableWind (CompanionStar.advanceOrbit dt c))
    with (CompanionStar.enableWind c) by reflexivity.
  destruct (CompanionStar.windInstance ps), (CompanionStar.enableWind c);
    cbn [negb orb andb].
  - pose proof (windLoop_rel (CompanionStar.advanceOrbit dt c)
                  (CompanionStar.windData ps) g) as H.
    destruct (CompanionStar.windLoop _ _ g) as [wind g1]; cbn [fst] in H.
    destruct (CompanionStar.updateQuantumParticles _ _ _ g1) as [quantum g2].
    cbn [fst snd CompanionStar.windData].
    revert H; apply Forall2_impl.
    intros a b Hab. apply (wind_rel_advanceOrbit dt c). exact Hab.
  - destruct (CompanionStar.updateQuantumParticles _ _ _ g); reflexivity.
  - destruct (CompanionStar.updateQuantumParticles _ _ _ g); reflexivity.
  - destruct (CompanionStar.updateQuantumParticles _ _ _ g); reflexivity.
Qed.

(** X21.  With draws in [[0, 1)] and a non-negative star radius, one
    [update] of a companion whose mesh, quantum mesh and
    [enableQuantumEffects] are present moves every quantum particle by
    its velocity plus a jitter of at most 0.025 on each axis, ageing it
    by one, or (once older than its [maxAge]) restarts it with age 0 at a
    distance between 0.5 and 0.75 star radii; velocity and [maxAge] never
    change. *)
Theorem companion_update_quantum_pool
  (dt : R) (c : CompanionStar.t) (ps : CompanionStar.pools) (g : Rng.t)
  (Hradius : 0 <= CompanionStar.radius c)
  (Hdraws : unit_draws g)
  (Hmesh : CompanionStar.mesh ps = true)
  (Hinst : CompanionStar.quantumInstance ps = true)
  (Hon : CompanionStar.enableQuantumEffects c = true) :
  Forall2 (quantum_rel c) (CompanionStar.quantumData ps)
    (CompanionStar.quantumData (snd (fst (CompanionStar.update dt c ps g)))).
Proof.
  unfold CompanionStar.update. rewrite Hmesh; cbn [negb]. cbv zeta.
  assert (Hg1 : unit_draws
                  (snd (CompanionStar.updateWindParticles
                          (CompanionStar.advanceOrbit dt c)
                          (CompanionStar.windInstance ps)
                          (CompanionStar.windData ps) g))).
  { unfold CompanionStar.updateWindParticles.
    destruct (negb _ || negb _); [exact Hdraws |].
    unfold unit_draws. rewrite windLoop_unit_draws. exact Hdraws. }
  destruct (CompanionStar.updateWindParticles _ _ _ g) as [wind g1]; cbn [snd] in Hg1.
  unfold CompanionStar.updateQuantumParticles. rewrite Hinst.
  replace (CompanionStar.enableQuantumEffects (CompanionStar.advanceOrbit dt c))
    with (CompanionStar.enableQuantumEffects c) by reflexivity.
  rewrite Hon; cbn [negb orb].
  assert (Hr' : 0 <= CompanionStar.radius (CompanionStar.advanceOrbit dt c))
    by exact Hradius.
  pose proof (quantumLoop_rel (CompanionStar.advanceOrbit dt c)
                (CompanionStar.quantumData ps) g1 Hr' Hg1) as H.
  destruct (CompanionStar.quantumLoop _ _ g1) as [quantum g2]; cbn [fst] in H.
  cbn [fst snd CompanionStar.quantumData].
  revert H; apply Forall2_impl.
  intros a b Hab. apply (quantum_rel_advanceOrbit dt c). exact Hab.
Qed.

Lemma companion_update_quantum_pool_witness :
  let ps := CompanionStar.mkPools true true [] true
              [CompanionStar.mkQuantum (V3 8 0 0) (V3 0 0.01 0) 99 100 true] in
  Forall2 (quantum_rel defaultCompanion) (CompanionStar.quantumData ps)
    (CompanionStar.quantumData
       (snd (fst (CompanionStar.update 0.016 defaultCompanion ps
                    (Rng.mk (fun _ => 0.5) 0))))).
Proof.
  apply companion_update_quantum_pool.
  - unfold defaultCompanion, CompanionStar.construct; cbv zeta.
    cbn [CompanionStar.radius CompanionStar.noParams CompanionStar.p_radius
         CompanionStar.or_default]. lra.
  - intros n; cbn [Rng.draws]; lra.
  - reflexivity.
  - reflexivity.
  - reflexivity.
Defined.

(** ** The disk: seeding, bookkeeping, launches and jets *)

Section PowerRanges.

Lemma pow_unit_range (a b : R) : 0 <= a < 1 -> 0 < b -> 0 <= JsMath.pow a b < 1.
Proof.
  intros [Ha0 Ha1] Hb. unfold JsMath.pow.
  destruct (Rlt_dec 0 a) as [Hpos | Hz].
  - split; [left; apply Rpower_pos |].
    unfold Rpower. rewrite <- exp_0. apply exp_increasing.
    assert (ln a < 0) by (rewrite <- ln_1; apply ln_increasing; lra).
    nra.
  - destruct (Rlt_dec 0 b); lra.
Qed.

Lemma pow_closed_unit_range (a b : R) :
  0 <= a <= 1 -> 0 < b -> 0 <= JsMath.pow a b <= 1.
Proof.
  intros [Ha0 Ha1] Hb.
  destruct (Req_dec a 1) as [-> | Hne].
  - unfold JsMath.pow. destruct (Rlt_dec 0 1); [| lra].
    unfold Rpower. rewrite ln_1, Rmult_0_r, exp_0. lra.
  - destruct (pow_unit_range a b); lra.
Qed.

Lemma pow_above_one (a b : R) : 1 <= a -> 0 <= b -> 1 <= JsMath.pow a b.
Proof.
  intros Ha Hb. rewrite pow_pos_base by lra.
  unfold Rpower. rewrite <- exp_0 at 1.
  assert (0 <= ln a).
  { rewrite <- ln_1. destruct Ha as [Ha | <-]; [left; apply ln_increasing; lra | lra]. }
  destruct (Req_dec (b * ln a) 0) as [-> | Hne]; [lra |].
  left. apply exp_increasing. nra.
Qed.

Lemma pow_half_below (a c : R) : 0 < a <= c * c -> 0 <= c -> JsMath.pow a 0.5 <= c.
Proof.
  intros [Ha Hac] Hc. rewrite pow_pos_base by exact Ha.
  replace 0.5 with (/ 2) by lra. rewrite Rpower_sqrt by exact Ha.
  rewrite <- (sqrt_square c) by exact Hc.
  apply sqrt_le_1; nra.
Qed.

Lemma floor_index (a : R) (n : Z) :
  0 <= a < IZR n -> exists k : Z, (0 <= k <= n - 1)%Z /\ Disk.floor a = IZR k.
Proof.
  intros [Ha0 Han]. exists (Int_part a). split; [| reflexivity].
  destruct (base_Int_part a) as [Hlo Hhi].
  split.
  - assert (H : (-1 < Int_part a)%Z) by (apply lt_IZR; lra). lia.
  - assert (H : (Int_part a < n)%Z) by (apply lt_IZR; lra). lia.
Qed.

End PowerRanges.

Section DiskSeeding.

Import Disk.

Lemma seedParticle_range (g : Rng.t) :
  unit_draws g ->
  seed_range (fst (seedParticle 16 g)) /\
  Rng.cursor (snd (seedParticle 16 g)) = (Rng.cursor g + 8)%nat /\
  Rng.draws (snd (seedParticle 16 g)) = Rng.draws g.
Proof.
  intros Hg. unfold seedParticle, Rng.next.
  cbn [fst snd Rng.draws Rng.cursor].
  set (n := Rng.cursor g).
  pose proof (Hg (S n)) as Hrr.
  pose proof (Hg (S (S n))) as Hh0.
  pose proof (Hg (S (S (S n)))) as Hh1.
  pose proof (Hg (S (S (S (S n))))) as Hh2.
  pose proof (Hg (S (S (S (S (S n)))))) as Hm0.
  pose proof (Hg (S (S (S (S (S (S (S n)))))))) as Hf0.
  destruct (pow_unit_range (Rng.draws g (S n)) 1.5 Hrr ltac:(lra)) as [Hp0 Hp1].
  set (radius := 18 + JsMath.pow (Rng.draws g (S n)) 1.5 * 80) in *.
  assert (Hrad : 18 <= radius < 98) by (unfold radius; lra).
  assert (Hthick : 0 <= JsMath.pow (radius / 50) 0.5 <= 1.4).
  { split.
    - rewrite pow_pos_base by (apply Rdiv_lt_0_compat; lra). left; apply Rpower_pos.
    - apply pow_half_below; [| lra]. split; [apply Rdiv_lt_0_compat; lra | lra]. }
  set (thick := JsMath.pow (radius / 50) 0.5) in *.
  assert (Hspeed : 1 <= JsMath.pow (98 / radius) 1.5).
  { apply pow_above_one; [| lra].
    apply (Rmult_le_reg_r radius); [lra |]. field_simplify; lra. }
  assert (Hdens : 0 <= JsMath.pow (50 / radius) 1.5).
  { rewrite pow_pos_base by (apply Rdiv_lt_0_compat; lra). left; apply Rpower_pos. }
  unfold seed_range; cbn [fst snd Disk.radius initialRadius baseHeight height
    baseSpeed speed infallSpeed mass magneticFieldLine isInISCO timeInISCO
    heatFromViscosity Rng.cursor Rng.draws].
  repeat match goal with |- _ /\ _ => split end;
    try reflexivity; try lra.
  - assert (Ht : 0 <= radius * (0.1 * thick) <= 13.72) by nra.
    revert Ht. generalize (radius * (0.1 * thick)). intros t Ht.
    apply Rabs_le. split; nra.
  - apply Rmult_lt_0_compat; [lra |].
    apply Rdiv_lt_0_compat; lra.
  - apply (Rmult_le_reg_r radius); [lra |]. field_simplify; lra.
  - pose proof (exp_pos (- JsMath.abs
        (((Rng.draws g (S (S n)) + Rng.draws g (S (S (S n)))
           + Rng.draws g (S (S (S (S n))))) / 3 - 0.5) * (radius * (0.1 * thick)))
        / (radius * (0.1 * thick)))) as He.
    nra.
  - apply (floor_index _ 16). lra.
  - unfold n. lia.
Qed.

End DiskSeeding.

Section DiskBookkeeping.

Import Disk.

Variable ps : params.
Variable companion : option CompanionStar.t.
Variable iscoRadius : R.
Variable dt : R.

Lemma integrate_height (p : particle) :
  -15 <= height (integrate ps companion dt p) <= 15.
Proof.
  unfold integrate; cbv zeta.
  destruct (companionForces ps companion p) as [[fr ft] fv].
  cbn [height]. unfold JsMath.max, JsMath.min.
  split.
  - apply Rmax_l.
  - apply Rmax_lub; [lra | apply Rmin_l].
Qed.

Lemma iscoBlock_bookkeeping (p : particle) (g : Rng.t) :
  let p' := fst (fst (iscoBlock ps iscoRadius p g)) in
  height p' = height p /\
  heatFromViscosity p' = Rmin 1 (timeInISCO p' / 50) /\
  (isInISCO p' = false -> timeInISCO p' = 0).
Proof.
  assert (Hz : 0 = Rmin 1 (0 / 50)).
  { replace (0 / 50) with 0 by lra. rewrite Rmin_right; lra. }
  unfold iscoBlock; cbv zeta.
  destruct (JsMath.geb (radius p) (iscoRadius - 3)
            && JsMath.leb (radius p) (iscoRadius + 3)).
  - unfold Rng.next; cbn [fst snd Rng.draws Rng.cursor].
    destruct (JsMath.ltb _ _);
      cbn [fst snd set_isco respawn height heatFromViscosity timeInISCO isInISCO].
    + split; [reflexivity |]. split; [exact Hz | reflexivity].
    + split; [reflexivity |]. split; [reflexivity | discriminate].
  - cbn [fst snd set_isco height heatFromViscosity timeInISCO isInISCO].
    split; [reflexivity |]. split; [exact Hz | reflexivity].
Qed.

Lemma fallBlock_bookkeeping (p : particle) (g : Rng.t) :
  let p' := fst (fallBlock iscoRadius p g) in
  height p' = height p /\ heatFromViscosity p' = heatFromViscosity p /\
  timeInISCO p' = timeInISCO p /\ isInISCO p' = isInISCO p.
Proof.
  unfold fallBlock. destruct (JsMath.ltb (radius p) (iscoRadius - 3));
    unfold Rng.next; cbn; repeat split; reflexivity.
Qed.

Lemma updateParticle_bookkeeping (p : particle) (g : Rng.t) :
  tick_bookkeeping (fst (fst (updateParticle ps companion iscoRadius dt p g))).
Proof.
  unfold updateParticle.
  pose proof (integrate_height p) as Hh.
  set (pi := integrate ps companion dt p) in *.
  pose proof (iscoBlock_bookkeeping pi g) as HI. cbv zeta in HI.
  destruct (iscoBlock ps iscoRadius pi g) as [[p1 l] g1]. cbn [fst snd] in HI.
  destruct HI as (I1 & I2 & I3).
  pose proof (fallBlock_bookkeeping p1 g1) as HF. cbv zeta in HF.
  destruct (fallBlock iscoRadius p1 g1) as [p2 g2]. cbn [fst snd] in HF.
  destruct HF as (F1 & F2 & F3 & F4).
  cbn [fst snd]. unfold tick_bookkeeping.
  cbn [set_verticalPhase height heatFromViscosity timeInISCO isInISCO].
  rewrite F1, F2, F3, F4, I1. split; [exact Hh |]. split; assumption.
Qed.

Lemma updateLoop_Forall (P : particle -> Prop) :
  (forall p g, P (fst (fst (updateParticle ps companion iscoRadius dt p g)))) ->
  forall diskData launchedParticles g,
    Forall P (fst (fst (updateLoop ps companion iscoRadius dt diskData
                                   launchedParticles g))).
Proof.
  intros HP. induction diskData as [| p rest IH]; intros launchedParticles g;
    cbn [updateLoop].
  - constructor.
  - specialize (HP p g).
    destruct (updateParticle ps companion iscoRadius dt p g) as [[p' l] g1].
    cbn [fst] in HP.
    set (launched' := match l with
                      | Some lp => launchedParticles ++ [lp]
                      | None => launchedParticles
                      end).
    specialize (IH launched' g1).
    destruct (updateLoop ps companion iscoRadius dt rest launched' g1)
      as [[rest' launched''] g2].
    cbn [fst] in IH |- *. constructor; assumption.
Qed.

Lemma iscoBlock_launch (p : particle) (g : Rng.t) (l : launched) :
  snd (fst (iscoBlock ps iscoRadius p g)) = Some l -> fresh_launch ps l.
Proof.
  unfold iscoBlock; cbv zeta.
  destruct (JsMath.geb (radius p) (iscoRadius - 3)
            && JsMath.leb (radius p) (iscoRadius + 3)); [| discriminate].
  unfold Rng.next; cbn [fst snd Rng.draws Rng.cursor].
  destruct (JsMath.ltb _ _); cbn [fst snd]; [| discriminate].
  intros H; injection H as <-. unfold fresh_launch.
  cbn [l_fieldProgress l_age l_maxAge l_lorentzFactor l_energy].
  repeat split; try reflexivity.
  unfold getBlandfordZnajekPower; cbv zeta.
  eexists; split; [apply exp_pos | reflexivity].
Qed.

Lemma updateLoop_launches :
  forall diskData launchedParticles g,
  exists news,
    snd (fst (updateLoop ps companion iscoRadius dt diskData launchedParticles g))
      = launchedParticles ++ news /\
    (List.length news <= List.length diskData)%nat /\
    Forall (fresh_launch ps) news.
Proof.
  induction diskData as [| p rest IH]; intros launchedParticles g; cbn [updateLoop].
  - exists []. cbn [fst snd]. rewrite app_nil_r.
    split; [reflexivity |]. split; [cbn [List.length]; lia | constructor].
  - assert (HL : forall l,
               snd (fst (updateParticle ps companion iscoRadius dt p g)) = Some l ->
               fresh_launch ps l).
    { intros l. unfold updateParticle.
      pose proof (iscoBlock_launch (integrate ps companion dt p) g l) as H.
      destruct (iscoBlock ps iscoRadius _ g) as [[p1 l1] g1].
      destruct (fallBlock iscoRadius p1 g1) as [p2 g2]. exact H. }
    destruct (updateParticle ps companion iscoRadius dt p g) as [[p' l] g1].
    cbn [fst snd] in HL.
    destruct l as [lp |].
    + destruct (IH (launchedParticles ++ [lp]) g1) as (news & E & Hlen & Hall).
      destruct (updateLoop ps companion iscoRadius dt rest _ g1)
        as [[rest' launched''] g2].
      cbn [fst snd] in E |- *. exists (lp :: news).
      rewrite E, <- app_assoc. split; [reflexivity |].
      split; [cbn [List.length]; lia |].
      constructor; [apply HL; reflexivity | exact Hall].
    + destruct (IH launchedParticles g1) as (news & E & Hlen & Hall).
      destruct (updateLoop ps companion iscoRadius dt rest _ g1)
        as [[rest' launched''] g2].
      cbn [fst snd] in E |- *. exists news.
      split; [exact E |]. split; [cbn [List.length]; lia | exact Hall].
Qed.

End DiskBookkeeping.

Lemma ticks_app (envs1 envs2 : list Disk.tickEnv) (diskData : list Disk.particle) :
  Disk.ticks (envs1 ++ envs2) diskData = Disk.ticks envs2 (Disk.ticks envs1 diskData).
Proof.
  revert diskData. induction envs1 as [| e envs1 IH]; intros diskData;
    cbn [app Disk.ticks]; [reflexivity |].
  destruct (Disk.updateDiskParticles _ _ _ _ _ _) as [[diskData' l'] g'].
  apply IH.
Qed.

Section Jets.

Import Disk.

Variable ps : params.
Hypothesis field_nonneg : 0 <= magneticFieldStrength ps.

Lemma funnel_radius (r theta : R) :
  0 <= r -> sqrt (r * cos theta * (r * cos theta) + r * sin theta * (r * sin theta)) = r.
Proof.
  intros Hr. pose proof (sin2_cos2 theta) as H. unfold Rsqr in H.
  replace (r * cos theta * (r * cos theta) + r * sin theta * (r * sin theta))
    with (r * r * (sin theta * sin theta + cos theta * cos theta)) by ring.
  rewrite H, Rmult_1_r. apply sqrt_square; exact Hr.
Qed.

Lemma updateJetParticle_bounded (lp lp' : launched) :
  jet_forward lp -> updateJetParticle ps lp = Some lp' ->
  jet_bounded lp' /\ jet_forward lp' /\
  l_age lp' = l_age lp + 1 /\ l_maxAge lp' = l_maxAge lp /\
  l_fieldProgress lp <= l_fieldProgress lp'.
Proof.
  intros [Hfp Hlf]. unfold updateJetParticle; cbv zeta.
  destruct (JsMath.gtb (l_age lp + 1) (l_maxAge lp)) eqn:E; [discriminate |].
  apply gtb_false in E. intros H; injection H as <-.
  assert (Hstep : 0 <= 0.025 * l_lorentzFactor lp * magneticFieldStrength ps) by nra.
  set (fp := l_fieldProgress lp + 0.025 * l_lorentzFactor lp * magneticFieldStrength ps).
  assert (Hfp' : 0 <= fp) by (unfold fp; lra).
  assert (Ht : 0 <= JsMath.min 1 fp <= 1).
  { unfold JsMath.min. split; [apply Rmin_glb; lra | apply Rmin_l]. }
  set (t := JsMath.min 1 fp) in *.
  pose proof (pow_closed_unit_range t 0.4 Ht ltac:(lra)) as Hpow.
  pose proof (SIN_bound (t * 20)) as Hsin.
  set (r := 18 * (1 - t * 0.8) + sin (t * 20) * 1.5).
  assert (Hr : 2.1 <= r <= 19.5) by (unfold r; lra).
  unfold jet_bounded, jet_forward.
  cbn [l_position l_age l_maxAge l_isUpper l_fieldProgress l_lorentzFactor x y z].
  fold fp t r.
  rewrite funnel_radius by lra.
  assert (Hz : 0 <= t * 180 * JsMath.pow t 0.4 <= 180) by nra.
  repeat match goal with |- _ /\ _ => split end;
    try lra; try reflexivity.
  - destruct (l_isUpper lp); apply Rabs_le; lra.
  - destruct (l_isUpper lp); lra.
  - unfold fp; lra.
Qed.

Lemma updateJetParticles_bounded (launchedParticles : list launched) :
  Forall jet_forward launchedParticles ->
  Forall jet_bounded (updateJetParticles ps launchedParticles) /\
  Forall jet_forward (updateJetParticles ps launchedParticles) /\
  (List.length (updateJetParticles ps launchedParticles)
   <= List.length launchedParticles)%nat.
Proof.
  induction 1 as [| lp rest Hlp Hrest IH]; cbn [updateJetParticles].
  - repeat split; constructor.
  - destruct IH as (IH1 & IH2 & IH3).
    destruct (updateJetParticle ps lp) as [lp' |] eqn:E.
    + destruct (updateJetParticle_bounded lp lp' Hlp E) as (B & F & _).
      repeat split; [constructor; assumption | constructor; assumption |].
      cbn [List.length]; lia.
    + repeat split; [assumption | assumption | cbn [List.length]; lia].
Qed.

End Jets.

Section IdleStep.

Import Disk.

Variable ps : params.
Variable companion : option CompanionStar.t.
Hypothesis idle : showCompanionStar ps = false \/ companion = None.
Hypothesis spiral_range : 0 <= spiralStrength ps <= 3.

Lemma companionForces_idle (p : particle) : companionForces ps companion p = (0, 0, 0).
Proof.
  unfold companionForces. destruct idle as [-> | ->]; [reflexivity |].
  destruct (showCompanionStar ps); reflexivity.
Qed.

Lemma accelMagnitude_idle (p : particle) :
  0.7 <= mass p -> 0 <= infallSpeed p <= 0.012 / 18 ->
  accelMagnitude ps companion p <= 0.1.
Proof.
  intros Hm Hi. unfold accelMagnitude; cbv zeta. rewrite companionForces_idle.
  unfold JsMath.abs.
  replace (0 * 1.2 / mass p) with 0 by (unfold Rdiv; ring).
  replace (0 * 18 / mass p) with 0 by (unfold Rdiv; ring).
  rewrite Rabs_R0.
  set (q := (- infallSpeed p * spiralStrength ps * 0.018 * 60 + 0 * 30) / mass p).
  replace (Rabs q * Rabs q + 0 * 0 + 0 * 0) with (Rsqr (Rabs q)) by (unfold Rsqr; ring).
  rewrite sqrt_Rsqr by apply Rabs_pos.
  assert (Hu : 0 <= infallSpeed p * spiralStrength ps <= 0.002) by nra.
  assert (Hq : q * mass p = - (infallSpeed p * spiralStrength ps) * 1.08).
  { unfold q, Rdiv. rewrite Rmult_assoc, Rinv_l by lra. nra. }
  apply Rabs_le. split.
  - apply (Rmult_le_reg_r (mass p)); [lra |]. rewrite Hq. nra.
  - apply (Rmult_le_reg_r (mass p)); [lra |]. rewrite Hq. nra.
Qed.

Lemma maxAccel_idle (diskData : list particle) :
  Forall (fun p => 0.7 <= mass p /\ 0 <= infallSpeed p <= 0.012 / 18) diskData ->
  maxAccelMagnitude ps companion diskData <= 0.1.
Proof.
  unfold maxAccelMagnitude.
  assert (H0 : 0 <= 0.1) by lra. revert H0. generalize 0 at 1 3.
  induction diskData as [| p rest IH]; intros m Hm Hall; cbn [fold_left].
  - exact Hm.
  - inversion Hall as [| ? ? [Hp1 Hp2] Hrest]; subst.
    apply IH; [| exact Hrest].
    unfold JsMath.max. apply Rmax_lub; [exact Hm |].
    apply accelMagnitude_idle; assumption.
Qed.

End IdleStep.

Lemma seedLoop_range (particleCount : nat) (g : Rng.t) :
  unit_draws g ->
  Forall seed_range (fst (Disk.seedLoop particleCount 16 g)) /\
  List.length (fst (Disk.seedLoop particleCount 16 g)) = particleCount /\
  Rng.cursor (snd (Disk.seedLoop particleCount 16 g))
    = (Rng.cursor g + 8 * particleCount)%nat /\
  Rng.draws (snd (Disk.seedLoop particleCount 16 g)) = Rng.draws g.
Proof.
  revert g. induction particleCount as [| n IH]; intros g Hg; cbn [Disk.seedLoop].
  - cbn [fst snd List.length]. repeat split; [constructor | lia].
  - destruct (seedParticle_range g Hg) as (Hp & Hc & Hd).
    destruct (Disk.seedParticle 16 g) as [p g1]; cbn [fst snd] in Hp, Hc, Hd.
    assert (Hg1 : unit_draws g1) by (unfold unit_draws; rewrite Hd; exact Hg).
    destruct (IH g1 Hg1) as (IH1 & IH2 & IH3 & IH4).
    destruct (Disk.seedLoop n 16 g1) as [rest g2]; cbn [fst snd] in *.
    split; [constructor; assumption |].
    split; [cbn [List.length]; congruence |].
    split; [lia | congruence].
Qed.

(** X22.  With draws in [[0, 1)], the seeding loop builds exactly
    [particleCount] disk particles from eight draws each, and every one
    starts between radius 18 and 98, no more than 7 above or below the
    plane, at its seed radius, height and speed, with speed at least
    0.007, infall speed in [(0, 0.012 / 18]], mass at least 0.7, an
    integer field-line index from 0 to 15, and outside the ISCO
    bookkeeping. *)
Theorem disk_seeding_ranges (particleCount : nat) (g : Rng.t)
  (Hdraws : unit_draws g) :
  let r := Disk.seedLoop particleCount 16 g in
  Forall seed_range (fst r) /\
  List.length (fst r) = particleCount /\
  Rng.cursor (snd r) = (Rng.cursor g + 8 * particleCount)%nat.
Proof.
  destruct (seedLoop_range particleCount g Hdraws) as (H1 & H2 & H3 & _).
  cbv zeta. repeat split; assumption.
Qed.

Lemma disk_seeding_ranges_witness :
  let r := Disk.seedLoop 2 16 (Rng.mk (fun _ => 0.5) 0) in
  Forall seed_range (fst r) /\
  List.length (fst r) = 2%nat /\
  Rng.cursor (snd r) = 16%nat.
Proof.
  apply (disk_seeding_ranges 2 (Rng.mk (fun _ => 0.5) 0)).
  intros n; cbn [Rng.draws]; lra.
Defined.

(** X23.  At the end of every disk tick, whatever the particles were
    before, each one has its height within [[-15, 15]], its viscous heat
    equal to [min 1 (timeInISCO / 50)], and a zero [timeInISCO] whenever
    it is flagged outside the ISCO band; the same holds after any run of
    ticks that is not empty. *)
Theorem disk_tick_bookkeeping
  (ps : Disk.params) (companion : option CompanionStar.t) (iscoRadius : R)
  (diskData : list Disk.particle) (launchedParticles : list Disk.launched)
  (g : Rng.t) (envs : list Disk.tickEnv) (e : Disk.tickEnv) :
  Forall tick_bookkeeping
    (fst (fst (Disk.updateDiskParticles ps companion iscoRadius diskData
                 launchedParticles g))) /\
  Forall tick_bookkeeping (Disk.ticks (envs ++ [e]) diskData).
Proof.
  split.
  - unfold Disk.updateDiskParticles.
    apply updateLoop_Forall. apply updateParticle_bookkeeping.
  - rewrite ticks_app. cbn [Disk.ticks]. unfold Disk.updateDiskParticles.
    pose proof (updateLoop_Forall (Disk.env_params e) (Disk.env_companion e)
                  (Disk.getISCO (Disk.blackHoleMass (Disk.env_params e))
                                (Disk.spinParameter (Disk.env_params e)))
                  (Disk.adaptiveDt (Disk.env_params e) (Disk.env_companion e)
                                   (Disk.ticks envs diskData))
                  tick_bookkeeping
                  (updateParticle_bookkeeping _ _ _ _)
                  (Disk.ticks envs diskData) (Disk.env_launched e)
                  (Disk.env_rng e)) as H.
    destruct (Disk.updateLoop _ _ _ _ _ _ _) as [[diskData' l'] g'].
    exact H.
Qed.

(** X24.  A disk tick only appends to [launchedParticles]: the list it
    was given comes back as a prefix, followed by at most one new jet
    particle per disk particle.  Each new one starts with field progress
    0, age 0, maximum age 250 and Lorentz factor [1 + 10 * energy], where
    the energy is [spin * spin * magneticFieldStrength] times a positive
    factor; so with a non-negative field strength its Lorentz factor is at
    least 1. *)
Theorem disk_launches_appended
  (ps : Disk.params) (companion : option CompanionStar.t) (iscoRadius : R)
  (diskData : list Disk.particle) (launchedParticles : list Disk.launched)
  (g : Rng.t) :
  exists news,
    snd (fst (Disk.updateDiskParticles ps companion iscoRadius diskData
                launchedParticles g))
      = launchedParticles ++ news /\
    (List.length news <= List.length diskData)%nat /\
    Forall (fresh_launch ps) news /\
    (0 <= Disk.magneticFieldStrength ps ->
     Forall (fun l => jet_forward l /\ 1 <= Disk.l_lorentzFactor l) news).
Proof.
  unfold Disk.updateDiskParticles.
  destruct (updateLoop_launches ps companion iscoRadius
              (Disk.adaptiveDt ps companion diskData)
              diskData launchedParticles g) as (news & E & Hlen & Hall).
  exists news. split; [exact E |]. split; [exact Hlen |]. split; [exact Hall |].
  intros HB. revert Hall. apply Forall_impl.
  intros l (H1 & _ & _ & H4 & h & Hh & He).
  assert (0 <= Disk.l_energy l).
  { rewrite He.
    pose proof (Rle_0_sqr (Disk.spinParameter ps)) as Hs. unfold Rsqr in Hs.
    apply Rmult_le_pos; [apply Rmult_le_pos; assumption | lra]. }
  unfold jet_forward. rewrite H1, H4. lra.
Qed.

(** X25.  With a non-negative magnetic field strength, one
    [updateJetParticles] never lengthens the list, and every jet particle
    that had non-negative field progress and Lorentz factor and survives
    is left inside the funnel: between 2.1 and 19.5 from the axis, at most
    180 from the disk plane on the side of its [isUpper] flag, not older
    than its [maxAge], and again with non-negative field progress and
    Lorentz factor. *)
Theorem jet_particles_stay_in_funnel
  (ps : Disk.params) (launchedParticles : list Disk.launched)
  (Hfield : 0 <= Disk.magneticFieldStrength ps)
  (Hforward : Forall jet_forward launchedParticles) :
  Forall jet_bounded (Disk.updateJetParticles ps launchedParticles) /\
  Forall jet_forward (Disk.updateJetParticles ps launchedParticles) /\
  (List.length (Disk.updateJetParticles ps launchedParticles)
   <= List.length launchedParticles)%nat.
Proof. exact (updateJetParticles_bounded ps Hfield launchedParticles Hforward). Qed.

Lemma jet_particles_stay_in_funnel_witness :
  let lps := [Disk.mkLaunched (V3 18 0 0) 3 0 1 0 0 250 true] in
  Forall jet_bounded (Disk.updateJetParticles defaultParams lps) /\
  Forall jet_forward (Disk.updateJetParticles defaultParams lps) /\
  (List.length (Disk.updateJetParticles defaultParams lps) <= List.length lps)%nat.
Proof.
  apply jet_particles_stay_in_funnel.
  - unfold defaultParams; cbn [Disk.magneticFieldStrength]; lra.
  - constructor; [| constructor].
    unfold jet_forward; cbn [Disk.l_fieldProgress Disk.l_lorentzFactor]; lra.
Defined.

(** X26.  While the companion is hidden or absent, the spiral strength
    is within its slider range [[0, 3]] and every particle has mass at
    least 0.7 and infall speed in [[0, 0.012 / 18]] (as seeded), the scan
    finds no acceleration above 0.1 and the adaptive time step is the
    base step 0.016. *)
Theorem idle_disk_keeps_base_timestep
  (ps : Disk.params) (companion : option CompanionStar.t)
  (diskData : list Disk.particle)
  (Hidle : Disk.showCompanionStar ps = false \/ companion = None)
  (Hspiral : 0 <= Disk.spiralStrength ps <= 3)
  (Hseeded : Forall (fun p => 0.7 <= Disk.mass p /\
                              0 <= Disk.infallSpeed p <= 0.012 / 18) diskData) :
  Disk.maxAccelMagnitude ps companion diskData <= 0.1 /\
  Disk.adaptiveDt ps companion diskData = 0.016.
Proof.
  pose proof (maxAccel_idle ps companion Hidle Hspiral diskData Hseeded) as H.
  split; [exact H |].
  unfold Disk.adaptiveDt, Disk.adaptiveDtOf.
  destruct (JsMath.gtb _ 0.1) eqn:E; [apply gtb_true in E; lra | reflexivity].
Qed.

Lemma idle_disk_keeps_base_timestep_witness :
  Disk.maxAccelMagnitude defaultParams None [leadingParticle] <= 0.1 /\
  Disk.adaptiveDt defaultParams None [leadingParticle] = 0.016.
Proof.
  apply idle_disk_keeps_base_timestep.
  - right; reflexivity.
  - unfold defaultParams; cbn [Disk.spiralStrength]; lra.
  - constructor; [| constructor].
    unfold leadingParticle; cbn [Disk.mass Disk.infallSpeed]; lra.
Defined.

(** X27.  For a non-negative mass and a spin between 0 and 1, the ISCO
    radius lies between one sixth of the Schwarzschild radius and the
    Schwarzschild radius itself, equals it at spin 0, and does not grow
    when the spin does. *)
Theorem isco_radius_range (mass spin spin' : R)
  (Hmass : 0 <= mass) (Hspin : 0 <= spin <= spin') (Hspin' : spin' <= 1) :
  Disk.getSchwarzschildRadius mass / 6 <= Disk.getISCO mass spin'
  /\ Disk.getISCO mass spin' <= Disk.getISCO mass spin
  /\ Disk.getISCO mass spin <= Disk.getISCO mass 0
  /\ Disk.getISCO mass 0 = Disk.getSchwarzschildRadius mass.
Proof.
  unfold Disk.getISCO, Disk.getSchwarzschildRadius; cbv zeta.
  assert (H : 0 <= mass / 66 * 10) by lra.
  revert H. generalize (mass / 66 * 10). intros rs Hrs.
  repeat split; nra.
Qed.

Lemma isco_radius_range_witness :
  Disk.getSchwarzschildRadius 66 / 6 <= Disk.getISCO 66 0.7
  /\ Disk.getISCO 66 0.7 <= Disk.getISCO 66 0.5
  /\ Disk.getISCO 66 0.5 <= Disk.getISCO 66 0
  /\ Disk.getISCO 66 0 = Disk.getSchwarzschildRadius 66.
Proof. apply isco_radius_range; lra. Defined.

Section WindLife.

Import CompanionStar.

Lemma seedWindParticle_on_ray (c : t) (g : Rng.t) :
  unit_draws g ->
  wind_on_ray (fst (seedWindParticle c g)) /\
  unit_draws (snd (seedWindParticle c g)).
Proof.
  intros Hg. unfold seedWindParticle, Rng.next; cbv zeta.
  cbn [fst snd Rng.draws Rng.cursor].
  split; [| exact Hg].
  pose proof (Hg (S (S (S (S (Rng.cursor g)))))) as H4.
  set (dir := spherePoint _ _).
  assert (Hd : length dir = 1) by apply length_spherePoint.
  unfold wind_on_ray; cbn [w_direction w_position w_maxAge w_age].
  rewrite normalize_unit by exact Hd.
  split; [exact Hd |]. split; [| split; [reflexivity | lra]].
  eexists. unfold multiplyScalar. reflexivity.
Qed.

Lemma updateWindParticle_on_ray (c : t) (p : windParticle) (g : Rng.t) :
  wind_on_ray p ->
  wind_on_ray (fst (updateWindParticle c p g)) /\
  Rng.draws (snd (updateWindParticle c p g)) = Rng.draws g.
Proof.
  intros (Hd & [k Hk] & Hm & Ha). unfold updateWindParticle; cbv zeta.
  destruct (JsMath.gtb (w_age p + 1) (w_maxAge p)) eqn:E.
  - unfold Rng.next; cbn [fst snd Rng.draws Rng.cursor].
    split; [| reflexivity].
    set (dir := spherePoint _ _).
    assert (Hd' : length dir = 1) by apply length_spherePoint.
    unfold wind_on_ray; cbn [w_direction w_position w_maxAge w_age].
    rewrite normalize_unit by exact Hd'.
    split; [exact Hd' |]. split; [| split; [exact Hm | lra]].
    eexists. unfold multiplyScalar. reflexivity.
  - apply gtb_false in E. cbn [fst snd]. split; [| reflexivity].
    unfold wind_on_ray; cbn [w_direction w_position w_maxAge w_age].
    split; [exact Hd |]. split; [| split; [exact Hm | lra]].
    exists (k + w_velocity p * windDensity c). rewrite Hk.
    apply vec3_eq; unfold add, multiplyScalar; cbn [x y z]; ring.
Qed.

Lemma windLife_on_ray (cs : list t) (p : windParticle) (g : Rng.t) :
  wind_on_ray p -> wind_on_ray (windLife cs p g).
Proof.
  revert p g. induction cs as [| c rest IH]; intros p g Hp; cbn [windLife].
  - exact Hp.
  - destruct (updateWindParticle_on_ray c p g Hp) as [Hp' _].
    destruct (updateWindParticle c p g) as [p' g']. apply IH. exact Hp'.
Qed.

End WindLife.

(** X28.  With draws in [[0, 1)], a wind particle stays on its ray from
    the star for its whole life: as seeded by [createStellarWind] and
    after any number of pool updates, whatever the companion's parameters
    are in each frame, its direction is a unit vector, its position is a
    multiple of that direction, its [maxAge] is 200 and its age stays
    between 0 and 200. *)
Theorem wind_particle_stays_on_ray
  (c0 : CompanionStar.t) (cs : list CompanionStar.t) (g : Rng.t)
  (Hdraws : unit_draws g) :
  wind_on_ray (windLife cs (fst (CompanionStar.seedWindParticle c0 g))
                        (snd (CompanionStar.seedWindParticle c0 g))).
Proof.
  apply windLife_on_ray.
  exact (proj1 (seedWindParticle_on_ray c0 g Hdraws)).
Qed.

Lemma wind_particle_stays_on_ray_witness :
  wind_on_ray
    (windLife [defaultCompanion; defaultCompanion]
       (fst (CompanionStar.seedWindParticle defaultCompanion
               (Rng.mk (fun _ => 0.5) 0)))
       (snd (CompanionStar.seedWindParticle defaultCompanion
               (Rng.mk (fun _ => 0.5) 0)))).
Proof.
  apply wind_particle_stays_on_ray.
  intros n; cbn [Rng.draws]; lra.
Defined.
